(** * Dandelions: consensus minimum spanning trees, Fitch labelling,
      codon-constrained alignment and the force-directed layout.

    A shallow embedding of the algorithmic core of the repository
    (src/src/tree.cpp, src/src/main_frame.cpp, src/src/util.cpp,
    src/network.cpp) together with the properties its description states.

    Conventions.
    - [uint32_t] values are integers in [Z] with the wrap-around written out
      ([wrap32]); vector indices and sizes are [nat].
    - [std::string] and [std::string_view] are [list ascii]; a [std::vector]
      is a [list], read with [!!] and written with [<[ i := x ]>].
    - A C++ function is a function into [outcome]: it returns ([Ret]),
      throws ([Throw]), or has no defined result ([Stuck]: a read or write
      outside a buffer, a failed [assert], a loop that never ends).
    - Random choices ([std::shuffle], [random_bit], the iteration order of an
      [unordered_set]) are explicit arguments.
    - A [float] is the rational number it stands for and float arithmetic is
      exact; the square root is an argument of the simulation. *)

From Stdlib Require Import ZArith QArith Ascii String List Lia Permutation.
From stdpp Require Import base tactics option list numbers strings pretty.

Local Open Scope Z_scope.

(** ** Outcomes of a call *)

Inductive exn : Type :=
  | runtime_error
  | domain_error
  | out_of_range
  | length_error.

Inductive outcome (A : Type) : Type :=
  | Ret (a : A)
  | Throw (e : exn)
  | Stuck.
Arguments Ret {A} a.
Arguments Throw {A} e.
Arguments Stuck {A}.

#[global] Instance exn_eq_dec : EqDecision exn.
Proof. solve_decision. Defined.

#[global] Instance outcome_eq_dec {A} `{EqDecision A} : EqDecision (outcome A).
Proof. solve_decision. Defined.

#[global] Instance outcome_ret : MRet outcome := fun A x => Ret x.
#[global] Instance outcome_bind : MBind outcome := fun A B f m =>
  match m with
  | Ret a => f a
  | Throw e => Throw e
  | Stuck => Stuck
  end.

(** [v[i]] on a vector: reading outside the buffer has no defined result. *)
Definition vec_at {A} (v : list A) (i : nat) : outcome A :=
  match v !! i with
  | Some x => Ret x
  | None => Stuck
  end.

(** [v[i] = x]. *)
Definition vec_set {A} (v : list A) (i : nat) (x : A) : outcome (list A) :=
  if decide (i < length v)%nat then Ret (<[ i := x ]> v) else Stuck.

(** A counted [for] loop whose body may fail: [xs] lists the values of the
    loop variable in order. *)
Fixpoint for_each {A S} (xs : list A) (body : S -> A -> outcome S) (s : S)
  : outcome S :=
  match xs with
  | [] => Ret s
  | x :: xs' => s' ← body s x; for_each xs' body s'
  end.

(** ** Machine integers *)

Definition wrap32 (z : Z) : Z := z mod 2 ^ 32.
Definition UINT32_MAX : Z := 2 ^ 32 - 1.

(** ** matrix.h *)

Record Matrix (T : Type) : Type := mkMatrix {
  rows_ : nat;
  cols_ : nat;
  buf_ : list T
}.
Arguments mkMatrix {T} _ _ _.
Arguments rows_ {T} _.
Arguments cols_ {T} _.
Arguments buf_ {T} _.

(** [Matrix(rows, cols, default_t)]. *)
Definition Matrix_new {T} (rows cols : nat) (default_t : T) : Matrix T :=
  mkMatrix rows cols (replicate (rows * cols) default_t).

(** [m[{i, j}]] as an rvalue. *)
Definition mat_get {T} (m : Matrix T) (i j : nat) : outcome T :=
  vec_at (buf_ m) (i * cols_ m + j).

(** [m[{i, j}] = x]. *)
Definition mat_set {T} (m : Matrix T) (i j : nat) (x : T) : outcome (Matrix T) :=
  b ← vec_set (buf_ m) (i * cols_ m + j) x;
  mret (mkMatrix (rows_ m) (cols_ m) b).

(** [m[i]]: the span of row [i]. *)
Definition mat_row {T} (m : Matrix T) (i : nat) : list T :=
  take (cols_ m) (drop (i * cols_ m) (buf_ m)).

(** ** tree.cpp: distances *)

Definition dna : Type := list ascii.

(** The loop of [hamming_distance]: [aa] runs over [a], [bb] follows it in
    [b] without a bound of its own. *)
Fixpoint hamming_loop (d : Z) (a b : dna) : outcome Z :=
  match a with
  | [] => Ret d
  | x :: a' =>
      match b with
      | [] => Stuck
      | y :: b' =>
          hamming_loop (wrap32 (d + (if decide (x = y) then 0 else 1))) a' b'
      end
  end.

Definition hamming_distance (a b : dna) : outcome Z := hamming_loop 0 a b.

(** The first pair of loops of [make_distance_matrix]. *)
Definition fill_hamming (sequences : list dna) (dism : Matrix Z)
  : outcome (Matrix Z) :=
  for_each (seq 0 (length sequences)) (fun dism i =>
    a ← vec_at sequences i;
    for_each (seq 0 i) (fun dism j =>
      b ← vec_at sequences j;
      h ← hamming_distance a b;
      dism ← mat_set dism j i h;
      mat_set dism i j h) dism) dism.

(** The second pair of loops: [d <<= 16; d |= root_distance[j]]. *)
Definition pack_root (root_distance : list Z) (dism : Matrix Z)
  : outcome (Matrix Z) :=
  for_each (seq 0 (rows_ dism)) (fun dism i =>
    for_each (seq 0 (cols_ dism)) (fun dism j =>
      d ← mat_get dism i j;
      r ← vec_at root_distance j;
      mat_set dism i j (Z.lor (wrap32 (Z.shiftl d 16)) r)) dism) dism.

Definition make_distance_matrix (sequences : list dna) : outcome (Matrix Z) :=
  let n := length sequences in
  dism ← fill_hamming sequences (Matrix_new n n 0);
  pack_root (mat_row dism 0) dism.

Definition str (s : string) : dna := list_ascii_of_string s.



(** ** tree.cpp: minimum spanning trees *)

(** [struct Join] of [build_mst]: the best known edge of vertex [jc]. *)
Record Join : Type := mkJoin {
  jp : nat;
  jc : nat;
  jd : Z
}.

Definition MAX_D : Z := UINT32_MAX.

(** The random choices of one call of [build_mst]: what [std::shuffle] does
    to the tail of [joins], and the sequences [infer_ancestors] returns.
    [infer_ancestors] draws random bits and returns the elements of an
    [unordered_set] in its iteration order; the sequences it hands back enter
    [build_mst] only as the tail of [sequences]. *)
Record Rand : Type := mkRand {
  shuffle : list Join -> list Join;
  infer_ancestors : list dna -> Matrix Z -> list dna
}.

(** The choices of a call that draws nothing. *)
Definition no_rand : Rand := mkRand (fun l => l) (fun _ _ => []).

(** The composite key of attaching [c] below [p]. *)
Definition join_distance (sequences : list dna) (dism : Matrix Z) (c p : nat)
  : outcome Z :=
  if decide (c < rows_ dism /\ p < cols_ dism)%nat then mat_get dism c p
  else
    sc ← vec_at sequences c;
    sp ← vec_at sequences p;
    s0 ← vec_at sequences 0;
    d1 ← hamming_distance sc sp;
    d2 ← hamming_distance sp s0;
    mret (Z.lor (wrap32 (Z.shiftl d1 16)) (Z.land d2 65535)).

(** State of the inner loop of [build_mst]. *)
Record Relax : Type := mkRelax {
  r_joins : list Join;
  r_min_i : nat;
  r_min_d : Z
}.

(** Body of the inner loop at index [i]: relax [joins[i]] against the
    vertex added last, then track the minimum. *)
Definition relax_step (sequences : list dna) (dism : Matrix Z) (last_c : nat)
    (st : Relax) (i : nat) : outcome Relax :=
  ji ← vec_at (r_joins st) i;
  d ← join_distance sequences dism (jc ji) last_c;
  let ji' := if decide (d < jd ji) then mkJoin last_c (jc ji) d else ji in
  joins ← vec_set (r_joins st) i ji';
  mret (if decide (jd ji' < r_min_d st)
        then mkRelax joins i (jd ji')
        else mkRelax joins (r_min_i st) (r_min_d st)).

(** [std::swap(v[i], v[j])]. *)
Definition vec_swap {A} (v : list A) (i j : nat) : outcome (list A) :=
  x ← vec_at v i;
  y ← vec_at v j;
  v ← vec_set v i y;
  vec_set v j x.

(** Body of the outer loop at [pivot]. *)
Definition prim_step (sequences : list dna) (dism : Matrix Z)
    (joins : list Join) (pivot : nat) : outcome (list Join) :=
  last_added ← vec_at joins (pivot - 1);
  at_pivot ← vec_at joins pivot;
  st ← for_each (seq pivot (length joins - pivot))
         (relax_step sequences dism (jc last_added))
         (mkRelax joins pivot (jd at_pivot));
  vec_swap (r_joins st) pivot (r_min_i st).

Definition build_mst (rnd : Rand) (input : list dna) (dism : Matrix Z)
    (shuffle_sequences do_infer_ancestors : bool) : outcome (list nat) :=
  let inferred := if do_infer_ancestors then infer_ancestors rnd input dism else [] in
  let sequences := input ++ inferred in
  let dim := Nat.max (length sequences) (rows_ dism) in
  let joins := map (fun i => mkJoin 0 i MAX_D) (seq 0 dim) in
  joins ← (if shuffle_sequences
           then match joins with
                | [] => Stuck
                | j0 :: rest => Ret (j0 :: shuffle rnd rest)
                end
           else Ret joins);
  joins ← for_each (seq 1 (length joins - 1)) (prim_step sequences dism) joins;
  for_each joins (fun tree j => vec_set tree (jc j) (jp j))
    (replicate (length joins) 0%nat).

(** [while (n <= p) p = tree[p];]. The walk is deterministic over the
    [length tree] indices, so one that has not ended after that many steps
    never ends. *)
Fixpoint real_ancestor (fuel : nat) (tree : list nat) (n p : nat) : outcome nat :=
  if decide (n <= p)%nat then
    match fuel with
    | O => Stuck
    | S fuel' => p' ← vec_at tree p; real_ancestor fuel' tree n p'
    end
  else Ret p.

(** [uint32_t p = tree[c]; while (n <= p) p = tree[p];]. *)
Definition resolved_parent (tree : list nat) (n c : nat) : outcome nat :=
  p ← vec_at tree c;
  real_ancestor (length tree) tree n p.

Definition calculate_parsimony_score (tree : list nat) (dism : Matrix Z)
  : outcome Z :=
  for_each (seq 1 (rows_ dism - 1)) (fun score c =>
    p ← resolved_parent tree (rows_ dism) c;
    d ← mat_get dism c p;
    mret (wrap32 (score + Z.shiftr d 16))) 0.

(** ** tree.h: edges *)

(** A [float] obtained as the quotient of two integers: [num / den]. *)
Record Ratio : Type := mkRatio {
  num : Z;
  den : Z
}.

Record Edge : Type := mkEdge {
  parent : nat;
  child : nat;
  distance : Z;
  weight : Ratio
}.

Definition PCT_MAX : Z := UINT32_MAX.

(** Accumulation of one sampled tree into the occurrence table. *)
Definition tally_sample (n : nat) (dism : Matrix Z) (tree : list nat)
    (pct : Matrix Z) : outcome (Matrix Z) :=
  for_each (seq 1 (n - 1)) (fun pct c =>
    p ← resolved_parent tree n c;
    _ ← mat_get dism c p;
    x ← mat_get pct c p;
    mat_set pct c p (wrap32 (x - 1))) pct.

(** [rnd s] holds the random choices of sample [s]. The samples run as
    independent tasks and are accumulated in the order they were started. *)
Definition build_consensus_mst (rnd : nat -> Rand) (input : list dna)
    (n_samples : nat) (do_infer_ancestors : bool) : outcome (list Edge) :=
  let n := length input in
  dism ← make_distance_matrix input;
  max_p_tree ← build_mst no_rand input dism false false;
  _ ← calculate_parsimony_score max_p_tree dism;
  pct ← for_each (seq 0 n_samples) (fun pct s =>
           tree ← build_mst (rnd s) input dism true do_infer_ancestors;
           tally_sample n dism tree pct) (Matrix_new n n PCT_MAX);
  tree ← build_mst no_rand [] pct false false;
  if decide (n = 0)%nat then Throw length_error
  else
    for_each (seq 1 (n - 1)) (fun edges c =>
      p ← vec_at tree c;
      d ← mat_get dism c p;
      x ← mat_get pct c p;
      mret (edges ++
        [mkEdge p c (Z.shiftr d 16)
           (mkRatio (wrap32 (PCT_MAX - Z.land x PCT_MAX)) (Z.of_nat n_samples))]))
      [].


(** ** Notions the properties of the consensus speak of *)




(** What is assumed of the random choices: [std::shuffle] permutes, and the
    inferred ancestors have the length of the input sequences. *)
Definition fair (L : nat) (r : Rand) : Prop :=
  (forall l, shuffle r l ≡ₚ l) /\
  (forall input dism, Forall (fun s : dna => length s = L) input ->
     Forall (fun s : dna => length s = L) (infer_ancestors r input dism)).

(** [v] differs from [r] by exactly one base. *)
Definition one_base_apart (r v : dna) : Prop :=
  exists pre x y post, r = pre ++ x :: post /\ v = pre ++ y :: post /\ x <> y.

(** ** tree.cpp: the Markov model *)

(** [std::string::npos]. *)
Definition npos : Z := 2 ^ 64 - 1.

(** [std::array<size_t, 256> lut = {0}] with the four assignments that
    follow it: every other character keeps the initial value 0. *)
Definition lut (ch : ascii) : Z :=
  if decide (ch = "A"%char) then 0
  else if decide (ch = "C"%char) then 1
  else if decide (ch = "G"%char) then 2
  else if decide (ch = "T"%char) then 3
  else 0.

(** The substitution counts [m] (4 x 4) and the column sums [csums]. The
    entries are [double]s that hold whole numbers. *)
Record Counts : Type := mkCounts {
  c_m : Matrix Z;
  c_csums : list Z
}.

(** Body of the loop over the positions of one edge. *)
Definition count_position (pnts cnts : dna) (st : Counts) (i : nat)
  : outcome Counts :=
  pc ← vec_at pnts i;
  cc ← vec_at cnts i;
  let c := lut pc in
  let r := lut cc in
  if decide (c = npos \/ r = npos) then Throw domain_error
  else
    x ← mat_get (c_m st) (Z.to_nat r) (Z.to_nat c);
    m ← mat_set (c_m st) (Z.to_nat r) (Z.to_nat c) (x + 1);
    s ← vec_at (c_csums st) (Z.to_nat c);
    csums ← vec_set (c_csums st) (Z.to_nat c) (s + 1);
    mret (mkCounts m csums).

(** The loop over the edges. *)
Definition count_substitutions (sequences : list dna) (adj_list : list Edge)
  : outcome Counts :=
  for_each adj_list (fun st e =>
    pnts ← vec_at sequences (parent e);
    cnts ← vec_at sequences (child e);
    for_each (seq 0 (length pnts)) (count_position pnts cnts) st)
    (mkCounts (Matrix_new 4 4 0) (replicate 4 0)).

(** The normalisation of the columns; an entry [num / den] is the [double]
    quotient of the count by the column sum. *)
Definition normalise_columns (st : Counts) : outcome (Matrix Ratio) :=
  for_each (seq 0 4) (fun m c =>
    s ← vec_at (c_csums st) c;
    if decide (s = 0) then mat_set m c c (mkRatio 1 1)
    else
      for_each (seq 0 4) (fun m r =>
        x ← mat_get (c_m st) r c;
        mat_set m r c (mkRatio x s)) m)
    (mkMatrix 4 4 (map (fun x => mkRatio x 1) (buf_ (c_m st)))).

Definition infer_markov_model (sequences : list dna) (adj_list : list Edge)
  : outcome (Matrix Ratio) :=
  st ← count_substitutions sequences adj_list;
  normalise_columns st.

(** ** util.cpp and network.cpp: the pairs handed to the workers *)

Definition wrap64 (z : Z) : Z := z mod 2 ^ 64.

(** [ltri_ij]. The square root is taken exactly: [Z.sqrt] is its integer
    part, and [r] is a whole number exactly when [1 + 8 k] is a square. The
    [std::sqrt] of the code, on doubles, gives the same pairs for every
    index below 6896136988131328, the index of the first pair of node
    117440513; from there on it rounds. *)
Definition ltri_ij (k : Z) : Z * Z :=
  let k := k + 1 in
  let s := Z.sqrt (1 + 8 * k) in
  let i := (s - 1) / 2 in
  if decide (s * s = 1 + 8 * k) then (i, i - 1)
  else (i + 1, k - i * (i + 1) / 2 - 1).

(** The pairs [(i, j)] one worker visits in [steps] iterations. *)
Fixpoint worker_pairs (steps : nat) (i j : Z) : list (Z * Z) :=
  match steps with
  | O => []
  | S steps' =>
      (i, j) :: (if decide (j + 1 = i) then worker_pairs steps' (i + 1) 0
                 else worker_pairs steps' i (j + 1))
  end.

(** The pairs of [simulate_step_worker] for the linear indices [lo, hi);
    with [hi < lo] the loop [li != hi] leaves every buffer. *)
Definition simulate_step_worker_pairs (lo hi : Z) : outcome (list (Z * Z)) :=
  if decide (lo <= hi) then
    let '(i, j) := ltri_ij lo in Ret (worker_pairs (Z.to_nat (hi - lo)) i j)
  else Stuck.

(** The bounds [simulate_step] hands to worker [i], for [size] nodes. *)
Definition worker_range (size n_workers i : Z) : Z * Z :=
  let chunk := wrap64 (size * wrap64 (size - 1)) / 2 / n_workers in
  (i * chunk, if decide (i = wrap64 (size - 1)) then size else (i + 1) * chunk).

Definition worker_ranges (size n_workers : Z) : list (Z * Z) :=
  map (fun i => worker_range size n_workers (Z.of_nat i))
    (seq 0 (Z.to_nat n_workers)).

(** Every pair whose force term one call of [simulate_step] accumulates. *)
Definition accumulated_pairs (size n_workers : Z) : outcome (list (Z * Z)) :=
  for_each (worker_ranges size n_workers) (fun acc '(lo, hi) =>
    ps ← simulate_step_worker_pairs lo hi;
    mret (acc ++ ps)) [].

(** The packed lower triangle: all pairs [(i, j)] with [j < i < size]. *)
Definition all_pairs (size : nat) : list (Z * Z) :=
  flat_map (fun i => map (fun j => (Z.of_nat i, Z.of_nat j)) (seq 0 i))
    (seq 0 size).


(** ** tree.cpp: the Fitch upward pass *)

(** [struct BNode]; the child pointers [l] and [r] may be null. The parent
    pointer is the position in the tree. *)
#[local] Unset Elimination Schemes.
Inductive BNode : Type :=
  mkBNode (id : nat) (l r : option BNode) (bseq : list Z).
#[local] Set Elimination Schemes.

Definition bn_id (n : BNode) : nat := let 'mkBNode i _ _ _ := n in i.
Definition bn_l (n : BNode) : option BNode := let 'mkBNode _ l _ _ := n in l.
Definition bn_r (n : BNode) : option BNode := let 'mkBNode _ _ r _ := n in r.








(** ** util.cpp: translation *)

(** An entry of the codon table of [translate]. *)
Definition codon (cdn : string) (aa : ascii) : dna * ascii :=
  (list_ascii_of_string cdn, aa).
Arguments codon cdn%_string aa%_char.

(** The codon table of [translate]. *)
Definition translation : list (dna * ascii) :=
  [
   codon "AAA" "K"; codon "AAC" "N"; codon "AAG" "K"; codon "AAT" "N";
   codon "ACA" "T"; codon "ACC" "T"; codon "ACG" "T"; codon "ACT" "T";
   codon "AGA" "R"; codon "AGC" "S"; codon "AGG" "R"; codon "AGT" "S";
   codon "ATA" "I"; codon "ATC" "I"; codon "ATG" "M"; codon "ATT" "I";
   codon "CAA" "Q"; codon "CAC" "H"; codon "CAG" "Q"; codon "CAT" "H";
   codon "CCA" "P"; codon "CCC" "P"; codon "CCG" "P"; codon "CCT" "P";
   codon "CGA" "R"; codon "CGC" "R"; codon "CGG" "R"; codon "CGT" "R";
   codon "CTA" "L"; codon "CTC" "L"; codon "CTG" "L"; codon "CTT" "L";
   codon "GAA" "E"; codon "GAC" "D"; codon "GAG" "E"; codon "GAT" "D";
   codon "GCA" "A"; codon "GCC" "A"; codon "GCG" "A"; codon "GCT" "A";
   codon "GGA" "G"; codon "GGC" "G"; codon "GGG" "G"; codon "GGT" "G";
   codon "GTA" "V"; codon "GTC" "V"; codon "GTG" "V"; codon "GTT" "V";
   codon "TAA" "*"; codon "TAC" "Y"; codon "TAG" "*"; codon "TAT" "Y";
   codon "TCA" "S"; codon "TCC" "S"; codon "TCG" "S"; codon "TCT" "S";
   codon "TGA" "*"; codon "TGC" "C"; codon "TGG" "W"; codon "TGT" "C";
   codon "TTA" "L"; codon "TTC" "F"; codon "TTG" "L"; codon "TTT" "F"].

(** [translation.at(cdn)]. *)
Definition translation_at (cdn : dna) : outcome ascii :=
  match list_find (fun e => fst e = cdn) translation with
  | Some (_, e) => Ret (snd e)
  | None => Throw out_of_range
  end.

Fixpoint translate_loop (nts cdn aas : dna) : outcome dna :=
  match nts with
  | [] => Ret aas
  | c :: nts' =>
      let cdn := if decide (c <> "-"%char) then cdn ++ [c] else cdn in
      if decide (length cdn = 3%nat) then
        aa ← translation_at cdn;
        translate_loop nts' [] (aas ++ [aa])
      else translate_loop nts' cdn aas
  end.

Definition translate (nts : dna) : outcome dna := translate_loop nts [] [].

(** ** main_frame.cpp: the codon-constrained alignment *)

Record Scan : Type := mkScan {
  s_cnt : nat;
  s_lo : nat;
  s_result : list (nat * nat)
}.

(** Body of the loop of [find_codon_boundaries] at index [i]. *)
Definition scan_char (st : Scan) (ich : nat * ascii) : Scan :=
  let '(i, ch) := ich in
  if decide (ch <> "-"%char) then
    let cnt := Datatypes.S (s_cnt st) in
    if decide (cnt = 1%nat) then mkScan cnt i (s_result st)
    else if decide (cnt = 3%nat)
         then mkScan 0 (s_lo st) (s_result st ++ [(s_lo st, i - s_lo st + 1)%nat])
         else mkScan cnt (s_lo st) (s_result st)
  else st.

(** Offset and length of every codon, gaps inside it included. *)
Definition find_codon_boundaries (seq : dna) : list (nat * nat) :=
  s_result (fold_left scan_char (imap pair seq) (mkScan 0 0 [])).

Definition intersect (ivala ivalb : nat * nat) : option (nat * nat) :=
  let lo := Nat.max (fst ivala) (fst ivalb) in
  let hi := Nat.min (fst ivala + snd ivala) (fst ivalb + snd ivalb) in
  if decide (lo < hi)%nat then Some (lo, hi - lo)%nat else None.

(** A [float] score: minus infinity, or a whole number (the scores are sums
    of 1.0 and of the gap penalty, which the caller leaves at 4.0). *)
Inductive fscore : Type :=
  | NegInf
  | Fin (z : Z).

Definition fscore_add (a b : fscore) : fscore :=
  match a, b with
  | Fin x, Fin y => Fin (x + y)
  | _, _ => NegInf
  end.

Definition fscore_lt (a b : fscore) : bool :=
  match a, b with
  | NegInf, Fin _ => true
  | Fin x, Fin y => bool_decide (x < y)
  | _, _ => false
  end.

(** [struct Trace]; [mv] is 'm', 'a', 'b' or the zero character. *)
Record Trace : Type := mkTrace {
  mv : ascii;
  score : fscore
}.

(** [*std::max_element(first, last, comp)]: the first largest element. *)
Definition max_element (options : list Trace) : outcome Trace :=
  match options with
  | [] => Stuck
  | t :: rest =>
      Ret (fold_left (fun largest t =>
             if fscore_lt (score largest) (score t) then t else largest) rest t)
  end.

(** The score of matching codon [i] of [seqa] with codon [j] of [seqb]. *)
Definition match_score (seqa seqb : dna) (ca cb : nat * nat) : outcome fscore :=
  match intersect ca cb with
  | Some (lo, len) =>
      s ← for_each (seq lo len) (fun s k =>
             a ← vec_at seqa k;
             b ← vec_at seqb k;
             mret (if decide (a = b /\ a <> "-"%char) then s + 1 else s)) 0;
      mret (Fin s)
  | None => Ret NegInf
  end.

Definition match_matrix (seqa seqb : dna) (cdnsa cdnsb : list (nat * nat))
  : outcome (Matrix fscore) :=
  for_each (seq 0 (length cdnsa)) (fun m i =>
    for_each (seq 0 (length cdnsb)) (fun m j =>
      ca ← vec_at cdnsa i;
      cb ← vec_at cdnsb j;
      s ← match_score seqa seqb ca cb;
      mat_set m i j s) m)
    (Matrix_new (length cdnsa) (length cdnsb) NegInf).

(** [gapp * static_cast<bool>(size != k)] taken off a score. *)
Definition gap_step (s : fscore) (gapp : Z) (size k : nat) : fscore :=
  fscore_add s (Fin (- (gapp * (if decide (size <> k) then 1 else 0)))).

Definition trace_matrix (na nb : nat) (gapp : Z) (mtch : Matrix fscore)
  : outcome (Matrix Trace) :=
  let trace := Matrix_new (na + 1) (nb + 1) (mkTrace "000" (Fin 0)) in
  trace ← for_each (seq 1 na) (fun trace i =>
             t ← mat_get trace i 0;
             mat_set trace i 0 (mkTrace "b" (score t))) trace;
  trace ← for_each (seq 1 nb) (fun trace j =>
             t ← mat_get trace 0 j;
             mat_set trace 0 j (mkTrace "a" (score t))) trace;
  for_each (seq 1 na) (fun trace i =>
    for_each (seq 1 nb) (fun trace j =>
      d ← mat_get trace (i - 1) (j - 1);
      s ← mat_get mtch (i - 1) (j - 1);
      a ← mat_get trace i (j - 1);
      b ← mat_get trace (i - 1) j;
      t ← max_element
            [mkTrace "m" (fscore_add (score d) s);
             mkTrace "a" (gap_step (score a) gapp nb j);
             mkTrace "b" (gap_step (score b) gapp na i)];
      mat_set trace i j t) trace) trace.

(** [translate(std::string_view(&seq[lo], len))[0]]. *)
Definition codon_residue (seq : dna) (c : nat * nat) : outcome ascii :=
  aas ← translate (take (snd c) (drop (fst c) seq));
  mret (default "000"%char (head aas)).

(** The walk back from the last cell; every move lowers [i + j]. *)
Fixpoint traceback (fuel : nat) (seqa seqb : dna) (cdnsa cdnsb : list (nat * nat))
    (trace : Matrix Trace) (i j : nat) (top btm : dna) : outcome (dna * dna) :=
  match fuel with
  | O => Stuck
  | S fuel' =>
      t ← mat_get trace i j;
      if decide (mv t = "m"%char) then
        ca ← vec_at cdnsa (i - 1);
        x ← codon_residue seqa ca;
        cb ← vec_at cdnsb (j - 1);
        y ← codon_residue seqb cb;
        if decide (i = 0 \/ j = 0)%nat then Stuck
        else traceback fuel' seqa seqb cdnsa cdnsb trace (i - 1) (j - 1)
               (top ++ [x]) (btm ++ [y])
      else if decide (mv t = "a"%char) then
        cb ← vec_at cdnsb (j - 1);
        y ← codon_residue seqb cb;
        if decide (j = 0)%nat then Stuck
        else traceback fuel' seqa seqb cdnsa cdnsb trace i (j - 1)
               (top ++ ["-"%char]) (btm ++ [y])
      else if decide (mv t = "b"%char) then
        ca ← vec_at cdnsa (i - 1);
        x ← codon_residue seqa ca;
        if decide (i = 0)%nat then Stuck
        else traceback fuel' seqa seqb cdnsa cdnsb trace (i - 1) j
               (top ++ [x]) (btm ++ ["-"%char])
      else Ret (top, btm)
  end.

Definition contrained_nw_align (seqa seqb : dna) (gapp : Z) : outcome (dna * dna) :=
  let cdnsa := find_codon_boundaries seqa in
  let cdnsb := find_codon_boundaries seqb in
  mtch ← match_matrix seqa seqb cdnsa cdnsb;
  trace ← trace_matrix (length cdnsa) (length cdnsb) gapp mtch;
  '(top, btm) ← traceback (length cdnsa + length cdnsb + 1) seqa seqb cdnsa cdnsb
                  trace (length cdnsa) (length cdnsb) [] [];
  mret (rev top, rev btm).

(** ** main_frame.cpp: mutation tokens *)

(** [struct Mut]; [m_type] is '+', '-' or the zero character. *)
Record Mut : Type := mkMut {
  m_type : ascii;
  m_pos : nat;
  m_top : dna;
  m_btm : dna
}.

(** The first loop: one [Mut] per differing column. *)
Definition column_muts (top btm : dna) : outcome (list Mut) :=
  st ← for_each (seq 0 (length top)) (fun (st : list Mut * nat) i =>
         let '(muts, j) := st in
         t ← vec_at top i;
         b ← vec_at btm i;
         let muts :=
           if decide (t = "-"%char /\ b <> "-"%char)
           then muts ++ [mkMut "+" j [] [b]]
           else if decide (t <> "-"%char /\ b = "-"%char)
           then muts ++ [mkMut "-" j [t] []]
           else if decide (t <> b)
           then muts ++ [mkMut "000" j [t] [b]]
           else muts in
         mret (muts, if decide (t <> "-"%char) then Datatypes.S j else j)) ([], 0%nat);
  mret (fst st).

(** The second loop, run from the back of [muts]: [b] is the last element,
    [a] the one before it; [rprefix] holds the elements before [b], last
    first. *)
Fixpoint consolidate_from (b : Mut) (rprefix consolidated : list Mut)
  : list Mut :=
  match rprefix with
  | [] => consolidated ++ [b]
  | a :: rest =>
      if decide (m_type a <> "000"%char /\ m_type a = m_type b /\
                 (m_pos a + 1 = m_pos b)%nat)
      then consolidate_from
             (mkMut (m_type a) (m_pos a) (m_top a ++ m_top b) (m_btm a ++ m_btm b))
             rest consolidated
      else consolidate_from a rest (consolidated ++ [b])
  end.

Definition consolidate (muts : list Mut) : list Mut :=
  match rev muts with
  | [] => []
  | b :: rprefix => consolidate_from b rprefix []
  end.

(** [std::to_string] of a position. *)
Definition to_string (n : nat) : dna := list_ascii_of_string (pretty n).

(** The token of one event, with its trailing comma. *)
Definition token (m : Mut) : dna :=
  (if decide (m_type m = "+"%char)
   then "+"%char :: to_string (m_pos m + 1) ++ m_btm m
   else if decide (m_type m = "-"%char)
   then "-"%char :: to_string (m_pos m + 1) ++ m_top m
   else m_top m ++ to_string (m_pos m + 1) ++ m_btm m) ++ [","%char].

Definition tally_alignment_mutations (top btm : dna) : outcome dna :=
  if decide (length top = length btm) then
    muts ← column_muts top btm;
    let output := flat_map token (rev (consolidate muts)) in
    mret (removelast output)
  else Stuck.


(** ** network.cpp: the simulation

    A [float] is taken as the rational number it stands for, and every
    operation as exact; [sqrtf] is an argument of the functions that call
    it. *)

(** [for (i = 0; i < n; ++i) v[i] = f(i, v[i])]: a loop that updates a
    vector in place, element by element. *)
Definition update_each {A} (n : nat) (f : nat -> A -> outcome A) (v : list A)
  : outcome (list A) :=
  for_each (seq 0 n)
    (fun v i => a ← vec_at v i; b ← f i a; vec_set v i b) v.

(** A loop that builds one value per index [i < n]; [f i] is the value. *)
Fixpoint for_all {A B} (xs : list A) (f : A -> outcome B) : outcome (list B) :=
  match xs with
  | [] => Ret []
  | x :: xs' => b ← f x; bs ← for_all xs' f; Ret (b :: bs)
  end.

Definition tabulate {B} (n : nat) (f : nat -> outcome B) : outcome (list B) :=
  for_all (seq 0 n) f.

(** [std::max] and [std::min] on floats. *)
Definition fmax (a b : Q) : Q := if Qlt_le_dec a b then b else a.
Definition fmin (a b : Q) : Q := if Qlt_le_dec b a then b else a.

(** The simulation state of [struct Network]; [ids] lists [ptrs_[i]->id()]
    and [pos] the [pos] of the nodes [ptrs_] points to. *)
Record Network : Type := mkNetwork {
  ids : list nat;
  pos : list (Q * Q);
  pins_ : list Z;
  x_ : list Q;
  y_ : list Q;
  m_ : list Q;
  l_ : list Q;
  s_ : list Q;
  fxs_ : list (list Q);
  fys_ : list (list Q);
  vx_ : list Q;
  vy_ : list Q;
  d_vx_ : list Q;
  d_vy_ : list Q;
  n_workers_ : nat;
  iteration_ : nat;
  (** [params_['B'].value()], ... *)
  B_ : Q; C_ : Q; E_ : Q; G_ : Q; K_ : Q; Vmax_ : Q; dT_ : Q;
  EPSILON_ : Q
}.

(** The index of the first node with the given id. *)
Definition node_index (net : Network) (id : nat) : option nat :=
  fst <$> list_find (fun x => x = id) (ids net).

Definition pin_node (id : nat) (net : Network) : outcome Network :=
  match node_index net id with
  | Some i =>
      vx ← vec_set (vx_ net) i 0%Q;
      vy ← vec_set (vy_ net) i 0%Q;
      pins ← vec_set (pins_ net) i 0;
      Ret (mkNetwork (ids net) (pos net) pins (x_ net) (y_ net) (m_ net)
             (l_ net) (s_ net) (fxs_ net) (fys_ net) vx vy (d_vx_ net) (d_vy_ net)
             (n_workers_ net) (iteration_ net)
             (B_ net) (C_ net) (E_ net) (G_ net) (K_ net) (Vmax_ net) (dT_ net)
             (EPSILON_ net))
  | None => Ret net
  end.

Definition unpin_node (id : nat) (net : Network) : outcome Network :=
  match node_index net id with
  | Some i =>
      pins ← vec_set (pins_ net) i 1;
      Ret (mkNetwork (ids net) (pos net) pins (x_ net) (y_ net) (m_ net)
             (l_ net) (s_ net) (fxs_ net) (fys_ net) (vx_ net) (vy_ net)
             (d_vx_ net) (d_vy_ net) (n_workers_ net) (iteration_ net)
             (B_ net) (C_ net) (E_ net) (G_ net) (K_ net) (Vmax_ net) (dT_ net)
             (EPSILON_ net))
  | None => Ret net
  end.

(** The force term of the pair [(i, j)] with linear index [li]. *)
Definition pair_force (sqrtf : Q -> Q) (net : Network) (li i j : nat)
  : outcome (Q * Q) :=
  xi ← vec_at (x_ net) i;
  xj ← vec_at (x_ net) j;
  yi ← vec_at (y_ net) i;
  yj ← vec_at (y_ net) j;
  mi ← vec_at (m_ net) i;
  mj ← vec_at (m_ net) j;
  sl ← vec_at (s_ net) li;
  Ll ← vec_at (l_ net) li;
  let dx := (xj - xi)%Q in
  let dy := (yj - yi)%Q in
  let r_sq := (dx * dx + dy * dy)%Q in
  let r := sqrtf r_sq in
  let r_sq := fmax r_sq (EPSILON_ net) in
  let r := fmax r (EPSILON_ net) in
  let fg := (G_ net * mi * mj / r_sq)%Q in
  let k := (K_ net * sl)%Q in
  let l := (E_ net * Ll)%Q in
  let fs := ((r - l) * k)%Q in
  mret (((fg + fs) * dx / r)%Q, ((fg + fs) * dy / r)%Q).

(** One iteration of the loop of [simulate_step_worker]. The sums and
    products are those of the rationals the floats stand for; the code
    rounds the result of each operation to a [float]. *)
Definition worker_step (sqrtf : Q -> Q) (net : Network)
    (out : list Q * list Q) (at_ : nat * (Z * Z)) : outcome (list Q * list Q) :=
  let '(fx_out, fy_out) := out in
  let '(li, (zi, zj)) := at_ in
  let i := Z.to_nat zi in
  let j := Z.to_nat zj in
  '(fx, fy) ← pair_force sqrtf net li i j;
  a ← vec_at fx_out i;
  fx_out ← vec_set fx_out i (a + fx)%Q;
  a ← vec_at fy_out i;
  fy_out ← vec_set fy_out i (a + fy)%Q;
  a ← vec_at fx_out j;
  fx_out ← vec_set fx_out j (a - fx)%Q;
  a ← vec_at fy_out j;
  fy_out ← vec_set fy_out j (a - fy)%Q;
  mret (fx_out, fy_out).

Definition simulate_step_worker (sqrtf : Q -> Q) (net : Network)
    (fx_out fy_out : list Q) (lo hi : Z) : outcome (list Q * list Q) :=
  ps ← simulate_step_worker_pairs lo hi;
  for_each (zip (seq (Z.to_nat lo) (length ps)) ps) (worker_step sqrtf net)
    (map (fun _ => 0%Q) fx_out, map (fun _ => 0%Q) fy_out).

(** The threads of [simulate_step], then the sums into [fxs_[0]] and
    [fys_[0]]. Every worker writes its own accumulators only, so the threads
    are run one after the other; [chunk] divides by [n_workers_]. The sums
    of the accumulators are exact here, where the code rounds every [+=]. *)
Definition compute_forces (sqrtf : Q -> Q) (net : Network)
  : outcome (list (list Q) * list (list Q)) :=
  let size := Z.of_nat (length (ids net)) in
  let workers := Z.of_nat (n_workers_ net) in
  if decide (n_workers_ net = 0%nat) then Stuck else
  '(fxs, fys) ← for_each (seq 0 (n_workers_ net))
    (fun (acc : list (list Q) * list (list Q)) i =>
       let '(fxs, fys) := acc in
       fx_out ← vec_at fxs i;
       fy_out ← vec_at fys i;
       let '(lo, hi) := worker_range size workers (Z.of_nat i) in
       '(fx_out, fy_out) ← simulate_step_worker sqrtf net fx_out fy_out lo hi;
       fxs ← vec_set fxs i fx_out;
       fys ← vec_set fys i fy_out;
       mret (fxs, fys)) (fxs_ net, fys_ net);
  for_each (seq 1 (n_workers_ net - 1))
    (fun (acc : list (list Q) * list (list Q)) i =>
       let '(fxs, fys) := acc in
       fx ← vec_at fxs 0;
       fy ← vec_at fys 0;
       fxi ← vec_at fxs i;
       fyi ← vec_at fys i;
       let n := length fx in
       fx ← update_each n (fun j a => b ← vec_at fxi j; mret (a + b)%Q) fx;
       fy ← update_each n (fun j a => b ← vec_at fyi j; mret (a + b)%Q) fy;
       fxs ← vec_set fxs 0 fx;
       fys ← vec_set fys 0 fy;
       mret (fxs, fys)) (fxs, fys).

(** [d_v[i] = (f[i] - B * v[i] - C * x[i]) / m[i]] for [i < f.size()], then
    [v[i] += d_v[i]] for [i < v.size()]: the new [d_v] and [v]. The loops
    for the two coordinates share no vector that either writes, so the
    pair of loops for x is taken before the pair for y. *)
Definition accelerate (net : Network) (f d_v v x : list Q)
  : outcome (list Q * list Q) :=
  d_v ← update_each (length f) (fun i _ =>
           fi ← vec_at f i;
           vi ← vec_at v i;
           xi ← vec_at x i;
           mi ← vec_at (m_ net) i;
           mret ((fi - B_ net * vi - C_ net * xi) / mi)%Q) d_v;
  v ← update_each (length v) (fun i a =>
         di ← vec_at d_v i;
         mret (a + di)%Q) v;
  mret (d_v, v).

(** The speed [s] of a velocity and the factor of the speed limit. *)
Definition speed (sqrtf : Q -> Q) (vx vy : Q) : Q :=
  sqrtf (vx * vx + vy * vy)%Q.

Definition limit_factor (net : Network) (s : Q) (pin : Z) : Q :=
  (fmin (Vmax_ net) s / s * inject_Z pin)%Q.

(** The loop of the speed limit; a speed of at most [EPSILON_] ends the
    iteration before the pin is read. *)
Definition clamp (sqrtf : Q -> Q) (net : Network) (vx vy : list Q)
  : outcome (list Q * list Q) :=
  for_each (seq 0 (length vx))
    (fun (v : list Q * list Q) i =>
       let '(vx, vy) := v in
       vxi ← vec_at vx i;
       vyi ← vec_at vy i;
       let s := speed sqrtf vxi vyi in
       if Qle_bool s (EPSILON_ net) then mret (vx, vy)
       else
         pin ← vec_at (pins_ net) i;
         vx ← vec_set vx i (vxi * limit_factor net s pin)%Q;
         vy ← vec_set vy i (vyi * limit_factor net s pin)%Q;
         mret (vx, vy)) (vx, vy).

(** What the speed limit makes of a velocity [(vx, vy)] under [pin]. *)
Definition clamp_node (sqrtf : Q -> Q) (net : Network) (vx vy : Q) (pin : Z)
  : Q * Q :=
  let s := speed sqrtf vx vy in
  if Qle_bool s (EPSILON_ net) then (vx, vy)
  else ((vx * limit_factor net s pin)%Q, (vy * limit_factor net s pin)%Q).

(** [x[i] += dT * v[i]] for [i < x.size()]. *)
Definition advance (net : Network) (x v : list Q) : outcome (list Q) :=
  update_each (length x) (fun i a =>
    vi ← vec_at v i;
    mret (a + dT_ net * vi)%Q) x.

Definition simulate_step (sqrtf : Q -> Q) (net : Network) : outcome Network :=
  let d_vx := map (fun _ => 0%Q) (d_vx_ net) in
  let d_vy := map (fun _ => 0%Q) (d_vy_ net) in
  '(fxs, fys) ← compute_forces sqrtf net;
  fx ← vec_at fxs 0;
  fy ← vec_at fys 0;
  '(d_vx, vx) ← accelerate net fx d_vx (vx_ net) (x_ net);
  '(d_vy, vy) ← accelerate net fy d_vy (vy_ net) (y_ net);
  '(vx, vy) ← clamp sqrtf net vx vy;
  x ← advance net (x_ net) vx;
  y ← advance net (y_ net) vy;
  p ← tabulate (length (ids net)) (fun i =>
         xi ← vec_at x i; yi ← vec_at y i; mret (xi, yi));
  Ret (mkNetwork (ids net) p (pins_ net) x y (m_ net) (l_ net) (s_ net)
         fxs fys vx vy d_vx d_vy (n_workers_ net) (Datatypes.S (iteration_ net))
         (B_ net) (C_ net) (E_ net) (G_ net) (K_ net) (Vmax_ net) (dT_ net)
         (EPSILON_ net)).

(** [k] consecutive calls of [simulate_step]. *)
Fixpoint simulate_steps (sqrtf : Q -> Q) (k : nat) (net : Network)
  : outcome Network :=
  match k with
  | O => Ret net
  | S k' => net' ← simulate_step sqrtf net; simulate_steps sqrtf k' net'
  end.

(** A square root that is exact on the squares of rationals (and the largest
    multiple of [1 / den] below the root elsewhere); used to run the
    simulation on concrete states. *)
Definition sqrt_lower (q : Q) : Q :=
  Z.sqrt (Qnum q * Zpos (Qden q)) # Qden q.

(** A root with one child at distance 10, joined by a spring of natural
    length 9.9924, with the constants [Network()] sets and one worker. *)
Definition two_nodes : Network :=
  mkNetwork [0; 1]%nat [(0, 0); (10, 0)]%Q [1; 1]
    [0; 10]%Q [0; 0]%Q [2; 1]%Q [24981 # 2500]%Q [1]%Q
    [[0; 0]%Q] [[0; 0]%Q] [0; 0]%Q [0; 0]%Q [0; 0]%Q [0; 0]%Q 1 0
    1%Q (1 # 1000)%Q 1%Q (- (1 # 10))%Q (1 # 4)%Q (1 # 5)%Q 1%Q (1 # 10000)%Q.

(** A root and one other node at distance 1, with no spring between them. *)
Definition near_nodes : Network :=
  mkNetwork [0; 1]%nat [(0, 0); (1, 0)]%Q [1; 1]
    [0; 1]%Q [0; 0]%Q [2; 1]%Q [0]%Q [0]%Q
    [[0; 0]%Q] [[0; 0]%Q] [0; 0]%Q [0; 0]%Q [0; 0]%Q [0; 0]%Q 1 0
    1%Q (1 # 1000)%Q 1%Q (- (1 # 10))%Q (1 # 4)%Q (1 # 5)%Q 1%Q (1 # 10000)%Q.

(** ** util.cpp: strings *)

(** [std::toupper] and [std::isspace] in the "C" locale. *)
Definition toupper (c : ascii) : ascii :=
  let n := nat_of_ascii c in
  if decide (97 <= n <= 122)%nat then ascii_of_nat (n - 32) else c.

Definition isspace (c : ascii) : bool :=
  let n := nat_of_ascii c in
  bool_decide (n = 32 \/ 9 <= n <= 13)%nat.

(** The alphabet [make_valid_dna] keeps. *)
Definition ACGT : dna := str "ACGT-".

(** One character of the loop of [make_valid_dna]. *)
Definition keep_valid (st : list ascii * nat) (c : ascii) : list ascii * nat :=
  let c := toupper c in
  if decide (c ∈ ACGT) then (fst st ++ [c], snd st)
  else (fst st, Datatypes.S (snd st)).

(** [make_valid_dna]: the kept characters and the number of the others. *)
Definition make_valid_dna (sv : dna) : dna * nat :=
  fold_left keep_valid sv ([], 0%nat).

(** [s.starts_with(d)]. *)
Fixpoint starts_with (s d : dna) {struct d} : bool :=
  match d, s with
  | [], _ => true
  | x :: d', y :: s' => bool_decide (x = y) && starts_with s' d'
  | _ :: _, [] => false
  end.

(** The offset of the first occurrence of [d] in [s]. *)
Fixpoint find_first (s d : dna) : option nat :=
  if starts_with s d then Some 0%nat
  else match s with
       | [] => None
       | _ :: s' => Datatypes.S <$> find_first s' d
       end.

(** [s.find(d, pos)]; [None] is [npos]. *)
Definition find (s d : dna) (pos : nat) : option nat :=
  if decide (pos <= length s)%nat
  then (fun i => pos + i)%nat <$> find_first (drop pos s) d
  else None.

(** [s.substr(pos, count)]: at most [count] characters from [pos] on. *)
Definition substr (s : dna) (pos : nat) (count : Z) : outcome dna :=
  if decide (pos <= length s)%nat
  then Ret (take (Z.to_nat (Z.min count (Z.of_nat (length s - pos)))) (drop pos s))
  else Throw out_of_range.

(** The [do ... while] loop of [split]; with [hi = npos] the count
    [hi - lo] is [npos - lo]. *)
Fixpoint split_loop (fuel : nat) (s delim : dna) (lo : nat) (v : list dna)
  : outcome (list dna) :=
  match fuel with
  | O => Stuck
  | S fuel' =>
      let hi := find s delim lo in
      tok ← substr s lo (match hi with
                         | Some h => Z.of_nat h - Z.of_nat lo
                         | None => npos - Z.of_nat lo
                         end);
      match hi with
      | Some h => split_loop fuel' s delim (h + length delim) (v ++ [tok])
      | None => Ret (v ++ [tok])
      end
  end.

Definition split (s delim : dna) : outcome (list dna) :=
  split_loop (Datatypes.S (length s)) s delim 0 [].

(** [join(r, delim)]. *)
Definition join (r : list dna) (delim : dna) : dna :=
  match r with
  | [] => []
  | x :: r' => fold_left (fun s t => s ++ delim ++ t) r' x
  end.

(** The loop of [rstrip] on the reversed string: [s.back()] is its head and
    [remove_suffix(1)] its tail; [back()] of an empty view is undefined. *)
Fixpoint rstrip_loop (r : dna) : outcome dna :=
  match r with
  | [] => Stuck
  | c :: r' => if isspace c then rstrip_loop r' else Ret (rev r)
  end.

Definition rstrip (s : dna) : outcome dna := rstrip_loop (rev s).

(** [ss.find_last_of(delim)]. *)
Definition find_last_of (ss : dna) (delim : ascii) : option nat :=
  match find_first (rev ss) [delim] with
  | Some k => Some (length ss - 1 - k)%nat
  | None => None
  end.

(** The loops of [wrap]; [pos] is a [size_t]. *)
Fixpoint wrap_loop (fuel : nat) (s : dna) (max_len : Z) (delim : ascii)
    (pos : Z) (lines : list dna) : outcome (list dna) :=
  match fuel with
  | O => Stuck
  | S fuel' =>
      if decide (pos < Z.of_nat (length s)) then
        ss ← substr s (Z.to_nat pos) max_len;
        if decide (delim <> "000"%char) then
          let ss :=
            if decide (max_len < Z.of_nat (length ss)) then
              match find_last_of ss delim with
              | Some i => take (i + 1) ss
              | None => ss
              end
            else ss in
          wrap_loop fuel' s max_len delim (wrap64 (pos + Z.of_nat (length ss)))
            (lines ++ [ss])
        else
          wrap_loop fuel' s max_len delim (wrap64 (pos + max_len)) (lines ++ [ss])
      else Ret lines
  end.

Definition wrap (s : dna) (max_len : Z) (delim : ascii) : outcome (list dna) :=
  wrap_loop (Datatypes.S (length s)) s max_len delim 0 [].

(** ** network.cpp: the sequence of a node *)

(** ** tree.cpp: nucleotides as bit sets *)

(** [s.find(c)] for a character: the index of its first occurrence. *)
Definition find_char (s : dna) (c : ascii) : option nat :=
  fst <$> list_find (fun x => x = c) s.

(** [bit_encode]: [1 << i] for the [i]-th character of "ACGT-"; any other
    character fails the [assert]. *)
Definition bit_encode (nt : ascii) : outcome Z :=
  match find_char (str "ACGT-") nt with
  | Some i => Ret (Z.shiftl 1 (Z.of_nat i))
  | None => Stuck
  end.

(** [random_bit(mask)]. [draw] is the number the random engine delivers;
    the distribution maps it into [0, choices.size() - 1]. With no choice
    the index lies outside [choices]. *)
Definition random_bit (draw : nat) (mask : Z) : outcome Z :=
  let choices :=
    filter (fun i => Z.testbit mask (Z.of_nat i) = true) (seq 0 5) in
  i ← vec_at choices (draw mod length choices);
  mret (Z.shiftl 1 (Z.of_nat i)).

(** [bit_decode(b)]. *)
Definition bit_decode (draw : nat) (b : Z) : outcome ascii :=
  if decide (1 <= b <= 31) then
    r ← random_bit draw b;
    vec_at (str "-AC-G---T--------") (Z.to_nat r)
  else Stuck.

Definition to_bdna (s : dna) : outcome (list Z) := for_all s bit_encode.

(** [to_dna(b)]; [draws i] is the number drawn for position [i]. *)
Definition to_dna (draws : nat -> nat) (b : list Z) : outcome dna :=
  for_all (zip (seq 0 (length b)) b)
    (fun ix => bit_decode (draws (fst ix)) (snd ix)).
(** ** network.cpp: dragging a node *)

(** [translate_node(id, dx, dy)]: the first node with the given id is moved
    in the simulation vectors and in its [pos]. *)
Definition translate_node (id : nat) (dx dy : Q) (net : Network)
  : outcome Network :=
  match node_index net id with
  | Some i =>
      a ← vec_at (x_ net) i;
      x ← vec_set (x_ net) i (a + dx)%Q;
      b ← vec_at (y_ net) i;
      y ← vec_set (y_ net) i (b + dy)%Q;
      p ← vec_at (pos net) i;
      ps ← vec_set (pos net) i ((fst p + dx)%Q, (snd p + dy)%Q);
      Ret (mkNetwork (ids net) ps (pins_ net) x y (m_ net)
             (l_ net) (s_ net) (fxs_ net) (fys_ net) (vx_ net) (vy_ net)
             (d_vx_ net) (d_vy_ net) (n_workers_ net) (iteration_ net)
             (B_ net) (C_ net) (E_ net) (G_ net) (K_ net) (Vmax_ net) (dT_ net)
             (EPSILON_ net))
  | None => Ret net
  end.
(** ** parsers.cpp: plain text input *)


(** * Vocabulary of the statements *)

(** The number of positions at which [a] and [b] differ, counted over their
    common length. *)
Fixpoint mismatches (a b : dna) : Z :=
  match a, b with
  | x :: a', y :: b' => (if decide (x = y) then 0 else 1) + mismatches a' b'
  | _, _ => 0
  end.

(** An [n] x [n] matrix whose buffer has the size its dimensions give. *)
Definition mat_wf {T} (n : nat) (m : Matrix T) : Prop :=
  rows_ m = n /\ cols_ m = n /\ length (buf_ m) = (n * n)%nat.

(** Position of [c] in a list of vertices. *)
Fixpoint index_of (c : nat) (l : list nat) : nat :=
  match l with
  | [] => 0
  | x :: l' => if decide (x = c) then 0 else Datatypes.S (index_of c l')
  end.

(** [tree] is a tree on [0 .. dim) rooted at 0: [rank] decreases along every
    parent link. *)
Definition rooted_by (rank : nat -> nat) (dim : nat) (tree : list nat) : Prop :=
  length tree = dim /\
  (forall c, (c < dim)%nat -> (rank c < dim)%nat) /\
  forall c, (1 <= c < dim)%nat ->
    exists p, tree !! c = Some p /\ (p < dim)%nat /\ (rank p < rank c)%nat.

(** The records [build_mst] starts from, vertex 0 apart. *)
Definition pending0 (dim : nat) : list Join :=
  map (fun i => mkJoin 0 i MAX_D) (seq 1 (dim - 1)).

(** Random choices used to instantiate the theorems: the shuffle reverses
    the pending records, and one ancestor of length 4 is inferred. *)
Definition reversing : Rand :=
  mkRand (@rev Join) (fun _ _ => [str "ACGG"]).


(** The four bases. *)
Definition nucleotides : dna := ["A"; "C"; "G"; "T"]%char.

(** The velocity of node [i] after [vx_ += d_vx_; vy_ += d_vy_], before the
    speed limit is applied. *)
Definition updated_velocity (sqrtf : Q -> Q) (net : Network) (i : nat)
  : outcome (Q * Q) :=
  '(fxs, fys) ← compute_forces sqrtf net;
  fx ← vec_at fxs 0;
  fy ← vec_at fys 0;
  '(_, vx) ← accelerate net fx (map (fun _ => 0%Q) (d_vx_ net)) (vx_ net) (x_ net);
  '(_, vy) ← accelerate net fy (map (fun _ => 0%Q) (d_vy_ net)) (vy_ net) (y_ net);
  ux ← vec_at vx i;
  uy ← vec_at vy i;
  Ret (ux, uy).

(** The linear index of the pair [(i, j)], [j < i], in the packed lower
    triangle. *)
Definition packed_index (i j : Z) : Z := i * (i - 1) / 2 + j.

(** The pairs of the [n] linear indices from [lo] on. *)
Definition linear_pairs (lo : Z) (n : nat) : list (Z * Z) :=
  map (fun t => ltri_ij (lo + Z.of_nat t)) (seq 0 n).

(** [l] cut into pieces of [m] elements, the last one shorter when [m] does
    not divide the length; at most [fuel] pieces. *)
Fixpoint chunks (fuel m : nat) (l : dna) : list dna :=
  match fuel with
  | O => []
  | S fuel' =>
      if decide (l = []) then [] else take m l :: chunks fuel' m (drop m l)
  end.

(** The entry [(r, c)] of a matrix of counts, and the sum of a column of a
    4 x 4 matrix. *)
Definition entry (m : Matrix Z) (r c : nat) : Z :=
  match mat_get m r c with
  | Ret x => x
  | _ => 0
  end.

Definition colsum (m : Matrix Z) (c : nat) : Z :=
  entry m 0 c + entry m 1 c + entry m 2 c + entry m 3 c.

(** The entry [(r, c)] of the model that belongs to the counts [st]. *)
Definition normalised (st : Counts) (r c : nat) : Ratio :=
  let s := colsum (c_m st) c in
  if decide (s = 0)
  then (if decide (r = c) then mkRatio 1 1 else mkRatio (entry (c_m st) r c) 1)
  else mkRatio (entry (c_m st) r c) s.

(** The nucleotides of a stretch, gaps left out. *)
Definition nongaps (l : list ascii) : list ascii :=
  filter (fun c => c <> "-"%char) l.

(** What [find_codon_boundaries] holds after the characters of [p]. *)
Definition scan_inv (p : list ascii) (st : Scan) : Prop :=
  (s_cnt st < 3)%nat /\
  (length (s_result st) * 3 + s_cnt st = length (nongaps p))%nat /\
  Forall (fun c : nat * nat =>
            (fst c + snd c <= length p)%nat /\
            length (nongaps (take (snd c) (drop (fst c) p))) = 3%nat)
         (s_result st) /\
  ((1 <= s_cnt st)%nat ->
   (s_lo st < length p)%nat /\
   length (nongaps (drop (s_lo st) p)) = s_cnt st).

(** The counts are not negative, and [csums] holds the sums of the
    columns. *)
Definition counts_inv (st : Counts) : Prop :=
  mat_wf 4 (c_m st) /\ length (c_csums st) = 4%nat /\
  (forall r c, (r < 4)%nat -> (c < 4)%nat -> 0 <= entry (c_m st) r c) /\
  forall c, (c < 4)%nat -> c_csums st !! c = Some (colsum (c_m st) c).


(** A mutation whose token has a character before the position. *)
Definition named_mut (m : Mut) : Prop :=
  m_type m = "+"%char \/ m_type m = "-"%char \/ m_top m <> [].

(** The network with other contents in the accumulators [fxs_] and [fys_]
    of the workers. *)
Definition with_accumulators (net : Network) (fxs fys : list (list Q))
  : Network :=
  mkNetwork (ids net) (pos net) (pins_ net) (x_ net) (y_ net) (m_ net)
    (l_ net) (s_ net) fxs fys (vx_ net) (vy_ net) (d_vx_ net) (d_vy_ net)
    (n_workers_ net) (iteration_ net)
    (B_ net) (C_ net) (E_ net) (G_ net) (K_ net) (Vmax_ net) (dT_ net)
    (EPSILON_ net).

(** Two lists of vectors with the same number of vectors, of the same
    sizes. *)
Definition same_sizes (a b : list (list Q)) : Prop :=
  Forall2 (fun r r' : list Q => length r = length r') a b.
(** * Properties *)

(** ** Loops and outcomes *)

Lemma bind_Ret {A B} (m : outcome A) (f : A -> outcome B) (b : B) :
  m ≫= f = Ret b <-> exists a, m = Ret a /\ f a = Ret b.
Proof.
  destruct m as [a| |]; simpl; split.
  - intros H. exists a. auto.
  - intros (a' & Ha & H). congruence.
  - discriminate.
  - intros (a' & Ha & _). discriminate.
  - discriminate.
  - intros (a' & Ha & _). discriminate.
Qed.

Lemma Ret_bind {A B} (a : A) (f : A -> outcome B) : Ret a ≫= f = f a.
Proof. reflexivity. Qed.

(** Step past a call whose result is known. *)
Ltac ret_bind :=
  match goal with
  | |- context [mbind ?f (Ret ?a)] => rewrite (Ret_bind a f)
  end.



Lemma bind_Throw {A B} (m : outcome A) (f : A -> outcome B) (e : exn) :
  m ≫= f = Throw e ->
  m = Throw e \/ exists a, m = Ret a /\ f a = Throw e.
Proof.
  destruct m as [a| |]; simpl; intros H.
  - right. exists a. auto.
  - left. congruence.
  - discriminate.
Qed.

(** A loop over [start, start + n) that maintains an invariant ends and
    establishes the invariant at its upper bound. *)
Lemma for_each_seq_inv {S} (P : nat -> S -> Prop) (body : S -> nat -> outcome S)
    (start n : nat) (s : S) :
  P start s ->
  (forall k s, (start <= k < start + n)%nat -> P k s ->
     exists s', body s k = Ret s' /\ P (Datatypes.S k) s') ->
  exists s', for_each (seq start n) body s = Ret s' /\ P (start + n)%nat s'.
Proof.
  revert start s. induction n as [|n IH]; intros start s H0 Hstep; simpl.
  - exists s. rewrite Nat.add_0_r. auto.
  - destruct (Hstep start s) as (s1 & Hb & H1); [lia | assumption |].
    rewrite Hb. simpl.
    destruct (IH (Datatypes.S start) s1) as (s2 & Hl & H2).
    + assumption.
    + intros k s' Hk. apply Hstep. lia.
    + exists s2. split; [assumption |].
      replace (start + Datatypes.S n)%nat with (Datatypes.S start + n)%nat by lia.
      assumption.
Qed.

Lemma for_each_upto {S} (P : nat -> S -> Prop) (Q : S -> Prop)
    (body : S -> nat -> outcome S) (n : nat) (s : S) :
  P 0%nat s ->
  (forall k s, (k < n)%nat -> P k s ->
     exists s', body s k = Ret s' /\ P (Datatypes.S k) s') ->
  (forall s, P n s -> Q s) ->
  exists s', for_each (seq 0 n) body s = Ret s' /\ Q s'.
Proof.
  intros H0 Hstep HQ.
  destruct (for_each_seq_inv P body 0 n s H0) as (s' & Hrun & Hend).
  - intros k s0 Hk. apply Hstep. lia.
  - exists s'. split; [assumption |]. apply HQ. exact Hend.
Qed.

(** A loop whose body never throws does not throw. *)
Lemma for_each_no_throw {A S} (xs : list A) (body : S -> A -> outcome S) (s : S) e :
  (forall s x e, body s x <> Throw e) ->
  for_each xs body s <> Throw e.
Proof.
  intros Hb. revert s. induction xs as [|x xs IH]; intros s; simpl.
  - discriminate.
  - intros H. apply bind_Throw in H as [H | (s' & _ & H)].
    + exact (Hb _ _ _ H).
    + exact (IH _ H).
Qed.

Lemma vec_at_Some {A} (v : list A) i x : v !! i = Some x -> vec_at v i = Ret x.
Proof. unfold vec_at. intros ->. reflexivity. Qed.

Lemma vec_at_no_throw {A} (v : list A) i e : vec_at v i <> Throw e.
Proof. unfold vec_at. destruct (v !! i); discriminate. Qed.

Lemma vec_set_no_throw {A} (v : list A) i x e : vec_set v i x <> Throw e.
Proof. unfold vec_set. destruct (decide _); discriminate. Qed.

Lemma mat_get_no_throw {T} (m : Matrix T) i j e : mat_get m i j <> Throw e.
Proof. apply vec_at_no_throw. Qed.

Lemma mat_set_no_throw {T} (m : Matrix T) i j x e : mat_set m i j x <> Throw e.
Proof.
  unfold mat_set. intros H. apply bind_Throw in H as [H | (b & _ & H)].
  - exact (vec_set_no_throw _ _ _ _ H).
  - discriminate.
Qed.

Lemma hamming_loop_no_throw d a b e : hamming_loop d a b <> Throw e.
Proof.
  revert d b. induction a as [|x a IH]; intros d b; simpl.
  - discriminate.
  - destruct b; [discriminate | apply IH].
Qed.

(** ** Hamming distance *)

Lemma mismatches_bounds a b : 0 <= mismatches a b <= Z.of_nat (length a).
Proof.
  revert b. induction a as [|x a IH]; intros [|y b]; simpl; try lia.
  specialize (IH b). destruct (decide (x = y)); lia.
Qed.

Lemma mismatches_sym a b : mismatches a b = mismatches b a.
Proof.
  revert b. induction a as [|x a IH]; intros [|y b]; simpl; try reflexivity.
  rewrite IH. destruct (decide (x = y)), (decide (y = x)); congruence.
Qed.

Lemma mismatches_refl a : mismatches a a = 0.
Proof.
  induction a as [|x a IH]; simpl; [reflexivity |].
  destruct (decide (x = x)); [lia | congruence].
Qed.

Lemma wrap32_idem z : wrap32 (wrap32 z) = wrap32 z.
Proof. unfold wrap32. apply Z.mod_mod. lia. Qed.

Lemma wrap32_small z : 0 <= z < 2 ^ 32 -> wrap32 z = z.
Proof. unfold wrap32. intros. apply Z.mod_small. assumption. Qed.

Lemma wrap32_range z : 0 <= wrap32 z < 2 ^ 32.
Proof. unfold wrap32. apply Z.mod_pos_bound. lia. Qed.

Lemma hamming_loop_spec d a b :
  (length a <= length b)%nat ->
  hamming_loop (wrap32 d) a b = Ret (wrap32 (d + mismatches a b)).
Proof.
  revert d b. induction a as [|x a IH]; intros d b Hlen.
  - simpl. rewrite Z.add_0_r. reflexivity.
  - destruct b as [|y b]; simpl in *; [lia |].
    replace (wrap32 (wrap32 d + (if decide (x = y) then 0 else 1)))
      with (wrap32 (d + (if decide (x = y) then 0 else 1))).
    + rewrite IH by lia. f_equal. f_equal. lia.
    + unfold wrap32. rewrite Zplus_mod_idemp_l. reflexivity.
Qed.

Lemma hamming_distance_spec a b :
  (length a <= length b)%nat ->
  hamming_distance a b = Ret (wrap32 (mismatches a b)).
Proof.
  intros H. unfold hamming_distance.
  change 0 with (wrap32 0) at 1. rewrite hamming_loop_spec by assumption.
  reflexivity.
Qed.

(** [hamming_distance] reads [b] out of range exactly when [b] is shorter
    than [a]. *)
Lemma hamming_loop_short d a b :
  (length b < length a)%nat -> hamming_loop d a b = Stuck.
Proof.
  revert d b. induction a as [|x a IH]; intros d [|y b] H; simpl in *;
    try lia; try reflexivity.
  apply IH. lia.
Qed.

(** ** Matrices *)

Lemma idx_lt (n a b : nat) : (a < n)%nat -> (b < n)%nat -> (a * n + b < n * n)%nat.
Proof.
  intros Ha Hb. assert (Datatypes.S a * n <= n * n)%nat by (apply Nat.mul_le_mono_r; lia).
  simpl in *. lia.
Qed.

Lemma idx_inj (n a b i j : nat) :
  (b < n)%nat -> (j < n)%nat -> (a * n + b = i * n + j)%nat -> a = i /\ b = j.
Proof.
  intros Hb Hj H.
  assert (a = i).
  { destruct (Nat.lt_trichotomy a i) as [Hlt | [Heq | Hgt]]; [| assumption |].
    - assert (Datatypes.S a * n <= i * n)%nat by (apply Nat.mul_le_mono_r; lia).
      simpl in *. lia.
    - assert (Datatypes.S i * n <= a * n)%nat by (apply Nat.mul_le_mono_r; lia).
      simpl in *. lia. }
  subst. split; [reflexivity | lia].
Qed.

Lemma Matrix_new_wf {T} n (x : T) : mat_wf n (Matrix_new n n x).
Proof. unfold mat_wf, Matrix_new. simpl. rewrite length_replicate. auto. Qed.

Lemma Matrix_new_get {T} n (x : T) a b :
  (a < n)%nat -> (b < n)%nat -> mat_get (Matrix_new n n x) a b = Ret x.
Proof.
  intros Ha Hb. unfold mat_get, vec_at, Matrix_new. simpl.
  rewrite lookup_replicate_2; [reflexivity | by apply idx_lt].
Qed.

Lemma mat_set_spec {T} n (m : Matrix T) i j x :
  mat_wf n m -> (i < n)%nat -> (j < n)%nat ->
  exists m', mat_set m i j x = Ret m' /\ mat_wf n m' /\
    forall a b, (a < n)%nat -> (b < n)%nat ->
      mat_get m' a b = if decide (a = i /\ b = j) then Ret x else mat_get m a b.
Proof.
  intros (Hr & Hc & Hl) Hi Hj.
  unfold mat_set, vec_set. rewrite Hc.
  destruct (decide (i * n + j < length (buf_ m))%nat) as [Hin|Hout];
    [| rewrite Hl in Hout; destruct Hout; by apply idx_lt].
  simpl. eexists. split; [reflexivity |]. split.
  - unfold mat_wf. simpl. rewrite length_insert. auto.
  - intros a b Ha Hb. unfold mat_get, vec_at. simpl. rewrite Hc.
    destruct (decide (a = i /\ b = j)) as [[-> ->]|Hne].
    + rewrite list_lookup_insert_eq by assumption. reflexivity.
    + rewrite list_lookup_insert_ne; [reflexivity |].
      intros Heq. apply Hne. symmetry in Heq.
      destruct (idx_inj n a b i j Hb Hj Heq); auto.
Qed.

Lemma mat_get_in_range {T} n (m : Matrix T) a b :
  mat_wf n m -> (a < n)%nat -> (b < n)%nat -> exists x, mat_get m a b = Ret x.
Proof.
  intros (Hr & Hc & Hl) Ha Hb. unfold mat_get, vec_at. rewrite Hc.
  destruct (lookup_lt_is_Some_2 (buf_ m) (a * n + b)%nat) as [x Hx];
    [rewrite Hl; by apply idx_lt |].
  rewrite Hx. eauto.
Qed.

Lemma mat_row0_lookup {T} n (m : Matrix T) j x :
  mat_wf n m -> (j < n)%nat -> mat_get m 0 j = Ret x -> mat_row m 0 !! j = Some x.
Proof.
  intros (Hr & Hc & Hl) Hj. unfold mat_get, vec_at, mat_row. rewrite Hc.
  rewrite Nat.mul_0_l, Nat.add_0_l, drop_0, lookup_take_lt by assumption.
  destruct (buf_ m !! j); intros H; [congruence | discriminate].
Qed.

(** ** make_distance_matrix *)

Section distance_matrix.
Variable sequences : list dna.
Let n := length sequences.

(** Every sequence is at most as long as the ones before it: the reads of
    [hamming_distance] then stay inside both strings. *)
Hypothesis lengths_decrease : forall i j a b,
  (j <= i)%nat -> sequences !! i = Some a -> sequences !! j = Some b ->
  (length a <= length b)%nat.

(** The distance stored for the pair [(i, j)], [j <= i]. *)
Definition Hd (i j : nat) : Z :=
  wrap32 (mismatches (sequences !!! i) (sequences !!! j)).

Definition Hsym (a b : nat) : Z := if decide (b < a)%nat then Hd a b else Hd b a.

Lemma hamming_at i j a b :
  (j <= i)%nat -> sequences !! i = Some a -> sequences !! j = Some b ->
  hamming_distance a b = Ret (Hd i j).
Proof.
  intros Hji Ha Hb. rewrite hamming_distance_spec by eauto.
  unfold Hd. rewrite (list_lookup_total_correct _ _ _ Ha).
  rewrite (list_lookup_total_correct _ _ _ Hb). reflexivity.
Qed.

Lemma Hd_diag i : Hd i i = 0.
Proof. unfold Hd. rewrite mismatches_refl. reflexivity. Qed.

(** State of the table inside the first pair of loops, at row [i] and
    column [j]. *)
Definition filled (i j a b : nat) : Prop :=
  a <> b /\ ((a < i /\ b < i) \/ (a = i /\ b < j) \/ (b = i /\ a < j))%nat.

#[local] Instance filled_dec i j a b : Decision (filled i j a b).
Proof. unfold filled. apply _. Defined.

Definition fill_inv (i j : nat) (m : Matrix Z) : Prop :=
  mat_wf n m /\
  forall a b, (a < n)%nat -> (b < n)%nat ->
    mat_get m a b = Ret (if decide (filled i j a b) then Hsym a b else 0).

Lemma fill_row i m :
  (i < n)%nat -> fill_inv i 0 m ->
  forall a, sequences !! i = Some a ->
  exists m',
    for_each (seq 0 i) (fun dism j =>
      b ← vec_at sequences j;
      h ← hamming_distance a b;
      dism ← mat_set dism j i h;
      mat_set dism i j h) m = Ret m' /\ fill_inv (Datatypes.S i) 0 m'.
Proof.
  intros Hi Hinv a Ha.
  apply (for_each_upto (fill_inv i)); [assumption | |].
  - intros j s Hj (Hwf & Hget).
    destruct (lookup_lt_is_Some_2 sequences j) as [b Hb]; [fold n; lia |].
    rewrite (vec_at_Some _ _ _ Hb). simpl.
    rewrite (hamming_at i j a b) by (assumption || lia). simpl.
    destruct (mat_set_spec n s j i (Hd i j) Hwf) as (s1 & -> & Hwf1 & Hget1);
      [lia | lia |]. simpl.
    destruct (mat_set_spec n s1 i j (Hd i j) Hwf1) as (s2 & -> & Hwf2 & Hget2);
      [lia | lia |].
    exists s2. split; [reflexivity |]. split; [assumption |].
    intros x y Hx Hy. rewrite Hget2, Hget1, Hget by assumption.
    unfold Hsym, filled.
    repeat case_decide; try reflexivity; try (exfalso; lia);
      try (f_equal; destruct_and?; subst; reflexivity).
  - intros m' (Hwf & Hget). split; [assumption |].
    intros x y Hx Hy. rewrite Hget by assumption.
    unfold filled. simpl. repeat case_decide; try reflexivity; exfalso; lia.
Qed.

Lemma fill_hamming_spec :
  exists m, fill_hamming sequences (Matrix_new n n 0) = Ret m /\
    mat_wf n m /\
    forall a b, (a < n)%nat -> (b < n)%nat -> mat_get m a b = Ret (Hsym a b).
Proof.
  unfold fill_hamming. fold n.
  apply (for_each_upto (fun i => fill_inv i 0)).
  - split; [apply Matrix_new_wf |].
    intros a b Ha Hb. rewrite Matrix_new_get by assumption.
    unfold filled. case_decide; [exfalso; lia | reflexivity].
  - intros i s Hi Hinv.
    destruct (lookup_lt_is_Some_2 sequences i) as [a Ha]; [fold n; lia |].
    rewrite (vec_at_Some _ _ _ Ha). simpl.
    apply fill_row; [lia | assumption | assumption].
  - intros m (Hwf & Hget). split; [assumption |].
    intros a b Ha Hb. rewrite Hget by assumption.
    unfold filled. case_decide as Hf; [reflexivity |].
    assert (a = b) as -> by lia.
    unfold Hsym. case_decide; [lia |]. rewrite Hd_diag. reflexivity.
Qed.

(** [d <<= 16; d |= r] on 32 bits. *)
Definition pack (d r : Z) : Z := Z.lor (wrap32 (Z.shiftl d 16)) r.

Definition pack_inv (E : nat -> nat -> Z) (R : nat -> Z) (i j : nat)
    (m : Matrix Z) : Prop :=
  mat_wf n m /\
  forall a b, (a < n)%nat -> (b < n)%nat ->
    mat_get m a b =
      Ret (if decide (a < i \/ (a = i /\ b < j))%nat
           then pack (E a b) (R b) else E a b).

Lemma pack_root_spec (E : nat -> nat -> Z) (R : nat -> Z) rd m :
  mat_wf n m ->
  (forall a b, (a < n)%nat -> (b < n)%nat -> mat_get m a b = Ret (E a b)) ->
  (forall b, (b < n)%nat -> rd !! b = Some (R b)) ->
  exists m', pack_root rd m = Ret m' /\ mat_wf n m' /\
    forall a b, (a < n)%nat -> (b < n)%nat ->
      mat_get m' a b = Ret (pack (E a b) (R b)).
Proof.
  intros Hwf HE HR. unfold pack_root.
  rewrite (proj1 Hwf).
  apply (for_each_upto (fun i => pack_inv E R i 0)).
  - split; [assumption |]. intros a b Ha Hb. rewrite HE by assumption.
    case_decide; [exfalso; lia | reflexivity].
  - intros i s Hi Hinv.
    rewrite (proj1 (proj2 (proj1 Hinv))).
    apply (for_each_upto (pack_inv E R i)); [assumption | |].
    + intros j s0 Hj (Hwf0 & Hget0).
      rewrite Hget0 by lia. case_decide; [exfalso; lia |]. simpl.
      rewrite (vec_at_Some _ _ _ (HR j ltac:(lia))). simpl.
      destruct (mat_set_spec n s0 i j (pack (E i j) (R j)) Hwf0)
        as (s1 & Hs1 & Hwf1 & Hget1); [lia | lia |].
      exists s1. split; [exact Hs1 |]. split; [assumption |].
      intros a b Ha Hb. rewrite Hget1, Hget0 by assumption.
      repeat case_decide; try reflexivity; try (exfalso; lia).
      destruct_and?; subst; reflexivity.
    + intros s' (Hwf' & Hget). split; [assumption |].
      intros a b Ha Hb. rewrite Hget by assumption.
      repeat case_decide; try reflexivity; exfalso; lia.
  - intros m' (Hwf' & Hget). split; [assumption |].
    intros a b Ha Hb. rewrite Hget by assumption.
    case_decide; [reflexivity | exfalso; lia].
Qed.

(** The table that [make_distance_matrix] returns. *)
Lemma make_distance_matrix_spec :
  exists m, make_distance_matrix sequences = Ret m /\ mat_wf n m /\
    forall a b, (a < n)%nat -> (b < n)%nat ->
      mat_get m a b = Ret (pack (Hsym a b) (Hd b 0)).
Proof.
  unfold make_distance_matrix. fold n.
  destruct fill_hamming_spec as (m1 & -> & Hwf1 & Hget1). simpl.
  apply (pack_root_spec Hsym (fun b => Hd b 0)); [assumption | assumption |].
  intros b Hb. apply (mat_row0_lookup n); [assumption | assumption |].
  rewrite Hget1 by lia. unfold Hsym.
  case_decide; [lia | reflexivity].
Qed.
End distance_matrix.

Lemma pack_fields d r :
  0 <= d < 2 ^ 16 -> 0 <= r < 2 ^ 16 ->
  Z.shiftr (pack d r) 16 = d /\ Z.land (pack d r) 65535 = r.
Proof.
  intros Hd Hr. unfold pack.
  rewrite wrap32_small by (rewrite Z.shiftl_mul_pow2 by lia; lia).
  split.
  - rewrite Z.shiftr_lor, Z.shiftr_shiftl_l, Z.sub_diag, Z.shiftl_0_r by lia.
    rewrite (Z.shiftr_div_pow2 r) by lia.
    rewrite Z.div_small by lia. apply Z.lor_0_r.
  - change 65535 with (Z.ones 16).
    rewrite Z.land_lor_distr_l, !Z.land_ones by lia.
    rewrite Z.shiftl_mul_pow2 by lia.
    rewrite Z.mod_mul by lia. rewrite Z.mod_small by lia. reflexivity.
Qed.

Lemma equal_lengths_decrease (sequences : list dna) (L : nat) :
  Forall (fun s => length s = L) sequences ->
  forall i j a b, (j <= i)%nat ->
    sequences !! i = Some a -> sequences !! j = Some b ->
    (length a <= length b)%nat.
Proof.
  intros Hall i j a b _ Ha Hb.
  rewrite Forall_lookup in Hall.
  rewrite (Hall _ _ Ha), (Hall _ _ Hb). lia.
Qed.

(** The packed entry at [(i, j)] of a table over sequences of one length
    below [2^16]: both halves, and the asymmetry they cause. *)
Lemma packed_entry (sequences : list dna) (L : nat) :
  Z.of_nat L < 65536 ->
  Forall (fun s => length s = L) sequences ->
  exists m, make_distance_matrix sequences = Ret m /\
    mat_wf (length sequences) m /\
    forall i j si sj s0,
      sequences !! i = Some si -> sequences !! j = Some sj ->
      sequences !! 0%nat = Some s0 ->
      mat_get m i j = Ret (pack (mismatches si sj) (mismatches sj s0)) /\
      hamming_distance si sj = Ret (mismatches si sj) /\
      hamming_distance sj s0 = Ret (mismatches sj s0) /\
      0 <= mismatches si sj < 2 ^ 16 /\ 0 <= mismatches sj s0 < 2 ^ 16.
Proof.
  intros HL Hall.
  pose proof (equal_lengths_decrease sequences L Hall) as Hdec.
  destruct (make_distance_matrix_spec sequences Hdec) as (m & Hm & Hwf & Hget).
  exists m. split; [assumption |]. split; [assumption |].
  intros i j si sj s0 Hi Hj H0.
  pose proof (lookup_lt_Some _ _ _ Hi) as Hi'.
  pose proof (lookup_lt_Some _ _ _ Hj) as Hj'.
  rewrite Forall_lookup in Hall.
  pose proof (Hall _ _ Hi) as Li. pose proof (Hall _ _ Hj) as Lj.
  pose proof (Hall _ _ H0) as L0. simpl in Li, Lj, L0.
  assert (forall a b : dna, length a = L -> 0 <= mismatches a b < 2 ^ 16) as Hb.
  { intros a b La. pose proof (mismatches_bounds a b). lia. }
  assert (forall a b : dna, length a = L -> wrap32 (mismatches a b) = mismatches a b)
    as Hw.
  { intros a b La. apply wrap32_small. specialize (Hb a b La). lia. }
  split; [| split; [| split; [| split]]].
  - rewrite Hget by assumption. f_equal. f_equal.
    + unfold Hsym, Hd. rewrite (list_lookup_total_correct _ _ _ Hi).
      rewrite (list_lookup_total_correct _ _ _ Hj).
      case_decide; rewrite Hw by assumption;
        [reflexivity | apply mismatches_sym].
    + unfold Hd. rewrite (list_lookup_total_correct _ _ _ Hj).
      rewrite (list_lookup_total_correct _ _ _ H0). apply Hw. assumption.
  - rewrite hamming_distance_spec by lia. rewrite Hw by assumption. reflexivity.
  - rewrite hamming_distance_spec by lia. rewrite Hw by assumption. reflexivity.
  - apply Hb. assumption.
  - apply Hb. assumption.
Qed.

(** C6 (as amended): for every list of sequences of one length below 65536,
    [make_distance_matrix] returns an N x N table whose entry (i, j) holds the
    Hamming distance between sequence i and sequence j in its high 16 bits and
    the Hamming distance from sequence j to sequence 0 in its low 16 bits;
    entries (i, j) and (j, i) differ whenever the root distances of i and j
    differ. *)
Theorem make_distance_matrix_packs (sequences : list dna) (L : nat) :
  Z.of_nat L < 65536 ->
  Forall (fun s => length s = L) sequences ->
  exists m, make_distance_matrix sequences = Ret m /\
    rows_ m = length sequences /\ cols_ m = length sequences /\
    forall i j si sj s0,
      sequences !! i = Some si -> sequences !! j = Some sj ->
      sequences !! 0%nat = Some s0 ->
      exists e e' dij dj0 di0,
        mat_get m i j = Ret e /\ mat_get m j i = Ret e' /\
        hamming_distance si sj = Ret dij /\
        hamming_distance sj s0 = Ret dj0 /\
        hamming_distance si s0 = Ret di0 /\
        Z.shiftr e 16 = dij /\ Z.land e 65535 = dj0 /\
        (di0 <> dj0 -> e <> e').
Proof.
  intros HL Hall.
  destruct (packed_entry sequences L HL Hall) as (m & Hm & Hwf & Hent).
  exists m. split; [assumption |].
  split; [apply Hwf |]. split; [apply Hwf |].
  intros i j si sj s0 Hi Hj H0.
  destruct (Hent i j si sj s0 Hi Hj H0) as (Hij & Hhij & Hhj0 & Bij & Bj0).
  destruct (Hent j i sj si s0 Hj Hi H0) as (Hji & _ & Hhi0 & Bji & Bi0).
  destruct (pack_fields _ _ Bij Bj0) as (Hhi & Hlo).
  destruct (pack_fields _ _ Bji Bi0) as (_ & Hlo').
  do 5 eexists.
  split; [exact Hij |]. split; [exact Hji |]. split; [exact Hhij |].
  split; [exact Hhj0 |]. split; [exact Hhi0 |].
  split; [exact Hhi |]. split; [exact Hlo |].
  intros Hne Heq. apply Hne. rewrite <- Hlo', <- Hlo, Heq. reflexivity.
Qed.

Lemma make_distance_matrix_packs_witness :
  exists m, make_distance_matrix [str "ACGT"; str "ACGA"; str "TCGA"] = Ret m /\
    rows_ m = 3%nat /\ cols_ m = 3%nat /\
    forall i j si sj s0,
      [str "ACGT"; str "ACGA"; str "TCGA"] !! i = Some si ->
      [str "ACGT"; str "ACGA"; str "TCGA"] !! j = Some sj ->
      [str "ACGT"; str "ACGA"; str "TCGA"] !! 0%nat = Some s0 ->
      exists e e' dij dj0 di0,
        mat_get m i j = Ret e /\ mat_get m j i = Ret e' /\
        hamming_distance si sj = Ret dij /\
        hamming_distance sj s0 = Ret dj0 /\
        hamming_distance si s0 = Ret di0 /\
        Z.shiftr e 16 = dij /\ Z.land e 65535 = dj0 /\
        (di0 <> dj0 -> e <> e').
Proof.
  apply (make_distance_matrix_packs
           [str "ACGT"; str "ACGA"; str "TCGA"] 4).
  - lia.
  - repeat constructor.
Defined.

(** C6 (as stated) fails once a Hamming distance needs more than 16 bits:
    for two sequences of length 65536 that differ everywhere the shift
    [d <<= 16] drops the whole distance, and entry (1, 0) is 0. *)
Lemma make_distance_matrix_packs_counterexample :
  length (replicate (Z.to_nat 65536) "A"%char) = length (replicate (Z.to_nat 65536) "C"%char) /\
  exists m e,
    make_distance_matrix [replicate (Z.to_nat 65536) "A"%char; replicate (Z.to_nat 65536) "C"%char]
      = Ret m /\
    mat_get m 1 0 = Ret e /\
    hamming_distance (replicate (Z.to_nat 65536) "C"%char) (replicate (Z.to_nat 65536) "A"%char)
      = Ret 65536 /\
    Z.shiftr e 16 = 0 /\ 0 <> 65536.
Proof.
  split; [rewrite !length_replicate; reflexivity |].
  exists (mkMatrix 2 2 [0; 65536; 0; 65536]), 0.
  split; [vm_compute; reflexivity |].
  split; [reflexivity |].
  split; [vm_compute; reflexivity |].
  split; [reflexivity | lia].
Qed.

Lemma mismatches_take (a b : dna) :
  mismatches a (take (length a) b) = mismatches a b.
Proof.
  revert b. induction a as [|x a IH]; intros [|y b]; simpl; try reflexivity.
  rewrite IH. reflexivity.
Qed.

(** The entries of the table when no sequence is longer than one before
    it: sequence [i] against an earlier sequence [j], both ways. *)
Lemma unchecked_entry (sequences : list dna) :
  (forall i j a b, (j <= i)%nat ->
      sequences !! i = Some a -> sequences !! j = Some b ->
      (length a <= length b)%nat) ->
  exists m, make_distance_matrix sequences = Ret m /\
    mat_wf (length sequences) m /\
    forall i j a b r, (j <= i)%nat ->
      sequences !! i = Some a -> sequences !! j = Some b ->
      sequences !! 0%nat = Some r ->
      hamming_distance a b = Ret (wrap32 (mismatches a (take (length a) b))) /\
      mat_get m i j =
        Ret (pack (wrap32 (mismatches a (take (length a) b)))
                  (wrap32 (mismatches b (take (length b) r)))) /\
      mat_get m j i =
        Ret (pack (wrap32 (mismatches a (take (length a) b)))
                  (wrap32 (mismatches a (take (length a) r)))).
Proof.
  intros Hdec.
  destruct (make_distance_matrix_spec sequences Hdec) as (m & Hm & Hwf & Hget).
  exists m. split; [assumption |]. split; [assumption |].
  intros i j a b r Hji Ha Hb Hr.
  pose proof (lookup_lt_Some _ _ _ Ha) as Hi'.
  pose proof (lookup_lt_Some _ _ _ Hb) as Hj'.
  rewrite !mismatches_take.
  split; [apply hamming_distance_spec; eauto |].
  rewrite !Hget by assumption.
  unfold Hsym, Hd.
  rewrite (list_lookup_total_correct _ _ _ Ha).
  rewrite (list_lookup_total_correct _ _ _ Hb).
  rewrite (list_lookup_total_correct _ _ _ Hr).
  split.
  - case_decide; [reflexivity |].
    assert (i = j) by lia. subst j.
    assert (a = b) by congruence. subst b. reflexivity.
  - case_decide; [lia | reflexivity].
Qed.

(** C4 (as amended): [make_distance_matrix] has no length check and throws
    for no input; when no sequence is longer than one before it (equal
    lengths included) it returns an N x N table in which the distance of a
    sequence [a] from an earlier sequence [b] is counted over the length of
    [a], the later one: it is what [hamming_distance a b] returns, the
    number of positions at which [a] differs from the first [length a]
    characters of [b], and it is stored at (i, j) and at (j, i), each time
    above the distance of the column's sequence from sequence 0, counted
    the same way. *)
Theorem make_distance_matrix_no_length_check (sequences : list dna) :
  (forall e, make_distance_matrix sequences <> Throw e) /\
  ((forall i j a b, (j <= i)%nat ->
      sequences !! i = Some a -> sequences !! j = Some b ->
      (length a <= length b)%nat) ->
   exists m, make_distance_matrix sequences = Ret m /\
     rows_ m = length sequences /\ cols_ m = length sequences /\
     length (buf_ m) = (length sequences * length sequences)%nat /\
     forall i j a b r, (j <= i)%nat ->
       sequences !! i = Some a -> sequences !! j = Some b ->
       sequences !! 0%nat = Some r ->
       length (take (length a) b) = length a /\
       hamming_distance a b =
         Ret (wrap32 (mismatches a (take (length a) b))) /\
       mat_get m i j =
         Ret (Z.lor (wrap32 (Z.shiftl
                       (wrap32 (mismatches a (take (length a) b))) 16))
                    (wrap32 (mismatches b (take (length b) r)))) /\
       mat_get m j i =
         Ret (Z.lor (wrap32 (Z.shiftl
                       (wrap32 (mismatches a (take (length a) b))) 16))
                    (wrap32 (mismatches a (take (length a) r))))).
Proof.
  split.
  - intros e H. unfold make_distance_matrix in H.
    apply bind_Throw in H as [H | (m & _ & H)].
    + revert H. unfold fill_hamming. apply for_each_no_throw.
      intros s i e' H.
      apply bind_Throw in H as [H | (a & _ & H)];
        [exact (vec_at_no_throw _ _ _ H) |].
      revert H. apply for_each_no_throw.
      intros s' j e'' H.
      apply bind_Throw in H as [H | (b & _ & H)];
        [exact (vec_at_no_throw _ _ _ H) |].
      apply bind_Throw in H as [H | (h & _ & H)];
        [exact (hamming_loop_no_throw _ _ _ _ H) |].
      apply bind_Throw in H as [H | (m' & _ & H)];
        exact (mat_set_no_throw _ _ _ _ _ H).
    + revert H. unfold pack_root. apply for_each_no_throw.
      intros s i e' H. revert H. apply for_each_no_throw.
      intros s' j e'' H.
      apply bind_Throw in H as [H | (d & _ & H)];
        [exact (mat_get_no_throw _ _ _ _ H) |].
      apply bind_Throw in H as [H | (r & _ & H)];
        [exact (vec_at_no_throw _ _ _ H) |].
      exact (mat_set_no_throw _ _ _ _ _ H).
  - intros Hdec.
    destruct (unchecked_entry sequences Hdec) as (m & Hm & Hwf & Hent).
    exists m. split; [assumption |].
    split; [apply Hwf |]. split; [apply Hwf |]. split; [apply Hwf |].
    intros i j a b r Hji Ha Hb Hr.
    destruct (Hent i j a b r Hji Ha Hb Hr) as (Hh & Hij & Hji').
    split; [apply length_take_le; eauto |].
    split; [exact Hh |]. split; [exact Hij | exact Hji'].
Qed.

(** C4 (as stated) fails: the two sequences below differ in length, and the
    call returns a table. *)
Lemma make_distance_matrix_unequal_counterexample :
  length (str "AC") <> length (str "A") /\
  make_distance_matrix [str "AC"; str "A"] = Ret (mkMatrix 2 2 [0; 0; 0; 0]).
Proof. split; [simpl; lia | reflexivity]. Qed.

Lemma make_distance_matrix_no_length_check_witness :
  (forall e, make_distance_matrix [str "ACG"; str "AT"; str "C"] <> Throw e) /\
  exists m, make_distance_matrix [str "ACG"; str "AT"; str "C"] = Ret m /\
    rows_ m = 3%nat /\ cols_ m = 3%nat /\ length (buf_ m) = 9%nat /\
    forall i j a b r, (j <= i)%nat ->
      [str "ACG"; str "AT"; str "C"] !! i = Some a ->
      [str "ACG"; str "AT"; str "C"] !! j = Some b ->
      [str "ACG"; str "AT"; str "C"] !! 0%nat = Some r ->
      length (take (length a) b) = length a /\
      hamming_distance a b =
        Ret (wrap32 (mismatches a (take (length a) b))) /\
      mat_get m i j =
        Ret (Z.lor (wrap32 (Z.shiftl
                      (wrap32 (mismatches a (take (length a) b))) 16))
                   (wrap32 (mismatches b (take (length b) r)))) /\
      mat_get m j i =
        Ret (Z.lor (wrap32 (Z.shiftl
                      (wrap32 (mismatches a (take (length a) b))) 16))
                   (wrap32 (mismatches a (take (length a) r)))).
Proof.
  destruct (make_distance_matrix_no_length_check
              [str "ACG"; str "AT"; str "C"]) as (Hno & Hret).
  split; [exact Hno |]. apply Hret.
  intros i j a b Hji Ha Hb.
  destruct i as [|[|[|i]]]; destruct j as [|[|[|j]]]; simpl in Ha, Hb;
    try discriminate; try lia;
    injection Ha as <-; injection Hb as <-; simpl; lia.
Defined.

(** ** build_mst: one pass of the outer loop *)

Lemma vec_set_Ret {A} (v : list A) i x :
  (i < length v)%nat -> vec_set v i x = Ret (<[ i := x ]> v).
Proof. intros H. unfold vec_set. destruct (decide _); [reflexivity | lia]. Qed.

(** Exchanging the head of a list with a later element permutes it. *)
Lemma swap_head_perm {A} (x y : A) (l : list A) (k : nat) :
  l !! k = Some y -> y :: <[ k := x ]> l ≡ₚ x :: l.
Proof.
  revert k. induction l as [|z l IH]; intros [|k] H; simpl in *; try discriminate.
  - injection H as ->. apply perm_swap.
  - rewrite (perm_swap z y). rewrite (IH k H). apply perm_swap.
Qed.

Lemma vec_swap_spec {A} (v : list A) (pivot m : nat) (x y : A) :
  v !! pivot = Some x -> v !! m = Some y -> (pivot <= m)%nat ->
  exists v', vec_swap v pivot m = Ret v' /\
    length v' = length v /\
    take pivot v' = take pivot v /\
    v' !! pivot = Some y /\
    drop pivot v' ≡ₚ drop pivot v.
Proof.
  intros Hx Hy Hle.
  pose proof (lookup_lt_Some _ _ _ Hx) as Lx.
  pose proof (lookup_lt_Some _ _ _ Hy) as Ly.
  unfold vec_swap. rewrite (vec_at_Some _ _ _ Hx), (vec_at_Some _ _ _ Hy). simpl.
  rewrite vec_set_Ret by assumption. simpl.
  rewrite vec_set_Ret by (rewrite length_insert; assumption).
  eexists. split; [reflexivity |].
  split; [rewrite !length_insert; reflexivity |].
  split; [rewrite !take_insert_ge by lia; reflexivity |].
  destruct (decide (m = pivot)) as [->|Hne].
  - assert (x = y) as -> by congruence.
    rewrite list_insert_insert_eq. rewrite list_insert_id by assumption.
    split; [assumption | reflexivity].
  - split.
    + rewrite list_lookup_insert_ne by lia.
      apply list_lookup_insert_eq. assumption.
    + rewrite drop_insert_ge by lia. rewrite drop_insert_ge by lia.
      rewrite Nat.sub_diag.
      destruct (drop pivot v) as [|x' l] eqn:Hd.
      { apply (f_equal length) in Hd. rewrite length_drop in Hd. simpl in Hd. lia. }
      assert (x' = x) as ->.
      { pose proof (lookup_drop v pivot 0) as H0. rewrite Hd in H0. simpl in H0.
        rewrite Nat.add_0_r in H0. congruence. }
      assert (l !! (m - pivot - 1)%nat = Some y) as Hl.
      { pose proof (lookup_drop v pivot (m - pivot)) as H0. rewrite Hd in H0.
        replace (pivot + (m - pivot))%nat with m in H0 by lia.
        replace (m - pivot)%nat with (Datatypes.S (m - pivot - 1)) in H0 by lia.
        simpl in H0. congruence. }
      replace (m - pivot)%nat with (Datatypes.S (m - pivot - 1)) by lia.
      simpl. apply swap_head_perm. assumption.
Qed.

Section prim.
Variable sequences : list dna.
Variable dism : Matrix Z.
Variable dim : nat.

(** Every key the loops ask for can be computed. *)
Hypothesis distance_defined : forall c p, (c < dim)%nat -> (p < dim)%nat ->
  exists d, join_distance sequences dism c p = Ret d.

Definition Dist (c p : nat) : Z :=
  match join_distance sequences dism c p with
  | Ret d => d
  | _ => 0
  end.

Lemma join_distance_Dist c p : (c < dim)%nat -> (p < dim)%nat ->
  join_distance sequences dism c p = Ret (Dist c p).
Proof.
  intros Hc Hp. unfold Dist.
  destruct (distance_defined c p Hc Hp) as (d & ->). reflexivity.
Qed.

(** What the inner loop does to one pending record. *)
Definition relax1 (last_c : nat) (j : Join) : Join :=
  if decide (Dist (jc j) last_c < jd j)
  then mkJoin last_c (jc j) (Dist (jc j) last_c) else j.

Lemma relax1_jc last_c j : jc (relax1 last_c j) = jc j.
Proof. unfold relax1. case_decide; reflexivity. Qed.

Lemma relax1_jd_le last_c j : jd (relax1 last_c j) <= jd j.
Proof. unfold relax1. case_decide; simpl; lia. Qed.

Definition relax_inv (joins : list Join) (pivot : nat) (at_pivot : Join)
    (last_c : nat) (i : nat) (st : Relax) : Prop :=
  length (r_joins st) = dim /\
  (forall k, r_joins st !! k =
     if decide (pivot <= k < i)%nat then relax1 last_c <$> joins !! k
     else joins !! k) /\
  (pivot <= r_min_i st)%nat /\
  (i = pivot -> r_min_i st = pivot /\ r_min_d st = jd at_pivot) /\
  ((pivot < i)%nat ->
    (r_min_i st < i)%nat /\
    exists jm, r_joins st !! r_min_i st = Some jm /\ jd jm = r_min_d st /\
      forall k j, (pivot <= k < i)%nat -> r_joins st !! k = Some j ->
        r_min_d st <= jd j).

Lemma relax_loop_spec (joins : list Join) (pivot : nat) (at_pivot : Join)
    (last_c : nat) :
  length joins = dim -> (pivot < dim)%nat -> (last_c < dim)%nat ->
  Forall (fun j => jc j < dim)%nat joins ->
  joins !! pivot = Some at_pivot ->
  exists st,
    for_each (seq pivot (dim - pivot)) (relax_step sequences dism last_c)
      (mkRelax joins pivot (jd at_pivot)) = Ret st /\
    relax_inv joins pivot at_pivot last_c dim st.
Proof.
  intros Hlen Hpivot Hlast Hjc Hat.
  destruct (for_each_seq_inv (relax_inv joins pivot at_pivot last_c)
    (relax_step sequences dism last_c) pivot (dim - pivot)
    (mkRelax joins pivot (jd at_pivot))) as (st & Hrun & Hend).
  - split; [assumption |]. split; [| split; [simpl; lia | split]].
    + intros k. simpl. case_decide; [lia | reflexivity].
    + auto.
    + lia.
  - intros i st Hi (Hl & Hlook & Hmin & Hfirst & Hlater).
    destruct (lookup_lt_is_Some_2 joins i) as [ji Hji]; [lia |].
    assert (r_joins st !! i = Some ji) as Hsti.
    { rewrite Hlook. case_decide; [lia | assumption]. }
    unfold relax_step. rewrite (vec_at_Some _ _ _ Hsti). simpl.
    rewrite Forall_lookup in Hjc.
    rewrite join_distance_Dist by eauto. simpl.
    rewrite vec_set_Ret by lia. simpl.
    fold (relax1 last_c ji).
    pose proof (relax1_jd_le last_c ji) as Hle.
    eexists. split; [reflexivity |].
    assert (forall k, <[ i := relax1 last_c ji ]> (r_joins st) !! k =
      if decide (pivot <= k < Datatypes.S i)%nat
      then relax1 last_c <$> joins !! k else joins !! k) as Hlook'.
    { intros k. destruct (decide (k = i)) as [->|Hne].
      - rewrite list_lookup_insert_eq by lia.
        case_decide; [| lia]. rewrite Hji. reflexivity.
      - rewrite list_lookup_insert_ne by lia. rewrite Hlook.
        repeat case_decide; try reflexivity; lia. }
    unfold relax_inv; case_decide as Hlt; simpl.
    + split; [rewrite length_insert; assumption |].
      split; [exact Hlook' |]. split; [lia |]. split; [lia |].
      intros _. split; [lia |].
      exists (relax1 last_c ji).
      split; [apply list_lookup_insert_eq; lia |]. split; [reflexivity |].
      intros k j Hk Hkj. destruct (decide (k = i)) as [->|Hne].
      * rewrite list_lookup_insert_eq in Hkj by lia. injection Hkj as <-. lia.
      * rewrite list_lookup_insert_ne in Hkj by lia.
        destruct Hlater as (_ & jm & _ & _ & Hall); [lia |].
        specialize (Hall k j ltac:(lia) Hkj). lia.
    + split; [rewrite length_insert; assumption |].
      split; [exact Hlook' |]. split; [lia |]. split; [lia |].
      intros _. destruct (decide (i = pivot)) as [->|Hne].
      * destruct Hfirst as (Hmi & Hmd); [reflexivity |].
        assert (ji = at_pivot) as -> by congruence.
        split; [lia |]. exists (relax1 last_c at_pivot).
        split; [rewrite Hmi; apply list_lookup_insert_eq; lia |].
        split; [lia |].
        intros k j Hk Hkj. assert (k = pivot) as -> by lia.
        rewrite list_lookup_insert_eq in Hkj by lia. injection Hkj as <-. lia.
      * destruct Hlater as (Hmi & jm & Hjm & Hjd & Hall); [lia |].
        split; [lia |]. exists jm.
        split; [rewrite list_lookup_insert_ne by lia; assumption |].
        split; [assumption |].
        intros k j Hk Hkj. destruct (decide (k = i)) as [->|Hne'].
        -- rewrite list_lookup_insert_eq in Hkj by lia. injection Hkj as <-. lia.
        -- rewrite list_lookup_insert_ne in Hkj by lia.
           apply (Hall k j); [lia | assumption].
  - exists st. split; [assumption |].
    replace (pivot + (dim - pivot))%nat with dim in Hend by lia. exact Hend.
Qed.

(** One pass of the outer loop: the attached prefix is kept, the pending
    records are relaxed against the vertex added last, and a record of
    least key comes first among them. *)
Lemma prim_step_spec (joins : list Join) (pivot : nat) (last_added : Join) :
  length joins = dim -> (1 <= pivot < dim)%nat ->
  Forall (fun j => jc j < dim)%nat joins ->
  joins !! (pivot - 1)%nat = Some last_added ->
  exists joins' jm rest,
    prim_step sequences dism joins pivot = Ret joins' /\
    length joins' = dim /\
    take pivot joins' = take pivot joins /\
    drop pivot joins' = jm :: rest /\
    jm :: rest ≡ₚ map (relax1 (jc last_added)) (drop pivot joins) /\
    Forall (fun j => jd jm <= jd j) rest.
Proof.
  intros Hlen Hpivot Hjc Hlast.
  destruct (lookup_lt_is_Some_2 joins pivot) as [at_pivot Hat]; [lia |].
  assert (jc last_added < dim)%nat as Hlc.
  { rewrite Forall_lookup in Hjc. eauto. }
  destruct (relax_loop_spec joins pivot at_pivot (jc last_added))
    as (st & Hrun & Hl & Hlook & Hmin & _ & Hlater); try assumption; [lia |].
  destruct Hlater as (Hmi & jm & Hjm & Hjd & Hall); [lia |].
  unfold prim_step. rewrite (vec_at_Some _ _ _ Hlast). simpl.
  rewrite (vec_at_Some _ _ _ Hat). simpl.
  rewrite Hlen, Hrun. simpl.
  assert (r_joins st =
    take pivot joins ++ map (relax1 (jc last_added)) (drop pivot joins)) as Hst.
  { apply list_eq. intros k. rewrite Hlook.
    destruct (decide (k < pivot)%nat) as [Hk|Hk].
    - rewrite lookup_app_l by (rewrite length_take; lia).
      rewrite lookup_take_lt by assumption. case_decide; [lia | reflexivity].
    - rewrite lookup_app_r by (rewrite length_take; lia).
      rewrite length_take, list_lookup_fmap, lookup_drop.
      replace (pivot + (k - pivot `min` length joins))%nat with k by lia.
      case_decide; [reflexivity |].
      rewrite (lookup_ge_None_2 joins k) by lia. reflexivity. }
  destruct (lookup_lt_is_Some_2 (r_joins st) pivot) as [x Hx]; [lia |].
  destruct (vec_swap_spec (r_joins st) pivot (r_min_i st) x jm Hx Hjm Hmin)
    as (joins' & Hsw & Hl' & Htake & Hhead & Hperm).
  destruct (drop pivot joins') as [|jm' rest] eqn:Hdrop.
  { apply (f_equal length) in Hdrop. rewrite length_drop in Hdrop.
    simpl in Hdrop. lia. }
  assert (jm' = jm) as ->.
  { pose proof (lookup_drop joins' pivot 0) as H0. rewrite Hdrop in H0.
    simpl in H0. rewrite Nat.add_0_r in H0. congruence. }
  exists joins', jm, rest. split; [exact Hsw |].
  split; [lia |].
  assert (drop pivot (r_joins st) =
    map (relax1 (jc last_added)) (drop pivot joins)) as Hdst.
  { rewrite Hst. rewrite drop_app_length'; [reflexivity |].
    rewrite length_take. lia. }
  split.
  { rewrite Htake, Hst. rewrite take_app_length'; [reflexivity |].
    rewrite length_take. lia. }
  split; [exact Hdrop |].
  split; [rewrite Hperm, Hdst; reflexivity |].
  assert (Forall (fun j => jd jm <= jd j) (drop pivot (r_joins st))) as Hfa.
  { rewrite Forall_lookup. intros k j Hk. rewrite lookup_drop in Hk.
    pose proof (lookup_lt_Some _ _ _ Hk).
    rewrite Hjd. apply (Hall (pivot + k)%nat j); [lia | assumption]. }
  rewrite <- Hperm in Hfa. inversion Hfa; assumption.
Qed.

(** *** The outer loop

    The vector is seen as the attached records [pre] followed by the
    pending ones [pend]. *)
Lemma prim_loop_inv (J : list Join -> list Join -> Prop) (j0 : Join)
    (pend0 : list Join) :
  J [j0] pend0 ->
  (forall pre pend, J pre pend ->
     length (pre ++ pend) = dim /\ Forall (fun j => jc j < dim)%nat (pre ++ pend)) ->
  (forall pre pend last_added jm rest,
     J pre pend -> last pre = Some last_added ->
     jm :: rest ≡ₚ map (relax1 (jc last_added)) pend ->
     Forall (fun j => jd jm <= jd j) rest ->
     J (pre ++ [jm]) rest) ->
  exists joins,
    for_each (seq 1 (length (j0 :: pend0) - 1)) (prim_step sequences dism)
      (j0 :: pend0) = Ret joins /\ J joins [].
Proof.
  intros H0 Hbasic Hstep.
  destruct (Hbasic _ _ H0) as (Hlen0 & _). simpl in Hlen0.
  simpl length. rewrite Hlen0.
  destruct (for_each_seq_inv
    (fun pivot joins => exists pre pend,
       joins = pre ++ pend /\ length pre = pivot /\ J pre pend)
    (prim_step sequences dism) 1 (dim - 1) (j0 :: pend0))
    as (joins & Hrun & pre & pend & -> & Hpre & HJ).
  - exists [j0], pend0. auto.
  - intros pivot joins Hpivot (pre & pend & -> & Hpre & HJ).
    destruct (Hbasic _ _ HJ) as (Hlen & Hjc).
    destruct (lookup_lt_is_Some_2 (pre ++ pend) (pivot - 1)) as [la Hla]; [lia |].
    destruct (prim_step_spec (pre ++ pend) pivot la Hlen ltac:(lia) Hjc Hla)
      as (joins' & jm & rest & Hrun & Hlen' & Htake & Hdrop & Hperm & Hmin).
    exists joins'. split; [assumption |].
    exists (pre ++ [jm]), rest.
    rewrite take_app_length' in Htake by lia.
    rewrite drop_app_length' in Hperm by lia.
    split.
    { rewrite <- (take_drop pivot joins'), Htake, Hdrop, <- app_assoc.
      reflexivity. }
    split; [rewrite length_app; simpl; lia |].
    apply (Hstep pre pend la); try assumption.
    rewrite lookup_app_l in Hla by lia.
    rewrite last_lookup. rewrite <- Hla. f_equal. lia.
  - replace (1 + (dim - 1))%nat with dim in Hpre by lia.
    destruct (Hbasic _ _ HJ) as (Hlen & _).
    rewrite length_app in Hlen.
    assert (pend = []) as -> by (apply nil_length_inv; lia).
    rewrite app_nil_r in *. exists pre. auto.
Qed.

(** *** The shape of every result: each record's parent was attached
    before it. *)

Definition attached_before (pre : list Join) : Prop :=
  forall i j, (1 <= i)%nat -> pre !! i = Some j -> jp j ∈ map jc (take i pre).

Definition shape_inv (pre pend : list Join) : Prop :=
  length (pre ++ pend) = dim /\
  map jc (pre ++ pend) ≡ₚ seq 0 dim /\
  pre !! 0%nat = Some (mkJoin 0 0 MAX_D) /\
  Forall (fun j => jp j ∈ map jc pre) pend /\
  attached_before pre.

Lemma shape_inv_basic pre pend :
  shape_inv pre pend ->
  length (pre ++ pend) = dim /\ Forall (fun j => jc j < dim)%nat (pre ++ pend).
Proof.
  intros (Hlen & Hperm & _). split; [assumption |].
  rewrite Forall_forall. intros j Hj.
  assert (jc j ∈ seq 0 dim) as Hin.
  { rewrite <- Hperm. apply list_elem_of_fmap. eauto. }
  apply elem_of_seq in Hin. lia.
Qed.

Lemma relaxed_elem last_c (pend rest : list Join) (jm j : Join) :
  jm :: rest ≡ₚ map (relax1 last_c) pend -> j ∈ jm :: rest ->
  exists j', j' ∈ pend /\ j = relax1 last_c j'.
Proof.
  intros Hperm Hj. rewrite Hperm in Hj.
  apply list_elem_of_fmap in Hj as (j' & -> & Hj'). eauto.
Qed.

Lemma shape_inv_step pre pend last_added jm rest :
  shape_inv pre pend -> last pre = Some last_added ->
  jm :: rest ≡ₚ map (relax1 (jc last_added)) pend ->
  shape_inv (pre ++ [jm]) rest.
Proof.
  intros (Hlen & Hperm & Hhead & Hpend & Hbefore) Hlast Hrel.
  assert (jc last_added ∈ map jc pre) as Hla.
  { apply list_elem_of_fmap. exists last_added. split; [reflexivity |].
    rewrite last_lookup in Hlast. apply list_elem_of_lookup. eauto. }
  assert (forall j, j ∈ jm :: rest -> jp j ∈ map jc pre) as Hjp.
  { intros j Hj.
    destruct (relaxed_elem _ _ _ _ _ Hrel Hj) as (j' & Hj' & ->).
    rewrite Forall_forall in Hpend. specialize (Hpend j' Hj').
    unfold relax1. case_decide; simpl; assumption. }
  assert (map jc (jm :: rest) ≡ₚ map jc pend) as Hjcs.
  { rewrite Hrel. rewrite map_map.
    erewrite map_ext; [reflexivity |]. intros a. apply relax1_jc. }
  split; [| split; [| split; [| split]]].
  - rewrite <- app_assoc. simpl. rewrite length_app in *.
    apply Permutation_length in Hrel. rewrite length_map in Hrel.
    simpl in *. lia.
  - rewrite <- app_assoc. simpl. rewrite map_app in *.
    rewrite <- Hperm. apply Permutation_app_head. exact Hjcs.
  - rewrite lookup_app_l; [assumption |].
    apply lookup_lt_Some in Hhead. assumption.
  - rewrite Forall_forall. intros j Hj. rewrite map_app.
    apply elem_of_app. left. apply Hjp. apply elem_of_cons. auto.
  - intros i j Hi Hij.
    destruct (decide (i < length pre)%nat) as [Hlt|Hge].
    + rewrite lookup_app_l in Hij by assumption.
      rewrite take_app_le by lia. apply Hbefore; assumption.
    + assert (i = length pre) as ->.
      { apply lookup_lt_Some in Hij. rewrite length_app in Hij. simpl in Hij. lia. }
      rewrite lookup_app_r in Hij by lia. rewrite Nat.sub_diag in Hij.
      injection Hij as <-.
      rewrite take_app_length. apply Hjp. apply elem_of_cons. auto.
Qed.
End prim.

(** ** build_mst: the returned parent vector *)

Lemma index_of_lookup (l : list nat) (i c : nat) :
  NoDup l -> l !! i = Some c -> index_of c l = i.
Proof.
  revert i. induction l as [|x l IH]; intros i Hnd Hi; [discriminate |].
  apply NoDup_cons in Hnd as (Hx & Hnd). simpl.
  destruct i as [|i]; simpl in Hi.
  - injection Hi as ->. case_decide; [reflexivity | congruence].
  - case_decide as Hxc.
    + subst. exfalso. apply Hx. apply list_elem_of_lookup. eauto.
    + f_equal. apply IH; assumption.
Qed.

Lemma tree_of_joins (joins : list Join) (tree0 : list nat) :
  Forall (fun j => jc j < length tree0)%nat joins ->
  NoDup (map jc joins) ->
  exists tree,
    for_each joins (fun tree j => vec_set tree (jc j) (jp j)) tree0 = Ret tree /\
    length tree = length tree0 /\
    (forall j, j ∈ joins -> tree !! jc j = Some (jp j)) /\
    (forall c, c ∉ map jc joins -> tree !! c = tree0 !! c).
Proof.
  revert tree0. induction joins as [|j joins IH]; intros tree0 Hlt Hnd; simpl.
  - exists tree0. split; [reflexivity |]. split; [reflexivity |].
    split; [| reflexivity]. intros j Hj. inversion Hj.
  - apply Forall_cons in Hlt as (Hj & Hlt).
    apply NoDup_cons in Hnd as (Hnotin & Hnd).
    rewrite vec_set_Ret by assumption. simpl.
    destruct (IH (<[ jc j := jp j ]> tree0)) as (tree & Hrun & Hlen & Hin & Hout).
    + rewrite length_insert. assumption.
    + assumption.
    + exists tree. split; [assumption |].
      split; [rewrite Hlen; apply length_insert |]. split.
      * intros j' Hj'. apply elem_of_cons in Hj' as [-> | Hj'].
        -- rewrite Hout by assumption. apply list_lookup_insert_eq. assumption.
        -- apply Hin. assumption.
      * intros c Hc. rewrite not_elem_of_cons in Hc. destruct Hc as (Hne & Hc).
        rewrite Hout by assumption. apply list_lookup_insert_ne. congruence.
Qed.

Section shape.
Variable sequences : list dna.
Variable dism : Matrix Z.
Variable dim : nat.
Hypothesis distance_defined : forall c p, (c < dim)%nat -> (p < dim)%nat ->
  exists d, join_distance sequences dism c p = Ret d.

(** From the vector the loops leave behind to the parent vector. *)
Lemma shape_tree (joins : list Join) :
  shape_inv dim joins [] ->
  exists tree,
    for_each joins (fun tree j => vec_set tree (jc j) (jp j))
      (replicate (length joins) 0%nat) = Ret tree /\
    rooted_by (fun c => index_of c (map jc joins)) dim tree /\
    forall j, j ∈ joins -> tree !! jc j = Some (jp j).
Proof.
  intros (Hlen & Hperm & Hhead & _ & Hbefore).
  rewrite app_nil_r in *.
  assert (NoDup (map jc joins)) as Hnd.
  { rewrite Hperm. apply NoDup_seq. }
  assert (forall c, c ∈ map jc joins <-> (c < dim)%nat) as Hdom.
  { intros c. rewrite Hperm, elem_of_seq. lia. }
  destruct (tree_of_joins joins (replicate (length joins) 0%nat))
    as (tree & Hrun & Hl & Hin & _).
  { rewrite length_replicate, Forall_forall. intros j Hj.
    rewrite Hlen. apply Hdom. apply list_elem_of_fmap. eauto. }
  { assumption. }
  rewrite length_replicate in Hl.
  exists tree. split; [assumption |]. split; [| assumption].
  split; [lia |]. split.
  - intros c Hc. apply Hdom in Hc.
    apply list_elem_of_lookup in Hc as (i & Hi).
    rewrite (index_of_lookup _ _ _ Hnd Hi).
    apply lookup_lt_Some in Hi. rewrite length_map in Hi. lia.
  - intros c Hc.
    assert (c ∈ map jc joins) as Hcin by (apply Hdom; lia).
    apply list_elem_of_lookup in Hcin as (i & Hi).
    rewrite list_lookup_fmap in Hi.
    destruct (joins !! i) as [j|] eqn:Hj; [| discriminate].
    simpl in Hi. injection Hi as <-.
    assert (1 <= i)%nat as Hi1.
    { destruct i; [| lia]. rewrite Hhead in Hj. injection Hj as <-.
      simpl in Hc. lia. }
    pose proof (Hbefore i j Hi1 Hj) as Hp.
    apply list_elem_of_lookup in Hp as (k & Hk).
    exists (jp j). split.
    { apply Hin. apply list_elem_of_lookup. eauto. }
    assert (map jc joins !! k = Some (jp j) /\ (k < i)%nat) as (Hk' & Hki).
    { rewrite <- firstn_map in Hk.
      pose proof (lookup_lt_Some _ _ _ Hk) as Hlt. rewrite length_take in Hlt.
      rewrite lookup_take_lt in Hk by lia. split; [assumption | lia]. }
    split.
    { apply Hdom. apply list_elem_of_lookup. eauto. }
    rewrite (index_of_lookup _ _ _ Hnd Hk').
    rewrite (index_of_lookup (map jc joins) i (jc j) Hnd).
    + assumption.
    + rewrite list_lookup_fmap, Hj. reflexivity.
Qed.
End shape.



Lemma initial_joins dim :
  (1 <= dim)%nat ->
  map (fun i => mkJoin 0 i MAX_D) (seq 0 dim) = mkJoin 0 0 MAX_D :: pending0 dim.
Proof.
  intros H. unfold pending0. destruct dim as [|dim]; [lia |].
  simpl. rewrite Nat.sub_0_r. reflexivity.
Qed.

Lemma shape_inv_initial dim pend :
  (1 <= dim)%nat -> pend ≡ₚ pending0 dim ->
  shape_inv dim [mkJoin 0 0 MAX_D] pend.
Proof.
  intros Hdim Hperm. split; [| split; [| split; [| split]]].
  - simpl. rewrite Hperm. unfold pending0. rewrite length_map, length_seq. lia.
  - simpl. rewrite Hperm. unfold pending0. rewrite map_map. simpl.
    rewrite map_id. destruct dim as [|dim]; [lia |].
    simpl. rewrite Nat.sub_0_r. reflexivity.
  - reflexivity.
  - rewrite Hperm. unfold pending0. rewrite Forall_forall. intros j Hj.
    apply list_elem_of_fmap in Hj as (i & -> & _). simpl.
    apply list_elem_of_singleton. reflexivity.
  - intros i j Hi Hij. destruct i; [lia | discriminate].
Qed.

(** [build_mst] under an invariant [J] of its outer loop that implies the
    shape invariant. *)
Lemma build_mst_run (J : list Join -> list Join -> Prop)
    (rnd : Rand) (input : list dna) (dism : Matrix Z)
    (shuffle_sequences do_infer_ancestors : bool) :
  let sequences :=
    input ++ (if do_infer_ancestors then infer_ancestors rnd input dism else []) in
  let dim := Nat.max (length sequences) (rows_ dism) in
  let pend0 :=
    if shuffle_sequences then shuffle rnd (pending0 dim) else pending0 dim in
  (1 <= dim)%nat ->
  (forall c p, (c < dim)%nat -> (p < dim)%nat ->
     exists d, join_distance sequences dism c p = Ret d) ->
  J [mkJoin 0 0 MAX_D] pend0 ->
  (forall pre pend, J pre pend -> shape_inv dim pre pend) ->
  (forall pre pend last_added jm rest,
     J pre pend -> last pre = Some last_added ->
     jm :: rest ≡ₚ map (relax1 sequences dism (jc last_added)) pend ->
     Forall (fun j => jd jm <= jd j) rest ->
     J (pre ++ [jm]) rest) ->
  exists joins tree,
    build_mst rnd input dism shuffle_sequences do_infer_ancestors = Ret tree /\
    J joins [] /\
    rooted_by (fun c => index_of c (map jc joins)) dim tree /\
    forall j, j ∈ joins -> tree !! jc j = Some (jp j).
Proof.
  intros sequences dim pend0 Hdim Hdist H0 Hshape Hstep.
  unfold build_mst. fold sequences. fold dim.
  rewrite (initial_joins dim Hdim).
  assert ((if shuffle_sequences
           then Ret (mkJoin 0 0 MAX_D :: shuffle rnd (pending0 dim))
           else Ret (mkJoin 0 0 MAX_D :: pending0 dim))
          = Ret (mkJoin 0 0 MAX_D :: pend0)) as ->.
  { unfold pend0. destruct shuffle_sequences; reflexivity. }
  rewrite Ret_bind.
  destruct (prim_loop_inv sequences dism dim Hdist J (mkJoin 0 0 MAX_D) pend0 H0)
    as (joins & Hrun & HJ).
  { intros pre pend HJ. apply shape_inv_basic. apply Hshape. assumption. }
  { assumption. }
  rewrite Hrun, Ret_bind.
  destruct (shape_tree dim joins (Hshape _ _ HJ)) as (tree & Htree & Hroot & Hin).
  exists joins, tree. auto.
Qed.

(** ** The keys are defined *)

Lemma join_distance_defined (sequences : list dna) (dism : Matrix Z) (n L : nat) :
  mat_wf n dism ->
  Forall (fun s => length s = L) sequences ->
  sequences = [] \/ (n <= length sequences)%nat ->
  forall c p,
    (c < Nat.max (length sequences) n)%nat ->
    (p < Nat.max (length sequences) n)%nat ->
    exists d, join_distance sequences dism c p = Ret d.
Proof.
  intros Hwf Hall Hcase c p Hc Hp. unfold join_distance.
  destruct Hwf as (Hr & Hcl & Hlen). rewrite Hr, Hcl.
  case_decide as Hin.
  - apply (mat_get_in_range n); [split; auto | lia | lia].
  - destruct Hcase as [-> | Hn]; [simpl in *; lia |].
    rewrite Forall_lookup in Hall.
    destruct (lookup_lt_is_Some_2 sequences c) as [sc Hsc]; [lia |].
    destruct (lookup_lt_is_Some_2 sequences p) as [sp Hsp]; [lia |].
    destruct (lookup_lt_is_Some_2 sequences 0) as [s0 Hs0]; [lia |].
    eexists.
    rewrite (vec_at_Some _ _ _ Hsc); ret_bind.
    rewrite (vec_at_Some _ _ _ Hsp); ret_bind.
    rewrite (vec_at_Some _ _ _ Hs0); ret_bind.
    pose proof (Hall _ _ Hsc) as Lc. pose proof (Hall _ _ Hsp) as Lp.
    pose proof (Hall _ _ Hs0) as L0. simpl in Lc, Lp, L0.
    rewrite (hamming_distance_spec sc sp) by lia. ret_bind.
    rewrite (hamming_distance_spec sp s0) by lia. ret_bind.
    reflexivity.
Qed.

(** ** Accumulating one sample *)


(** ** The consensus pass over the table of a single sample *)


Section single_sample.
Variable n : nat.
(** The sample's real-ancestor parent of each vertex, and the rank that
    decreases along it. *)
Variable par : nat -> nat.
Variable rank : nat -> nat.
Variable pct : Matrix Z.

Hypothesis n_pos : (1 <= n)%nat.
Hypothesis par_rooted : forall c, (1 <= c < n)%nat ->
  (par c < n)%nat /\ (rank (par c) < rank c)%nat.
Hypothesis pct_wf : mat_wf n pct.
Hypothesis pct_once : forall a b, (a < n)%nat -> (b < n)%nat ->
  mat_get pct a b =
    Ret (if decide ((1 <= a)%nat /\ par a = b) then MAX_D - 1 else MAX_D).







End single_sample.

(** ** build_consensus_mst *)






Section consensus.
Variable rnd : nat -> Rand.
Variable input : list dna.
Variable do_infer_ancestors : bool.
Variable L : nat.
Let n := length input.

Hypothesis input_nonempty : input <> [].
Hypothesis equal_lengths : Forall (fun s => length s = L) input.
Hypothesis fair_choices : forall s, fair L (rnd s).








End consensus.




Lemma reversing_fair : fair 4 reversing.
Proof.
  split.
  - intros l. symmetry. apply Permutation_rev.
  - intros input dism _. repeat constructor.
Qed.




(** ** A root and three one-base variants *)

Lemma mismatches_app_same (p a b : dna) :
  mismatches (p ++ a) (p ++ b) = mismatches a b.
Proof.
  induction p as [|x p IH]; simpl; [reflexivity |].
  rewrite IH. destruct (decide (x = x)); [lia | congruence].
Qed.

Lemma one_base_apart_diffs r v :
  one_base_apart r v -> length v = length r /\ mismatches v r = 1.
Proof.
  intros (pre & x & y & post & -> & -> & Hxy). split.
  - rewrite !length_app. reflexivity.
  - rewrite mismatches_app_same. simpl. rewrite mismatches_refl.
    destruct (decide (y = x)); [congruence | lia].
Qed.

Lemma mismatches_triangle (a b c : dna) :
  length a = length b -> length b = length c ->
  mismatches a c <= mismatches a b + mismatches b c.
Proof.
  revert b c. induction a as [|x a IH]; intros [|y b] [|z c] Hab Hbc;
    simpl in *; try lia.
  specialize (IH b c ltac:(lia) ltac:(lia)).
  destruct (decide (x = z)), (decide (x = y)), (decide (y = z)); try lia.
  congruence.
Qed.

Lemma mismatches_zero (a b : dna) :
  length a = length b -> mismatches a b = 0 -> a = b.
Proof.
  revert b. induction a as [|x a IH]; intros [|y b] Hlen H; simpl in *;
    try lia; [reflexivity |].
  pose proof (mismatches_bounds a b).
  destruct (decide (x = y)); [| lia].
  subst. f_equal. apply IH; lia.
Qed.

Lemma variants_diffs r v w :
  one_base_apart r v -> one_base_apart r w -> v <> w ->
  mismatches w v = 1 \/ mismatches w v = 2.
Proof.
  intros Hv Hw Hne.
  destruct (one_base_apart_diffs r v Hv) as (Lv & Dv).
  destruct (one_base_apart_diffs r w Hw) as (Lw & Dw).
  pose proof (mismatches_triangle w r v ltac:(lia) ltac:(lia)) as Htri.
  rewrite (mismatches_sym r v) in Htri.
  pose proof (mismatches_bounds w v).
  destruct (decide (mismatches w v = 0)) as [Hz|]; [| lia].
  exfalso. apply Hne. symmetry. apply mismatches_zero; [lia | assumption].
Qed.

Lemma perm2 {A} (l : list A) (a b : A) :
  l ≡ₚ [a; b] -> l = [a; b] \/ l = [b; a].
Proof.
  intros H. pose proof (Permutation_length H) as Hlen.
  destruct l as [|x [|y [|z l]]]; simpl in Hlen; try lia.
  assert (x ∈ [a; b]) as Hx by (rewrite <- H; apply elem_of_cons; auto).
  apply elem_of_cons in Hx as [-> | Hx].
  - apply Permutation_cons_inv in H. apply Permutation_singleton_inj in H.
    subst. auto.
  - apply list_elem_of_singleton in Hx as ->.
    rewrite (perm_swap b a) in H. apply Permutation_cons_inv in H.
    apply Permutation_singleton_inj in H. subst. auto.
Qed.

Lemma perm3 {A} (l : list A) (a b c : A) :
  l ≡ₚ [a; b; c] ->
  l = [a; b; c] \/ l = [a; c; b] \/ l = [b; a; c] \/
  l = [b; c; a] \/ l = [c; a; b] \/ l = [c; b; a].
Proof.
  intros H. pose proof (Permutation_length H) as Hlen.
  destruct l as [|x l]; simpl in Hlen; [lia |].
  assert (x ∈ [a; b; c]) as Hx by (rewrite <- H; apply elem_of_cons; auto).
  rewrite !elem_of_cons in Hx. destruct Hx as [-> | [-> | [-> | Hx]]].
  - apply Permutation_cons_inv in H. apply perm2 in H as [-> | ->]; auto.
  - rewrite (perm_swap b a) in H. apply Permutation_cons_inv in H.
    apply perm2 in H as [-> | ->]; auto 10.
  - assert ([a; b; c] ≡ₚ [c; a; b]) as Hrot.
    { etransitivity; [apply perm_skip, perm_swap | apply perm_swap]. }
    rewrite Hrot in H. apply Permutation_cons_inv in H.
    apply perm2 in H as [-> | ->]; auto 10.
  - inversion Hx.
Qed.

(** [build_mst] uses the shuffle only on the records it starts from. *)
Lemma build_mst_shuffled (rnd : Rand) (input : list dna) (dism : Matrix Z)
    (do_infer_ancestors : bool) :
  build_mst rnd input dism true do_infer_ancestors =
  build_mst
    (mkRand (fun _ =>
       shuffle rnd (pending0 (Nat.max
         (length (input ++ (if do_infer_ancestors
                            then infer_ancestors rnd input dism else [])))
         (rows_ dism))))
       (infer_ancestors rnd))
    input dism true do_infer_ancestors.
Proof.
  unfold build_mst. cbn [shuffle infer_ancestors].
  set (dim := Nat.max _ _).
  destruct dim as [|dim]; [reflexivity |].
  rewrite (initial_joins (Datatypes.S dim)) by lia. reflexivity.
Qed.

Lemma matrix4_eq (m : Matrix Z) (f : nat -> nat -> Z) :
  mat_wf 4 m ->
  (forall a b, (a < 4)%nat -> (b < 4)%nat -> mat_get m a b = Ret (f a b)) ->
  m = mkMatrix 4 4
        [f 0 0; f 0 1; f 0 2; f 0 3; f 1 0; f 1 1; f 1 2; f 1 3;
         f 2 0; f 2 1; f 2 2; f 2 3; f 3 0; f 3 1; f 3 2; f 3 3]%nat.
Proof.
  destruct m as [r c buf]. intros (Hr & Hc & Hlen) Hget. simpl in *. subst r c.
  do 17 (destruct buf as [|? buf]; simpl in Hlen; try lia).
  unfold mat_get, vec_at in Hget. simpl in Hget.
  f_equal.
  repeat match goal with
  | |- _ :: _ = _ :: _ => f_equal
  end; try reflexivity.
  all: match goal with
       | |- _ = _ ?a ?b =>
           specialize (Hget a b ltac:(lia) ltac:(lia)); simpl in Hget; congruence
       end.
Qed.

(** C7: for a root [R] and three pairwise different variants that each differ
    from [R] by exactly one base, [build_consensus_mst] with one sample and
    without ancestor inference returns the star: [R] (index 0) is the parent
    of each variant, with distance 1 and weight 1/1, whatever order the
    shuffle produces. *)
Theorem star_of_three_variants (rnd : nat -> Rand) (R V1 V2 V3 : dna) :
  one_base_apart R V1 -> one_base_apart R V2 -> one_base_apart R V3 ->
  V1 <> V2 -> V1 <> V3 -> V2 <> V3 ->
  (forall l, shuffle (rnd 0%nat) l ≡ₚ l) ->
  build_consensus_mst rnd [R; V1; V2; V3] 1 false =
    Ret [mkEdge 0 1 1 (mkRatio 1 1);
         mkEdge 0 2 1 (mkRatio 1 1);
         mkEdge 0 3 1 (mkRatio 1 1)].
Proof.
  intros H1 H2 H3 N12 N13 N23 Hshuffle.
  destruct (one_base_apart_diffs R V1 H1) as (L1 & D1).
  destruct (one_base_apart_diffs R V2 H2) as (L2 & D2).
  destruct (one_base_apart_diffs R V3 H3) as (L3 & D3).
  pose proof (variants_diffs R V1 V2 H1 H2 N12) as D21.
  pose proof (variants_diffs R V1 V3 H1 H3 N13) as D31.
  pose proof (variants_diffs R V2 V3 H2 H3 N23) as D32.
  assert (Forall (fun s : dna => length s = length R) [R; V1; V2; V3]) as Hall.
  { repeat constructor; assumption. }
  destruct (make_distance_matrix_spec [R; V1; V2; V3]
              (equal_lengths_decrease _ _ Hall)) as (m & Hm & Hwf & Hget).
  apply (matrix4_eq m _ Hwf) in Hget.
  unfold Hsym, Hd in Hget. simpl in Hget.
  rewrite !mismatches_refl, D1, D2, D3 in Hget.
  unfold build_consensus_mst. rewrite Hm. ret_bind.
  change (seq 0 1) with [0%nat]. cbn [for_each].
  rewrite build_mst_shuffled.
  pose proof (Hshuffle (pending0 4)) as Hp.
  replace (Nat.max (length ([R; V1; V2; V3] ++ [])) (rows_ m)) with 4%nat
    by (rewrite Hget; reflexivity).
  change (pending0 4)
    with [mkJoin 0 1 MAX_D; mkJoin 0 2 MAX_D; mkJoin 0 3 MAX_D] in Hp at 2.
  apply perm3 in Hp. subst m.
  destruct D21 as [-> | ->], D31 as [-> | ->], D32 as [-> | ->];
    destruct Hp as [-> | [-> | [-> | [-> | [-> | ->]]]]];
    vm_compute; reflexivity.
Qed.

Lemma star_of_three_variants_witness :
  build_consensus_mst (fun _ => reversing)
    [str "ACGT"; str "TCGT"; str "AGGT"; str "ACGA"] 1 false =
    Ret [mkEdge 0 1 1 (mkRatio 1 1);
         mkEdge 0 2 1 (mkRatio 1 1);
         mkEdge 0 3 1 (mkRatio 1 1)].
Proof.
  apply (star_of_three_variants (fun _ => reversing)
           (str "ACGT") (str "TCGT") (str "AGGT") (str "ACGA")).
  - exists [], "A"%char, "T"%char, (str "CGT").
    split; [reflexivity |]. split; [reflexivity | discriminate].
  - exists (str "A"), "C"%char, "G"%char, (str "GT").
    split; [reflexivity |]. split; [reflexivity | discriminate].
  - exists (str "ACG"), "T"%char, "A"%char, [].
    split; [reflexivity |]. split; [reflexivity | discriminate].
  - discriminate.
  - discriminate.
  - discriminate.
  - apply reversing_fair.
Defined.

(** ** infer_markov_model *)

Lemma lut_range ch : 0 <= lut ch <= 3.
Proof. unfold lut. repeat case_decide; lia. Qed.

(** No character is mapped to [npos], so the test that guards the counts
    never fires. *)
Lemma count_position_no_throw pnts cnts st i e :
  count_position pnts cnts st i <> Throw e.
Proof.
  unfold count_position. intros H.
  apply bind_Throw in H as [H | (pc & _ & H)];
    [exact (vec_at_no_throw _ _ _ H) |].
  apply bind_Throw in H as [H | (cc & _ & H)];
    [exact (vec_at_no_throw _ _ _ H) |].
  pose proof (lut_range pc). pose proof (lut_range cc).
  rewrite decide_False in H by (unfold npos; lia).
  apply bind_Throw in H as [H | (x & _ & H)];
    [exact (mat_get_no_throw _ _ _ _ H) |].
  apply bind_Throw in H as [H | (m & _ & H)];
    [exact (mat_set_no_throw _ _ _ _ _ H) |].
  apply bind_Throw in H as [H | (s & _ & H)];
    [exact (vec_at_no_throw _ _ _ H) |].
  apply bind_Throw in H as [H | (cs & _ & H)];
    [exact (vec_set_no_throw _ _ _ _ H) | discriminate].
Qed.

Lemma infer_markov_model_no_throw sequences adj_list e :
  infer_markov_model sequences adj_list <> Throw e.
Proof.
  unfold infer_markov_model. intros H.
  apply bind_Throw in H as [H | (st & _ & H)].
  - revert H. apply for_each_no_throw. intros st ed e' H.
    apply bind_Throw in H as [H | (pnts & _ & H)];
      [exact (vec_at_no_throw _ _ _ H) |].
    apply bind_Throw in H as [H | (cnts & _ & H)];
      [exact (vec_at_no_throw _ _ _ H) |].
    revert H. apply for_each_no_throw. intros st' i e''.
    apply count_position_no_throw.
  - revert H. apply for_each_no_throw. intros m c e' H.
    apply bind_Throw in H as [H | (s & _ & H)];
      [exact (vec_at_no_throw _ _ _ H) |].
    case_decide; [exact (mat_set_no_throw _ _ _ _ _ H) |].
    revert H. apply for_each_no_throw. intros m' r e'' H.
    apply bind_Throw in H as [H | (x & _ & H)];
      [exact (mat_get_no_throw _ _ _ _ H) |].
    exact (mat_set_no_throw _ _ _ _ _ H).
Qed.

(** C3 (the code departs from it): on the edge 0 -> 1 over the sequences
    "A-" and "AC", [infer_markov_model] throws nothing and returns a matrix
    in which the gap of the parent was counted as an 'A' that mutated into
    'C' (column A holds 1/2 and 1/2); it throws for no input at all. *)
Theorem infer_markov_model_counts_gap :
  "-"%char ∈ str "A-" /\
  infer_markov_model [str "A-"; str "AC"] [mkEdge 0 1 1 (mkRatio 1 1)] =
    Ret (mkMatrix 4 4
      [mkRatio 1 2; mkRatio 0 1; mkRatio 0 1; mkRatio 0 1;
       mkRatio 1 2; mkRatio 1 1; mkRatio 0 1; mkRatio 0 1;
       mkRatio 0 2; mkRatio 0 1; mkRatio 1 1; mkRatio 0 1;
       mkRatio 0 2; mkRatio 0 1; mkRatio 0 1; mkRatio 1 1]) /\
  forall sequences adj_list e, infer_markov_model sequences adj_list <> Throw e.
Proof.
  split; [| split].
  - apply elem_of_cons. right. apply elem_of_cons. left. reflexivity.
  - reflexivity.
  - intros sequences adj_list e. apply infer_markov_model_no_throw.
Qed.

(** ** The ranges of the workers *)

(** C2 (the code departs from it): for 5 nodes and 7 workers the ranges are
    [0,1), ..., [6,7); they cover 7 of the 10 linear indices, and the force
    terms of the pairs (4,1), (4,2) and (4,3) are accumulated by no
    worker. *)
Theorem simulate_step_ranges_miss_pairs :
  worker_ranges 5 7 = [(0, 1); (1, 2); (2, 3); (3, 4); (4, 5); (5, 6); (6, 7)] /\
  accumulated_pairs 5 7 =
    Ret [(1, 0); (2, 0); (2, 1); (3, 0); (3, 1); (3, 2); (4, 0)] /\
  all_pairs 5 =
    [(1, 0); (2, 0); (2, 1); (3, 0); (3, 1); (3, 2); (4, 0); (4, 1); (4, 2); (4, 3)] /\
  Z.of_nat (length (all_pairs 5)) = 5 * (5 - 1) / 2.
Proof. repeat split; vm_compute; reflexivity. Qed.

(** ** fitch_label_up *)










(** ** Alignment of a sequence with itself *)

Lemma nucleotide_not_gap c : c ∈ nucleotides -> c <> "-"%char.
Proof.
  intros H. apply list_elem_of_In in H. simpl in H.
  destruct H as [<- | [<- | [<- | [<- | []]]]]; discriminate.
Qed.

(** Every codon of nucleotides is in the table, and no residue of the table
    is the gap character. *)
Lemma translation_at_codon a b c :
  a ∈ nucleotides -> b ∈ nucleotides -> c ∈ nucleotides ->
  exists aa, translation_at [a; b; c] = Ret aa /\ aa <> "-"%char.
Proof.
  intros Ha Hb Hc.
  apply list_elem_of_In in Ha, Hb, Hc. simpl in Ha, Hb, Hc.
  destruct Ha as [<- | [<- | [<- | [<- | []]]]];
    destruct Hb as [<- | [<- | [<- | [<- | []]]]];
    destruct Hc as [<- | [<- | [<- | [<- | []]]]];
    eexists; (split; [vm_compute; reflexivity | discriminate]).
Qed.


















(** ** network.cpp: pinned nodes *)

Lemma vec_at_Ret {A} (v : list A) i x : vec_at v i = Ret x -> v !! i = Some x.
Proof. unfold vec_at. destruct (v !! i); congruence. Qed.

Lemma vec_set_inv {A} (v v' : list A) i x :
  vec_set v i x = Ret v' -> (i < length v)%nat /\ v' = <[ i := x ]> v.
Proof. unfold vec_set. destruct (decide _); [split; congruence | discriminate]. Qed.

(** Name the result of the first call of a run that returned. *)
Tactic Notation "first_call" hyp(H) "as" simple_intropattern(a) ident(Ha) :=
  apply bind_Ret in H; destruct H as (a & Ha & H).

Lemma for_all_lookup {A B} (xs : list A) (f : A -> outcome B) (l : list B) :
  for_all xs f = Ret l ->
  length l = length xs /\
  forall i x, xs !! i = Some x -> exists b, l !! i = Some b /\ f x = Ret b.
Proof.
  revert l. induction xs as [|x xs IH]; intros l H; simpl in H.
  - injection H as <-. split; [reflexivity |]. intros i x Hx. discriminate.
  - first_call H as b Hb. first_call H as bs Hbs. injection H as <-.
    destruct (IH _ Hbs) as (Hlen & Hall). split; [simpl; congruence |].
    intros [|i] y Hy; simpl in *.
    + injection Hy as <-. eauto.
    + eauto.
Qed.

(** The list a loop over [0, n) builds has an element for every index below
    [n], the one the body returned there. *)
Lemma tabulate_lookup {B} (n : nat) (f : nat -> outcome B) (l : list B) :
  tabulate n f = Ret l ->
  length l = n /\
  forall i, (i < n)%nat -> exists b, l !! i = Some b /\ f i = Ret b.
Proof.
  intros H. apply for_all_lookup in H. destruct H as (Hlen & Hall).
  rewrite length_seq in Hlen. split; [assumption |].
  intros i Hi. apply Hall. apply lookup_seq. lia.
Qed.

(** A loop over [start, start + n) that returned has kept every invariant
    its iterations keep. *)
Lemma for_each_seq_ret {S} (P : nat -> S -> Prop) (body : S -> nat -> outcome S)
    (start n : nat) (s s' : S) :
  for_each (seq start n) body s = Ret s' ->
  P start s ->
  (forall k s1 s2, (start <= k < start + n)%nat ->
     P k s1 -> body s1 k = Ret s2 -> P (Datatypes.S k) s2) ->
  P (start + n)%nat s'.
Proof.
  revert start s. induction n as [|n IH]; intros start s Hrun H0 Hstep.
  - simpl in Hrun. injection Hrun as <-. rewrite Nat.add_0_r. exact H0.
  - simpl in Hrun. first_call Hrun as s1 Hb.
    replace (start + Datatypes.S n)%nat with (Datatypes.S start + n)%nat by lia.
    apply (IH (Datatypes.S start) s1); [exact Hrun | |].
    + apply (Hstep start s); [lia | exact H0 | exact Hb].
    + intros k s2 s3 Hk. apply Hstep. lia.
Qed.

(** An in-place loop that returned kept the size of the vector, stayed
    inside it, and left at every index below [n] what [f] made of the
    element found there. *)
Lemma update_each_spec {A} (n : nat) (f : nat -> A -> outcome A) (v v' : list A) :
  update_each n f v = Ret v' ->
  length v' = length v /\
  forall i, (i < n)%nat ->
    exists a b, v !! i = Some a /\ f i a = Ret b /\ v' !! i = Some b.
Proof.
  intros Hrun. unfold update_each in Hrun.
  apply (for_each_seq_ret (fun k (w : list A) =>
    length w = length v /\
    (forall i, (k <= i)%nat -> w !! i = v !! i) /\
    forall i, (i < k)%nat ->
      exists a b, v !! i = Some a /\ f i a = Ret b /\ w !! i = Some b))
    in Hrun.
  - simpl in Hrun. destruct Hrun as (Hlen & _ & Hall). auto.
  - split; [reflexivity |]. split; [reflexivity |]. intros i Hi. lia.
  - intros k w w' Hk (Hlen & Hrest & Hdone) Hbody.
    first_call Hbody as a Ha. first_call Hbody as b Hb.
    apply vec_at_Ret in Ha. apply vec_set_inv in Hbody.
    destruct Hbody as (Hlt & ->).
    split; [rewrite length_insert; exact Hlen |].
    split.
    + intros i Hi. rewrite list_lookup_insert_ne by lia. apply Hrest. lia.
    + intros i Hi. destruct (decide (i = k)) as [-> | Hne].
      * exists a, b. rewrite <- Hrest by lia.
        split; [exact Ha |]. split; [exact Hb |].
        apply list_lookup_insert_eq. exact Hlt.
      * destruct (Hdone i) as (a' & b' & H1 & H2 & H3); [lia |].
        exists a', b'. rewrite list_lookup_insert_ne by lia. auto.
Qed.

(** The speed limit at one index. *)
Lemma clamp_spec sqrtf net (vx vy vx' vy' : list Q) :
  clamp sqrtf net vx vy = Ret (vx', vy') ->
  length vx' = length vx /\
  forall i ux, vx !! i = Some ux ->
    exists uy, vy !! i = Some uy /\
      (Qle_bool (speed sqrtf ux uy) (EPSILON_ net) = false ->
         exists pin, pins_ net !! i = Some pin) /\
      forall pin, pins_ net !! i = Some pin ->
        vx' !! i = Some (fst (clamp_node sqrtf net ux uy pin)) /\
        vy' !! i = Some (snd (clamp_node sqrtf net ux uy pin)).
Proof.
  intros Hrun. unfold clamp in Hrun.
  apply (for_each_seq_ret (fun k (w : list Q * list Q) =>
    length (fst w) = length vx /\ length (snd w) = length vy /\
    (forall i, (k <= i)%nat -> fst w !! i = vx !! i /\ snd w !! i = vy !! i) /\
    forall i ux, (i < k)%nat -> vx !! i = Some ux ->
      exists uy, vy !! i = Some uy /\
        (Qle_bool (speed sqrtf ux uy) (EPSILON_ net) = false ->
           exists pin, pins_ net !! i = Some pin) /\
        forall pin, pins_ net !! i = Some pin ->
          fst w !! i = Some (fst (clamp_node sqrtf net ux uy pin)) /\
          snd w !! i = Some (snd (clamp_node sqrtf net ux uy pin))))
    in Hrun.
  - simpl in Hrun. destruct Hrun as (Hlen & _ & _ & Hall).
    split; [exact Hlen |]. intros i ux Hux. apply Hall; [| exact Hux].
    eapply lookup_lt_Some. exact Hux.
  - simpl. split; [reflexivity |]. split; [reflexivity |].
    split; [auto |]. intros i ux Hi. lia.
  - intros k [wx wy] w' Hk (Hlx & Hly & Hrest & Hdone) Hbody. simpl in *.
    first_call Hbody as vxi Hvxi. first_call Hbody as vyi Hvyi.
    apply vec_at_Ret in Hvxi, Hvyi.
    destruct (Hrest k) as (Hkx & Hky); [lia |].
    rewrite Hkx in Hvxi. rewrite Hky in Hvyi.
    destruct (Qle_bool (speed sqrtf vxi vyi) (EPSILON_ net)) eqn:Hs.
    + injection Hbody as <-. simpl.
      split; [exact Hlx |]. split; [exact Hly |].
      split; [intros i Hi; apply Hrest; lia |].
      intros i ux Hi Hux. destruct (decide (i = k)) as [-> | Hne].
      * rewrite Hvxi in Hux. injection Hux as <-.
        exists vyi. split; [exact Hvyi |]. split; [congruence |].
        intros pin _. unfold clamp_node. rewrite Hs. simpl.
        rewrite Hkx, Hky. auto.
      * apply Hdone; [lia | exact Hux].
    + first_call Hbody as pin Hpin. apply vec_at_Ret in Hpin.
      first_call Hbody as wx' Hwx. first_call Hbody as wy' Hwy.
      injection Hbody as <-. simpl.
      apply vec_set_inv in Hwx, Hwy.
      destruct Hwx as (Hltx & ->). destruct Hwy as (Hlty & ->).
      rewrite !length_insert.
      split; [exact Hlx |]. split; [exact Hly |].
      split.
      { intros i Hi. rewrite !list_lookup_insert_ne by lia. apply Hrest. lia. }
      intros i ux Hi Hux. destruct (decide (i = k)) as [-> | Hne].
      * rewrite Hvxi in Hux. injection Hux as <-.
        exists vyi. split; [exact Hvyi |]. split; [eauto |].
        intros pin' Hpin'. rewrite Hpin in Hpin'. injection Hpin' as <-.
        unfold clamp_node. rewrite Hs. simpl.
        rewrite !list_lookup_insert_eq by assumption. auto.
      * destruct (Hdone i ux) as (uy & Huy & Hp & Hres); [lia | exact Hux |].
        exists uy. split; [exact Huy |]. split; [exact Hp |].
        intros pin' Hpin'. rewrite !list_lookup_insert_ne by lia.
        apply Hres. exact Hpin'.
Qed.

(** What one step does to node [i], whose velocity after the update is
    [(ux, uy)] and whose pin is [pin]. *)
Lemma simulate_step_node sqrtf net net' i pin :
  simulate_step sqrtf net = Ret net' ->
  (i < length (ids net))%nat ->
  pins_ net !! i = Some pin ->
  exists x y ux uy,
    x_ net !! i = Some x /\ y_ net !! i = Some y /\
    updated_velocity sqrtf net i = Ret (ux, uy) /\
    let v := clamp_node sqrtf net ux uy pin in
    vx_ net' !! i = Some (fst v) /\ vy_ net' !! i = Some (snd v) /\
    x_ net' !! i = Some (x + dT_ net * fst v)%Q /\
    y_ net' !! i = Some (y + dT_ net * snd v)%Q /\
    pos net' !! i = Some ((x + dT_ net * fst v)%Q, (y + dT_ net * snd v)%Q).
Proof.
  intros Hstep Hi Hpin. unfold simulate_step in Hstep.
  first_call Hstep as [fxs fys] Hf.
  first_call Hstep as fx Hfx.
  first_call Hstep as fy Hfy.
  first_call Hstep as [dvx vx] Hax.
  first_call Hstep as [dvy vy] Hay.
  first_call Hstep as [vx' vy'] Hv.
  first_call Hstep as x' Hx.
  first_call Hstep as y' Hy.
  first_call Hstep as p Hp.
  injection Hstep as <-. simpl.
  (* the copy into the nodes reads x and y at i *)
  apply tabulate_lookup in Hp. destruct Hp as (_ & Hp).
  destruct (Hp i Hi) as (pi & Hpi & Hbody).
  first_call Hbody as xi' Hxi'. first_call Hbody as yi' Hyi'.
  injection Hbody as <-.
  apply vec_at_Ret in Hxi', Hyi'.
  apply lookup_lt_Some in Hxi' as Hix. apply lookup_lt_Some in Hyi' as Hiy.
  (* the position update *)
  apply update_each_spec in Hx. destruct Hx as (Hlx & Hx).
  apply update_each_spec in Hy. destruct Hy as (Hly & Hy).
  destruct (Hx i) as (xi & xn & Hxi & Hbx & Hxn); [lia |].
  first_call Hbx as wx Hwx. injection Hbx as <-.
  destruct (Hy i) as (yi & yn & Hyi & Hby & Hyn); [lia |].
  first_call Hby as wy Hwy. injection Hby as <-.
  apply vec_at_Ret in Hwx, Hwy.
  (* the speed limit *)
  apply clamp_spec in Hv. destruct Hv as (Hlv & Hv).
  destruct (vx !! i) as [ux|] eqn:Hux.
  2:{ apply lookup_lt_Some in Hwx. apply lookup_ge_None in Hux. lia. }
  destruct (Hv i ux Hux) as (uy & Huy & _ & Hres).
  destruct (Hres pin Hpin) as (Hvx' & Hvy').
  rewrite Hwx in Hvx'. injection Hvx' as ->.
  rewrite Hwy in Hvy'. injection Hvy' as ->.
  exists xi, yi, ux, uy.
  split; [assumption |]. split; [assumption |].
  split.
  { unfold updated_velocity. rewrite Hf. simpl. rewrite Hfx, Hfy. simpl.
    rewrite Hax. simpl. rewrite Hay. simpl.
    rewrite (vec_at_Some _ _ _ Hux), (vec_at_Some _ _ _ Huy). reflexivity. }
  simpl. rewrite Hxi' in Hxn. rewrite Hyi' in Hyn.
  injection Hxn as ->. injection Hyn as ->.
  rewrite Hwx, Hwy, Hxi', Hyi', Hpi. auto.
Qed.

(** A step changes neither the pins nor the nodes nor the constants. *)
Lemma simulate_step_keeps sqrtf net net' :
  simulate_step sqrtf net = Ret net' ->
  pins_ net' = pins_ net /\ ids net' = ids net /\
  EPSILON_ net' = EPSILON_ net /\ dT_ net' = dT_ net.
Proof.
  intros Hstep. unfold simulate_step in Hstep.
  first_call Hstep as [fxs fys] Hf.
  first_call Hstep as fx Hfx.
  first_call Hstep as fy Hfy.
  first_call Hstep as [dvx vx] Hax.
  first_call Hstep as [dvy vy] Hay.
  first_call Hstep as [vx' vy'] Hv.
  first_call Hstep as x' Hx.
  first_call Hstep as y' Hy.
  first_call Hstep as p Hp.
  injection Hstep as <-. simpl. auto.
Qed.

Lemma simulate_steps_keeps sqrtf k net net' :
  simulate_steps sqrtf k net = Ret net' ->
  pins_ net' = pins_ net /\ ids net' = ids net /\
  EPSILON_ net' = EPSILON_ net /\ dT_ net' = dT_ net.
Proof.
  revert net. induction k as [|k IH]; intros net H; simpl in H.
  - injection H as <-. auto.
  - first_call H as net1 Hstep.
    apply simulate_step_keeps in Hstep. apply IH in H.
    destruct Hstep as (Hp & Hi & He & Ht).
    rewrite Hp, Hi, He, Ht in H. exact H.
Qed.

Lemma node_index_lt net id i :
  node_index net id = Some i -> (i < length (ids net))%nat.
Proof.
  unfold node_index. intros H.
  destruct (list_find _ _) as [[i' x]|] eqn:Hfind; [| discriminate].
  injection H as <-. apply list_find_Some in Hfind.
  destruct Hfind as (Hl & _). eapply lookup_lt_Some; eassumption.
Qed.

Lemma pin_node_pins id net net0 i :
  node_index net id = Some i ->
  pin_node id net = Ret net0 ->
  pins_ net0 !! i = Some 0 /\ ids net0 = ids net /\
  EPSILON_ net0 = EPSILON_ net /\ dT_ net0 = dT_ net.
Proof.
  intros Hi H. unfold pin_node in H. rewrite Hi in H.
  first_call H as vx Hvx. first_call H as vy Hvy. first_call H as pins Hpins.
  injection H as <-. simpl.
  apply vec_set_inv in Hpins. destruct Hpins as (Hlt & ->).
  split; [apply list_lookup_insert_eq; assumption | auto].
Qed.

(** Above [EPSILON_] the speed limit multiplies the velocity of a pinned
    node by zero. *)
Lemma clamp_node_pinned sqrtf net ux uy :
  Qle_bool (speed sqrtf ux uy) (EPSILON_ net) = false ->
  (fst (clamp_node sqrtf net ux uy 0) == 0)%Q /\
  (snd (clamp_node sqrtf net ux uy 0) == 0)%Q.
Proof.
  intros H. unfold clamp_node, limit_factor. rewrite H. simpl.
  split; unfold Qdiv; ring.
Qed.

(** At or below [EPSILON_] the speed limit is skipped, whatever the pin. *)
Lemma clamp_node_slow sqrtf net ux uy pin :
  Qle_bool (speed sqrtf ux uy) (EPSILON_ net) = true ->
  clamp_node sqrtf net ux uy pin = (ux, uy).
Proof. intros H. unfold clamp_node. rewrite H. reflexivity. Qed.

(** What a call of [simulate_step] that returns does to a node pinned by
    [pin_node(id)], after any number of earlier calls: the pin stays; if the
    speed of the node after the velocity update exceeds [EPSILON_], the
    factor [pins_[i]] sets its velocity to zero and its position is left as
    it was; if that speed is at most [EPSILON_], the [continue] of the speed
    limit is taken before [pins_[i]] is read, and the node keeps the updated
    velocity and moves by [dT] times it. *)
Lemma pinned_node_step (sqrtf : Q -> Q) (net net0 netk net' : Network)
    (id i k : nat) :
  node_index net id = Some i ->
  pin_node id net = Ret net0 ->
  simulate_steps sqrtf k net0 = Ret netk ->
  simulate_step sqrtf netk = Ret net' ->
  pins_ net' !! i = Some 0 /\
  exists x y ux uy vx' vy' x' y',
    x_ netk !! i = Some x /\ y_ netk !! i = Some y /\
    updated_velocity sqrtf netk i = Ret (ux, uy) /\
    vx_ net' !! i = Some vx' /\ vy_ net' !! i = Some vy' /\
    x_ net' !! i = Some x' /\ y_ net' !! i = Some y' /\
    pos net' !! i = Some (x', y') /\
    if Qle_bool (speed sqrtf ux uy) (EPSILON_ net)
    then vx' = ux /\ vy' = uy /\
         x' = (x + dT_ net * ux)%Q /\ y' = (y + dT_ net * uy)%Q
    else (vx' == 0)%Q /\ (vy' == 0)%Q /\ (x' == x)%Q /\ (y' == y)%Q.
Proof.
  intros Hi Hpin Hrun Hstep.
  destruct (pin_node_pins _ _ _ _ Hi Hpin) as (Hp0 & Hids0 & He0 & Ht0).
  destruct (simulate_steps_keeps _ _ _ _ Hrun) as (Hpk & Hidsk & Hek & Htk).
  destruct (simulate_step_keeps _ _ _ Hstep) as (Hp' & _).
  split; [rewrite Hp', Hpk; exact Hp0 |].
  destruct (simulate_step_node sqrtf netk net' i 0 Hstep)
    as (x & y & ux & uy & Hx & Hy & Hu & Hvx & Hvy & Hx' & Hy' & Hpos).
  { rewrite Hidsk, Hids0. apply node_index_lt with id. exact Hi. }
  { rewrite Hpk. exact Hp0. }
  rewrite Htk, Ht0 in Hx', Hy', Hpos.
  exists x, y, ux, uy. do 4 eexists.
  split; [exact Hx |]. split; [exact Hy |]. split; [exact Hu |].
  split; [exact Hvx |]. split; [exact Hvy |].
  split; [exact Hx' |]. split; [exact Hy' |]. split; [exact Hpos |].
  destruct (Qle_bool _ _) eqn:Hs.
  - assert (Hc : clamp_node sqrtf netk ux uy 0 = (ux, uy)).
    { apply clamp_node_slow. rewrite Hek, He0. exact Hs. }
    rewrite Hc. simpl. auto.
  - destruct (clamp_node_pinned sqrtf netk ux uy) as (Hzx & Hzy).
    { rewrite Hek, He0. exact Hs. }
    split; [exact Hzx |]. split; [exact Hzy |].
    split; [rewrite Hzx | rewrite Hzy]; ring.
Qed.

(** The step right after pinning the root of [near_nodes]: the force gives
    it the speed 0.1, and the speed limit sets its velocity to zero. *)
Lemma pinned_node_step_witness :
  exists net0 net',
    pin_node 0 near_nodes = Ret net0 /\
    simulate_step sqrt_lower net0 = Ret net' /\
    pins_ net' !! 0%nat = Some 0 /\
    exists x y ux uy vx' vy' x' y',
      x_ net0 !! 0%nat = Some x /\ y_ net0 !! 0%nat = Some y /\
      updated_velocity sqrt_lower net0 0 = Ret (ux, uy) /\
      vx_ net' !! 0%nat = Some vx' /\ vy_ net' !! 0%nat = Some vy' /\
      x_ net' !! 0%nat = Some x' /\ y_ net' !! 0%nat = Some y' /\
      pos net' !! 0%nat = Some (x', y') /\
      if Qle_bool (speed sqrt_lower ux uy) (EPSILON_ near_nodes)
      then vx' = ux /\ vy' = uy /\
           x' = (x + dT_ near_nodes * ux)%Q /\ y' = (y + dT_ near_nodes * uy)%Q
      else (vx' == 0)%Q /\ (vy' == 0)%Q /\ (x' == x)%Q /\ (y' == y)%Q.
Proof.
  do 2 eexists.
  split; [vm_compute; reflexivity |].
  split; [vm_compute; reflexivity |].
  eapply (pinned_node_step sqrt_lower near_nodes _ _ _ 0 0 0);
    vm_compute; reflexivity.
Defined.

(** C8: the claim fails on the code where the forces on the pinned node are
    weak. The root of [two_nodes] is pinned at rest at the origin; one call
    of [simulate_step] later it is still pinned, and it has the velocity
    -0.00005 and stands at x = -0.00005: its speed is below [EPSILON_], so
    the [continue] that guards the division skips the factor [pins_[i]]
    that zeroes the velocity of a pinned node. *)
Theorem pinned_node_moves :
  exists net0 net' v x,
    pin_node 0 two_nodes = Ret net0 /\
    x_ net0 !! 0%nat = Some 0%Q /\
    simulate_step sqrt_lower net0 = Ret net' /\
    pins_ net' !! 0%nat = Some 0 /\
    vx_ net' !! 0%nat = Some v /\ x_ net' !! 0%nat = Some x /\
    (v == - (1 # 20000))%Q /\ (x == - (1 # 20000))%Q.
Proof.
  do 4 eexists.
  split; [vm_compute; reflexivity |].
  split; [reflexivity |].
  split; [vm_compute; reflexivity |].
  split; [reflexivity |].
  split; [reflexivity |]. split; [reflexivity |].
  split; reflexivity.
Qed.

(** ** util.cpp: strings *)

Lemma toupper_ACGT c : c ∈ ACGT -> toupper c = c.
Proof.
  intros H. unfold ACGT in H. simpl in H.
  repeat (apply elem_of_cons in H as [-> | H]; [reflexivity |]).
  apply elem_of_nil in H. destruct H.
Qed.

Lemma make_valid_dna_fold (sv acc : list ascii) (n : nat) :
  fold_left keep_valid sv (acc, n) =
  (acc ++ filter (fun c => c ∈ ACGT) (map toupper sv),
   (n + (length sv - length (filter (fun c => c ∈ ACGT) (map toupper sv))))%nat).
Proof.
  revert acc n. induction sv as [|c sv IH]; intros acc n.
  - simpl. rewrite app_nil_r. f_equal. lia.
  - pose proof (length_filter (fun c => c ∈ ACGT) (map toupper sv)) as Hle.
    rewrite length_map in Hle.
    cbn [fold_left map length]. rewrite filter_cons.
    unfold keep_valid at 2. cbn [fst snd].
    destruct (decide (toupper c ∈ ACGT)); rewrite IH.
    + rewrite <- app_assoc. reflexivity.
    + f_equal. lia.
Qed.

Lemma make_valid_dna_spec (sv : dna) :
  fst (make_valid_dna sv) = filter (fun c => c ∈ ACGT) (map toupper sv) /\
  Forall (fun c => c ∈ ACGT) (fst (make_valid_dna sv)) /\
  (length (fst (make_valid_dna sv)) + snd (make_valid_dna sv) = length sv)%nat.
Proof.
  unfold make_valid_dna. rewrite make_valid_dna_fold. simpl.
  pose proof (length_filter (fun c => c ∈ ACGT) (map toupper sv)) as Hle.
  rewrite length_map in Hle.
  split; [reflexivity |]. split; [| lia].
  apply Forall_forall. intros c Hc. apply list_elem_of_filter in Hc. tauto.
Qed.


Lemma map_toupper_ACGT (sv : list ascii) :
  Forall (fun c => c ∈ ACGT) sv -> map toupper sv = sv.
Proof.
  induction 1 as [|c sv Hc _ IH]; simpl; [reflexivity |].
  rewrite toupper_ACGT by assumption. congruence.
Qed.

Lemma filter_all {A} (P : A -> Prop) `{!forall x, Decision (P x)} (l : list A) :
  Forall P l -> filter P l = l.
Proof.
  induction 1 as [|x l Hx _ IH]; [reflexivity |].
  rewrite filter_cons. rewrite decide_True by assumption. congruence.
Qed.

Lemma make_valid_dna_valid (sv : dna) :
  Forall (fun c => c ∈ ACGT) sv -> make_valid_dna sv = (sv, 0%nat).
Proof.
  intros H. unfold make_valid_dna. rewrite make_valid_dna_fold. simpl.
  rewrite (map_toupper_ACGT sv H). rewrite (filter_all _ sv H).
  f_equal. lia.
Qed.

(** X2: validating a validated sequence changes nothing and filters
    nothing. *)
Theorem make_valid_dna_idempotent (sv : dna) :
  make_valid_dna (fst (make_valid_dna sv)) = (fst (make_valid_dna sv), 0%nat).
Proof.
  apply make_valid_dna_valid.
  apply (make_valid_dna_spec sv).
Qed.

(** *** translate *)

Lemma translate_loop_gaps (nts cdn aas : list ascii) :
  (length cdn < 3)%nat ->
  translate_loop nts cdn aas =
  translate_loop (filter (fun c => c <> "-"%char) nts) cdn aas.
Proof.
  revert cdn aas. induction nts as [|c nts IH]; intros cdn aas Hcdn;
    [reflexivity |].
  rewrite filter_cons. destruct (decide (c <> "-"%char)) as [Hc | Hc].
  - cbn [translate_loop]. rewrite (decide_True (P := c <> "-"%char)) by exact Hc.
    destruct (decide (length (cdn ++ [c]) = 3%nat)) as [H3 | H3].
    + destruct (translation_at (cdn ++ [c])); simpl; [| reflexivity..].
      apply IH. simpl. lia.
    + apply IH. rewrite length_app in *. simpl in *. lia.
  - cbn [translate_loop]. rewrite (decide_False (P := c <> "-"%char)) by exact Hc.
    rewrite decide_False by lia. apply IH. exact Hcdn.
Qed.

Lemma translate_filter_gaps (nts : list ascii) :
  translate nts = translate (filter (fun c => c <> "-"%char) nts).
Proof. unfold translate. apply translate_loop_gaps. simpl. lia. Qed.

(** X3: [translate] ignores gap characters: a sequence and the same sequence
    with its gaps removed have the same translation (or both throw). *)
Theorem translate_ignores_gaps (nts : list ascii) :
  translate nts = translate (filter (fun c => c <> "-"%char) nts).
Proof. apply translate_filter_gaps. Qed.

Lemma ACGT_nucleotide c : c ∈ ACGT -> c <> "-"%char -> c ∈ nucleotides.
Proof.
  intros H Hc. apply list_elem_of_In in H. apply list_elem_of_In.
  simpl in *. intuition congruence.
Qed.

Lemma translate_loop_nucleotides (g cdn aas0 : dna) :
  Forall (fun c => c ∈ nucleotides) g ->
  Forall (fun c => c ∈ nucleotides) cdn ->
  (length cdn < 3)%nat ->
  exists aas, translate_loop g cdn aas0 = Ret (aas0 ++ aas) /\
    length aas = ((length cdn + length g) / 3)%nat /\
    Forall (fun aa => aa <> "-"%char) aas.
Proof.
  intros Hg. revert cdn aas0.
  induction Hg as [|c g Hc Hg IH]; intros cdn aas0 Hcdn Hlen.
  - exists []. rewrite app_nil_r. split; [reflexivity |].
    split; [| constructor]. cbn [length]. rewrite Nat.add_0_r.
    symmetry. apply Nat.div_small. exact Hlen.
  - cbn [translate_loop].
    rewrite (decide_True (P := c <> "-"%char)) by (apply nucleotide_not_gap; exact Hc).
    destruct (decide (length (cdn ++ [c]) = 3%nat)) as [H3 | H3].
    + destruct cdn as [|a [|b [|? ?]]]; simpl in H3, Hlen;
        try discriminate; try lia.
      apply Forall_cons in Hcdn as [Ha Hcdn].
      apply Forall_cons in Hcdn as [Hb _].
      destruct (translation_at_codon a b c Ha Hb Hc) as (aa & Haa & Hne).
      simpl app. rewrite Haa. ret_bind.
      destruct (IH [] (aas0 ++ [aa])) as (aas & Hrun & Hl & Hgap);
        [constructor | simpl; lia |].
      exists (aa :: aas). rewrite Hrun, <- app_assoc.
      split; [reflexivity |]. split; [| constructor; assumption].
      cbn [length]. rewrite Hl.
      replace (2 + Datatypes.S (length g))%nat with (1 * 3 + length g)%nat by lia.
      rewrite Nat.div_add_l by lia. reflexivity.
    + destruct (IH (cdn ++ [c]) aas0) as (aas & Hrun & Hl & Hgap).
      * apply Forall_app. split; [exact Hcdn |]. constructor; [exact Hc | constructor].
      * rewrite length_app in *. simpl in *. lia.
      * exists aas. split; [exact Hrun |]. split; [| exact Hgap].
        rewrite Hl. rewrite length_app. cbn [length]. f_equal. lia.
Qed.

Lemma translate_on_valid (nts : list ascii) :
  Forall (fun c => c ∈ ACGT) nts ->
  exists aas, translate nts = Ret aas /\
    length aas = (length (filter (fun c => c <> "-"%char) nts) / 3)%nat /\
    Forall (fun aa => aa <> "-"%char) aas.
Proof.
  intros H. rewrite translate_filter_gaps. unfold translate.
  destruct (translate_loop_nucleotides
              (filter (fun c => c <> "-"%char) nts) [] []) as (aas & Hrun & Hl & Hg).
  - apply Forall_forall. intros c Hc. apply list_elem_of_filter in Hc as [Hne Hc].
    apply ACGT_nucleotide; [| exact Hne].
    rewrite Forall_forall in H. apply H. exact Hc.
  - constructor.
  - simpl. lia.
  - exists aas. auto.
Qed.

(** X4: on a sequence over "ACGT-" [translate] throws nothing and returns
    one residue for every three nucleotides, gaps not counted and an
    incomplete last codon dropped; no residue is a gap. *)
Theorem translate_valid_dna (nts : list ascii) :
  Forall (fun c => c ∈ ACGT) nts ->
  exists aas, translate nts = Ret aas /\
    length aas = (length (filter (fun c => c <> "-"%char) nts) / 3)%nat /\
    Forall (fun aa => aa <> "-"%char) aas.
Proof. apply translate_on_valid. Qed.

Lemma translate_valid_dna_witness :
  exists aas, translate (str "AC-GTT-A") = Ret aas /\
    length aas = (length (filter (fun c => c <> "-"%char) (str "AC-GTT-A")) / 3)%nat /\
    Forall (fun aa => aa <> "-"%char) aas.
Proof.
  apply translate_valid_dna.
  apply Forall_forall. intros c Hc.
  apply list_elem_of_In in Hc. apply list_elem_of_In. simpl in *. intuition.
Defined.


(** ** util.cpp and network.cpp: the packed lower triangle *)

Lemma triangle_even i : exists T, i * (i - 1) = 2 * T /\ i * (i - 1) / 2 = T.
Proof.
  destruct (Z.Even_or_Odd i) as [[h ->] | [h ->]].
  - exists (h * (2 * h - 1)). split; [ring |].
    replace (2 * h * (2 * h - 1)) with (h * (2 * h - 1) * 2) by ring.
    apply Z.div_mul. lia.
  - exists ((2 * h + 1) * h). split; [ring |].
    replace ((2 * h + 1) * (2 * h + 1 - 1)) with ((2 * h + 1) * h * 2) by ring.
    apply Z.div_mul. lia.
Qed.

Lemma ltri_ij_of_packed i j :
  0 <= j < i -> ltri_ij (packed_index i j) = (i, j).
Proof.
  intros Hij. unfold packed_index, ltri_ij.
  destruct (triangle_even i) as (T & HT & ->).
  set (n := 1 + 8 * (T + j + 1)).
  assert (Hn : n = (2 * i - 1) * (2 * i - 1) + 8 * (j + 1)) by (unfold n; lia).
  pose proof (Z.sqrt_spec n ltac:(unfold n; nia)) as Hs.
  pose proof (Z.sqrt_nonneg n) as Hs0.
  set (s := Z.sqrt n) in *. cbv zeta in Hs. unfold Z.succ in Hs.
  assert (Hlo : 2 * i - 1 <= s).
  { destruct (Z_le_gt_dec (2 * i - 1) s) as [H | H]; [exact H | exfalso].
    assert ((s + 1) * (s + 1) <= (2 * i - 1) * (2 * i - 1))
      by (apply Z.square_le_mono_nonneg; lia).
    lia. }
  assert (Hhi : s <= 2 * i + 1).
  { destruct (Z_le_gt_dec s (2 * i + 1)) as [H | H]; [exact H | exfalso].
    assert ((2 * i + 2) * (2 * i + 2) <= s * s)
      by (apply Z.square_le_mono_nonneg; lia).
    lia. }
  assert (Hs3 : s = 2 * i - 1 \/ s = 2 * i \/ s = 2 * i + 1) by lia.
  clearbody s.
  destruct (decide (s * s = n)) as [Hsq | Hsq].
  - assert (s = 2 * i + 1) by (destruct Hs3 as [-> | [-> | ->]]; lia).
    subst s. assert (j = i - 1) by lia. subst j.
    replace ((2 * i + 1 - 1) / 2) with i; [f_equal; lia |].
    replace (2 * i + 1 - 1) with (i * 2) by lia. symmetry. apply Z.div_mul. lia.
  - assert (Hs2 : s = 2 * i - 1 \/ s = 2 * i).
    { destruct Hs3 as [-> | [-> | ->]]; [auto | auto | exfalso].
      destruct (decide (j + 1 = i)); [apply Hsq; lia | lia]. }
    assert (Hi : (s - 1) / 2 = i - 1).
    { destruct Hs2 as [-> | ->].
      - replace (2 * i - 1 - 1) with ((i - 1) * 2) by lia. apply Z.div_mul. lia.
      - symmetry. apply Z.div_unique with (r := 1); lia. }
    rewrite Hi.
    destruct (triangle_even i) as (T' & HT' & _).
    replace ((i - 1) * (i - 1 + 1)) with (T * 2) by lia.
    rewrite Z.div_mul by lia. f_equal; lia.
Qed.

Lemma packed_successor i j :
  0 <= j < i ->
  packed_index i j + 1 =
    (if decide (j + 1 = i) then packed_index (i + 1) 0 else packed_index i (j + 1)).
Proof.
  intros Hij. unfold packed_index.
  destruct (decide (j + 1 = i)) as [He | Hne]; [| lia].
  destruct (triangle_even i) as (T & HT & ->).
  replace ((i + 1) * (i + 1 - 1)) with ((T + i) * 2) by lia.
  rewrite Z.div_mul by lia. lia.
Qed.

Lemma packed_of_nat (n : nat) :
  exists i j, 0 <= j < i /\ Z.of_nat n = packed_index i j.
Proof.
  induction n as [|n (i & j & Hij & Hn)].
  - exists 1, 0. split; [lia | reflexivity].
  - pose proof (packed_successor i j Hij) as Hs.
    destruct (decide (j + 1 = i)).
    + exists (i + 1), 0. split; lia.
    + exists i, (j + 1). split; lia.
Qed.

(** X6: [ltri_ij] undoes the packing of the lower triangle: the linear
    index of the pair [(i, j)], [j < i], is mapped back to [(i, j)] (the test
    [assert (mi == i && mj == j)] of [init_simulation]), with the square root
    taken exactly. *)
Theorem ltri_ij_unpacks (i j : Z) :
  0 <= j < i -> ltri_ij (i * (i - 1) / 2 + j) = (i, j).
Proof. apply ltri_ij_of_packed. Qed.

Lemma ltri_ij_unpacks_witness : ltri_ij (7 * (7 - 1) / 2 + 3) = (7, 3).
Proof. apply ltri_ij_unpacks. lia. Defined.

(** X7: every linear index below 6896136988131328 is the index of exactly
    one pair: [ltri_ij k] is a pair [(i, j)] with [j < i] whose linear index
    is [k]. The bound is the range in which the double-precision square
    root of the code gives the result of the exact one (it covers the pairs
    of every network of up to 117440512 nodes); at the bound itself the
    code returns the pair of the index before. *)
Theorem ltri_ij_packs (k : Z) :
  0 <= k < 6896136988131328 ->
  0 <= snd (ltri_ij k) < fst (ltri_ij k) /\
  packed_index (fst (ltri_ij k)) (snd (ltri_ij k)) = k.
Proof.
  intros [Hk _]. destruct (packed_of_nat (Z.to_nat k)) as (i & j & Hij & Hn).
  rewrite Z2Nat.id in Hn by exact Hk. subst k.
  rewrite ltri_ij_of_packed by exact Hij. simpl. auto.
Qed.

Lemma ltri_ij_packs_witness :
  0 <= snd (ltri_ij 100) < fst (ltri_ij 100) /\
  packed_index (fst (ltri_ij 100)) (snd (ltri_ij 100)) = 100.
Proof. apply ltri_ij_packs. lia. Defined.

Lemma ltri_ij_successor k :
  0 <= k ->
  ltri_ij (k + 1) =
    (if decide (snd (ltri_ij k) + 1 = fst (ltri_ij k))
     then (fst (ltri_ij k) + 1, 0)
     else (fst (ltri_ij k), snd (ltri_ij k) + 1)).
Proof.
  intros Hk. destruct (packed_of_nat (Z.to_nat k)) as (i & j & Hij & Hn).
  rewrite Z2Nat.id in Hn by exact Hk. subst k.
  rewrite packed_successor by exact Hij.
  rewrite (ltri_ij_of_packed i j) by exact Hij. simpl.
  destruct (decide (j + 1 = i)); apply ltri_ij_of_packed; lia.
Qed.

(** The incremental update of [(i, j)] in [simulate_step_worker] follows
    [ltri_ij]. *)
Lemma worker_pairs_linear (n : nat) (k : Z) :
  0 <= k ->
  worker_pairs n (fst (ltri_ij k)) (snd (ltri_ij k)) = linear_pairs k n.
Proof.
  revert k. induction n as [|n IH]; intros k Hk; [reflexivity |].
  unfold linear_pairs. cbn [worker_pairs seq map].
  rewrite Z.add_0_r. rewrite <- surjective_pairing. f_equal.
  rewrite <- seq_shift, map_map.
  transitivity (linear_pairs (k + 1) n).
  - rewrite <- IH by lia. rewrite (ltri_ij_successor k Hk).
    destruct (decide _); reflexivity.
  - unfold linear_pairs. apply map_ext. intros t. f_equal. lia.
Qed.

Lemma linear_pairs_app lo n m :
  linear_pairs lo (n + m) = linear_pairs lo n ++ linear_pairs (lo + Z.of_nat n) m.
Proof.
  unfold linear_pairs. rewrite seq_app, map_app. f_equal.
  simpl. rewrite <- (Nat.add_0_r n) at 1. rewrite <- fmap_add_seq.
  change (map ?f (?g <$> ?l)) with (map f (map g l)).
  rewrite map_map. apply map_ext. intros t. f_equal. lia.
Qed.

Lemma all_pairs_S (size : nat) :
  all_pairs (Datatypes.S size) =
  all_pairs size ++ map (fun j => (Z.of_nat size, Z.of_nat j)) (seq 0 size).
Proof.
  unfold all_pairs. rewrite seq_S, flat_map_app. simpl.
  rewrite app_nil_r. reflexivity.
Qed.

Lemma length_all_pairs (size : nat) :
  Z.of_nat (length (all_pairs size)) = Z.of_nat size * (Z.of_nat size - 1) / 2.
Proof.
  induction size as [|size IH]; [reflexivity |].
  rewrite all_pairs_S, length_app, length_map, length_seq.
  rewrite Nat2Z.inj_add, IH.
  destruct (triangle_even (Z.of_nat size)) as (T & HT & ->).
  replace (Z.of_nat (Datatypes.S size) * (Z.of_nat (Datatypes.S size) - 1))
    with ((T + Z.of_nat size) * 2) by lia.
  rewrite Z.div_mul by lia. reflexivity.
Qed.

Lemma all_pairs_linear (size : nat) :
  all_pairs size = linear_pairs 0 (length (all_pairs size)).
Proof.
  induction size as [|size IH]; [reflexivity |].
  rewrite all_pairs_S, length_app, linear_pairs_app, <- IH. f_equal.
  rewrite length_map, length_seq. unfold linear_pairs.
  apply map_ext_in. intros j Hj. apply in_seq in Hj.
  rewrite length_all_pairs.
  change (Z.of_nat size * (Z.of_nat size - 1) / 2 + Z.of_nat j)
    with (packed_index (Z.of_nat size) (Z.of_nat j)).
  symmetry. rewrite Z.add_0_l. apply ltri_ij_of_packed. lia.
Qed.

Lemma simulate_step_worker_pairs_linear (lo : Z) (n : nat) :
  0 <= lo ->
  simulate_step_worker_pairs lo (lo + Z.of_nat n) = Ret (linear_pairs lo n).
Proof.
  intros Hlo. unfold simulate_step_worker_pairs.
  rewrite decide_True by lia.
  rewrite (surjective_pairing (ltri_ij lo)).
  replace (Z.to_nat (lo + Z.of_nat n - lo)) with n by lia.
  rewrite worker_pairs_linear by exact Hlo. reflexivity.
Qed.

Lemma worker_range_chunk (size w : nat) (i : nat) :
  (1 <= w < size)%nat -> Z.of_nat size < 2 ^ 32 -> (i < w)%nat ->
  worker_range (Z.of_nat size) (Z.of_nat w) (Z.of_nat i) =
    (Z.of_nat (i * (length (all_pairs size) / w)),
     Z.of_nat (i * (length (all_pairs size) / w)) +
       Z.of_nat (length (all_pairs size) / w)).
Proof.
  intros Hw Hsize Hi. unfold worker_range, wrap64.
  rewrite (Z.mod_small (Z.of_nat size - 1)) by lia.
  rewrite (Z.mod_small (Z.of_nat size * (Z.of_nat size - 1))) by nia.
  rewrite <- length_all_pairs.
  rewrite decide_False by lia.
  rewrite <- Nat2Z.inj_div. f_equal; lia.
Qed.

Lemma accumulate_ranges (size w : nat) (body_chunk : nat) (a n : nat)
    (acc : list (Z * Z)) :
  (1 <= w < size)%nat -> Z.of_nat size < 2 ^ 32 -> (a + n <= w)%nat ->
  body_chunk = (length (all_pairs size) / w)%nat ->
  for_each (map (fun i => worker_range (Z.of_nat size) (Z.of_nat w) (Z.of_nat i))
              (seq a n))
    (fun acc '(lo, hi) => ps ← simulate_step_worker_pairs lo hi; mret (acc ++ ps))
    acc =
  Ret (acc ++ linear_pairs (Z.of_nat (a * body_chunk)) (n * body_chunk)).
Proof.
  intros Hw Hsize. revert a acc. induction n as [|n IH]; intros a acc Han ->.
  - simpl. rewrite app_nil_r. reflexivity.
  - cbn [seq map for_each].
    rewrite worker_range_chunk by lia.
    rewrite simulate_step_worker_pairs_linear by lia.
    ret_bind. change (mret ?x) with (Ret x). ret_bind.
    rewrite IH by (reflexivity || lia).
    rewrite <- app_assoc. do 2 f_equal.
    change (Datatypes.S n * ?c)%nat with (c + n * c)%nat.
    rewrite linear_pairs_app. do 2 f_equal. lia.
Qed.

(** X8: with fewer workers than nodes, in a network of at most 117440512
    nodes (so that every linear index lies where the double-precision
    square root of [ltri_ij] gives the result of the exact one), one call of
    [simulate_step] accumulates the force terms of the first [w * (P / w)]
    pairs of the lower triangle, [P] being the number of pairs, each of them
    once; when [w] divides [P] (a single worker, for one) these are all the
    pairs. *)
Theorem simulate_step_pairs_covered (size w : nat) :
  (1 <= w < size)%nat -> Z.of_nat size <= 117440512 ->
  accumulated_pairs (Z.of_nat size) (Z.of_nat w) =
    Ret (take (w * (length (all_pairs size) / w)) (all_pairs size)) /\
  ((length (all_pairs size) mod w = 0)%nat ->
   accumulated_pairs (Z.of_nat size) (Z.of_nat w) = Ret (all_pairs size)).
Proof.
  intros Hw Hnodes.
  assert (Hsize : Z.of_nat size < 2 ^ 32) by lia.
  assert (Hrun : accumulated_pairs (Z.of_nat size) (Z.of_nat w) =
    Ret (take (w * (length (all_pairs size) / w)) (all_pairs size))).
  { unfold accumulated_pairs, worker_ranges. rewrite Nat2Z.id.
    rewrite (accumulate_ranges size w _ 0 w []) by (reflexivity || lia).
    simpl app. f_equal.
    pose proof (all_pairs_linear size) as Hall.
    set (P := length (all_pairs size)) in *. rewrite Hall.
    unfold linear_pairs.
    change (map ?f ?l) with (f <$> l). rewrite <- fmap_take, take_seq.
    rewrite Nat.min_l; [reflexivity |].
    apply Nat.Div0.mul_div_le. }
  split; [exact Hrun |].
  intros Hdiv. rewrite Hrun. f_equal.
  apply Nat.Div0.div_exact in Hdiv. rewrite <- Hdiv.
  apply firstn_all.
Qed.

Lemma simulate_step_pairs_covered_witness :
  accumulated_pairs (Z.of_nat 5) (Z.of_nat 2) =
    Ret (take (2 * (length (all_pairs 5) / 2)) (all_pairs 5)) /\
  ((length (all_pairs 5) mod 2 = 0)%nat ->
   accumulated_pairs (Z.of_nat 5) (Z.of_nat 2) = Ret (all_pairs 5)).
Proof. apply simulate_step_pairs_covered; [lia | simpl; lia]. Defined.

(** ** util.cpp: split, join, rstrip and wrap *)

Lemma starts_with_prefix (s d : list ascii) :
  starts_with s d = true <-> exists r, s = d ++ r.
Proof.
  revert s. induction d as [|x d IH]; intros s; simpl.
  - split; [intros _; exists s; reflexivity | reflexivity].
  - destruct s as [|y s].
    + split; [discriminate | intros (r & H); discriminate].
    + rewrite andb_true_iff, bool_decide_eq_true, IH. split.
      * intros (-> & r & ->). exists r. reflexivity.
      * intros (r & H). injection H as -> ->. eauto.
Qed.

Lemma find_first_unfold (s d : list ascii) :
  find_first s d =
  if starts_with s d then Some 0%nat
  else match s with
       | [] => None
       | _ :: s' => Datatypes.S <$> find_first s' d
       end.
Proof. destruct s; reflexivity. Qed.

(** The first occurrence splits the string, and no occurrence lies before
    it. *)
Lemma find_first_Some (s d : list ascii) (i : nat) :
  find_first s d = Some i ->
  s = take i s ++ d ++ drop (i + length d) s /\
  (i + length d <= length s)%nat /\
  forall j, (j < i)%nat -> starts_with (drop j s) d = false.
Proof.
  revert i. induction s as [|c s IH]; intros i; rewrite find_first_unfold.
  - destruct (starts_with [] d) eqn:Hd; [| discriminate].
    intros [= <-]. apply starts_with_prefix in Hd as (r & Hr).
    symmetry in Hr. apply app_eq_nil in Hr as [-> ->].
    split; [reflexivity |]. split; [simpl; lia | intros j Hj; lia].
  - destruct (starts_with (c :: s) d) eqn:Hd.
    + intros [= <-]. apply starts_with_prefix in Hd as (r & Hr).
      split; [| split; [| intros j Hj; lia]].
      * rewrite Hr at 1. simpl. rewrite Hr, drop_app_length. reflexivity.
      * rewrite Hr, length_app. lia.
    + destruct (find_first s d) as [k|] eqn:Hk; [| discriminate].
      intros [= <-]. destruct (IH k eq_refl) as (Hs & Hlen & Hmin).
      split; [| split].
      * simpl. f_equal. exact Hs.
      * simpl. lia.
      * intros [|j] Hj; [exact Hd |]. simpl. apply Hmin. lia.
Qed.

Lemma find_first_None (s d : list ascii) :
  find_first s d = None -> forall j, starts_with (drop j s) d = false.
Proof.
  induction s as [|c s IH]; rewrite find_first_unfold.
  - destruct (starts_with [] d) eqn:Hd; [discriminate |].
    intros _ j. rewrite drop_nil. exact Hd.
  - destruct (starts_with (c :: s) d) eqn:Hd; [discriminate |].
    destruct (find_first s d) eqn:Hk; [discriminate |].
    intros _ [|j]; [exact Hd |]. simpl. apply IH. reflexivity.
Qed.

Lemma find_first_occurrence (s d : list ascii) (i : nat) :
  find_first s d = Some i -> starts_with (drop i s) d = true.
Proof.
  intros Hi. apply find_first_Some in Hi as (Hs & Hlen & _).
  apply starts_with_prefix. exists (drop (i + length d) s).
  rewrite Hs at 1. rewrite drop_app_length'; [reflexivity |].
  rewrite length_take. lia.
Qed.

Lemma join_fold_app (r : list dna) (d p y : dna) :
  fold_left (fun s t => s ++ d ++ t) r (p ++ y) =
  p ++ fold_left (fun s t => s ++ d ++ t) r y.
Proof.
  revert y. induction r as [|t r IH]; intros y; simpl; [reflexivity |].
  rewrite <- app_assoc. apply IH.
Qed.

Lemma join_cons (x y : dna) (r : list dna) (d : dna) :
  join (x :: y :: r) d = x ++ d ++ join (y :: r) d.
Proof.
  unfold join. simpl. rewrite (join_fold_app r d x (d ++ y)).
  f_equal. apply (join_fold_app r d d y).
Qed.

Lemma find_from (s d : list ascii) (lo : nat) :
  (lo <= length s)%nat ->
  find s d lo = (fun i => lo + i)%nat <$> find_first (drop lo s) d.
Proof. intros H. unfold find. rewrite decide_True by exact H. reflexivity. Qed.

(** No occurrence of a non-empty [d] before the first one. *)
Lemma find_first_take (l d : list ascii) (i : nat) :
  d <> [] -> find_first l d = Some i -> find_first (take i l) d = None.
Proof.
  intros Hd Hi. apply find_first_Some in Hi as (_ & _ & Hmin).
  destruct (find_first (take i l) d) as [j|] eqn:Hj; [exfalso | reflexivity].
  pose proof (find_first_occurrence _ _ _ Hj) as Hocc.
  apply find_first_Some in Hj as (_ & Hlen & _).
  rewrite length_take in Hlen.
  assert (Hji : (j < i)%nat) by (destruct d; [congruence | simpl in Hlen; lia]).
  specialize (Hmin j Hji). apply not_true_iff_false in Hmin. apply Hmin.
  apply starts_with_prefix in Hocc as (r & Hr).
  apply starts_with_prefix. exists (r ++ drop i l).
  rewrite <- (take_drop i l) at 1.
  rewrite drop_app_le by (rewrite length_take; lia).
  rewrite Hr, <- app_assoc. reflexivity.
Qed.

Lemma split_loop_spec (s d : list ascii) (fuel lo : nat) (v : list dna) :
  d <> [] -> Z.of_nat (length s) <= npos ->
  (lo <= length s)%nat -> (length s - lo < fuel)%nat ->
  exists toks, split_loop fuel s d lo v = Ret (v ++ toks) /\
    toks <> [] /\ join toks d = drop lo s /\
    Forall (fun t => find t d 0 = None) toks.
Proof.
  intros Hd Hs. revert lo v.
  induction fuel as [|fuel IH]; intros lo v Hlo Hfuel; [lia |].
  cbn [split_loop]. rewrite find_from by exact Hlo.
  unfold substr. rewrite decide_True by exact Hlo.
  destruct (find_first (drop lo s) d) as [i|] eqn:Hi; simpl.
  - pose proof (find_first_Some _ _ _ Hi) as (Hsplit & Hlen & _).
    rewrite length_drop in Hlen.
    assert (Hd1 : (1 <= length d)%nat) by (destruct d; [congruence | simpl; lia]).
    replace (Z.to_nat (Z.min (Z.of_nat (lo + i) - Z.of_nat lo)
                         (Z.of_nat (length s - lo)))) with i by lia.
    destruct (IH (lo + i + length d)%nat (v ++ [take i (drop lo s)]))
      as (toks & Hrun & Hne & Hjoin & Hfree); [lia | lia |].
    exists (take i (drop lo s) :: toks).
    split; [etransitivity; [exact Hrun |]; rewrite <- app_assoc; reflexivity |].
    split; [discriminate |]. split.
    + destruct toks as [|y r]; [congruence |].
      rewrite join_cons, Hjoin. rewrite Hsplit at 2.
      rewrite drop_drop. do 3 f_equal. lia.
    + constructor; [| exact Hfree].
      rewrite find_from by lia. rewrite drop_0.
      rewrite (find_first_take _ _ _ Hd Hi). reflexivity.
  - exists [take (Z.to_nat (Z.min (npos - Z.of_nat lo) (Z.of_nat (length s - lo))))
              (drop lo s)].
    split; [reflexivity |]. split; [discriminate |].
    rewrite take_ge by (rewrite length_drop; lia).
    split; [reflexivity |]. constructor; [| constructor].
    rewrite find_from by lia. rewrite drop_0, Hi. reflexivity.
Qed.

(** X9: for a non-empty delimiter [split] returns at least one token, no
    token contains the delimiter, and joining the tokens with the delimiter
    gives the string back. *)
Theorem join_split (s delim : list ascii) :
  delim <> [] -> Z.of_nat (length s) <= npos ->
  exists toks, split s delim = Ret toks /\
    toks <> [] /\
    join toks delim = s /\
    Forall (fun t => find t delim 0 = None) toks.
Proof.
  intros Hd Hs.
  destruct (split_loop_spec s delim (Datatypes.S (length s)) 0 [] Hd Hs)
    as (toks & Hrun & Hne & Hjoin & Hfree); [lia | lia |].
  exists toks. rewrite drop_0 in Hjoin. auto.
Qed.

Lemma join_split_witness :
  exists toks, split (str "a,b,,c") (str ",") = Ret toks /\
    toks <> [] /\
    join toks (str ",") = str "a,b,,c" /\
    Forall (fun t => find t (str ",") 0 = None) toks.
Proof. apply join_split; [discriminate | vm_compute; discriminate]. Defined.

(** X10: with an empty delimiter the loop of [split] never ends: [find]
    reports a match at the position it starts from, and that position does
    not move. *)
Theorem split_empty_delimiter (s : list ascii) (fuel : nat) (v : list dna) :
  split_loop fuel s [] 0 v = Stuck /\ split s [] = Stuck.
Proof.
  assert (H : forall fuel v, split_loop fuel s [] 0 v = Stuck).
  { clear. intros fuel. induction fuel as [|fuel IH]; intros v; [reflexivity |].
    cbn [split_loop]. rewrite find_from by lia.
    rewrite drop_0, find_first_unfold. simpl. apply IH. }
  split; [apply H | apply H].
Qed.

(** *** rstrip *)

Lemma rstrip_loop_spaces (ws r : list ascii) :
  Forall (fun x => isspace x = true) ws ->
  rstrip_loop (ws ++ r) = rstrip_loop r.
Proof.
  induction 1 as [|x ws Hx _ IH]; [reflexivity |].
  simpl. rewrite Hx. exact IH.
Qed.



(** X12: on a string of white space only, the empty string included,
    [rstrip] strips every character and then reads [back()] of an empty
    view, which is undefined. *)
Theorem rstrip_blank (s : list ascii) :
  Forall (fun x => isspace x = true) s -> rstrip s = Stuck.
Proof.
  intros H. unfold rstrip.
  rewrite <- (app_nil_r (rev s)).
  rewrite rstrip_loop_spaces by (apply Forall_rev; exact H). reflexivity.
Qed.

Lemma rstrip_blank_witness : rstrip (str "  ") = Stuck.
Proof. apply rstrip_blank. repeat constructor. Defined.

(** *** wrap *)

Lemma chunks_nil (k m : nat) : chunks k m [] = [].
Proof. destruct k; reflexivity. Qed.

Lemma chunks_cons (k m : nat) (l : list ascii) :
  l <> [] -> chunks (Datatypes.S k) m l = take m l :: chunks k m (drop m l).
Proof. intros H. simpl. rewrite decide_False by exact H. reflexivity. Qed.

Lemma chunks_spec (k m : nat) (l : list ascii) :
  (1 <= m)%nat -> (length l <= k)%nat ->
  concat (chunks k m l) = l /\
  Forall (fun c => 1 <= length c <= m)%nat (chunks k m l) /\
  forall i c, chunks k m l !! i = Some c ->
    (Datatypes.S i < length (chunks k m l))%nat -> length c = m.
Proof.
  intros Hm. revert l. induction k as [|k IH]; intros l Hk.
  - destruct l; [| simpl in Hk; lia]. simpl.
    split; [reflexivity |]. split; [constructor |]. intros i c H. discriminate.
  - destruct (decide (l = [])) as [-> | Hl].
    + rewrite chunks_nil. split; [reflexivity |]. split; [constructor |].
      intros i c H. discriminate.
    + rewrite chunks_cons by exact Hl.
      assert (Hlen : (1 <= length l)%nat) by (destruct l; [congruence | simpl; lia]).
      destruct (IH (drop m l)) as (Hcat & Hall & Hfull);
        [rewrite length_drop; lia |].
      split; [simpl; rewrite Hcat; apply take_drop |].
      split.
      * constructor; [| exact Hall]. rewrite length_take. lia.
      * intros [|i] c Hc Hi; simpl in Hc, Hi.
        -- injection Hc as <-. rewrite length_take.
           destruct (decide (m < length l)%nat); [lia | exfalso].
           rewrite drop_ge, chunks_nil in Hi by lia. simpl in Hi. lia.
        -- apply (Hfull i c Hc). lia.
Qed.

Lemma wrap_loop_chunks (s : list ascii) (m : Z) (delim : ascii) :
  1 <= m -> Z.of_nat (length s) + m < 2 ^ 64 ->
  forall (fuel : nat) (pos : Z) (lines : list dna) (k : nat),
    0 <= pos -> (Z.to_nat (Z.of_nat (length s) - pos) < fuel)%nat ->
    (length (drop (Z.to_nat pos) s) <= k)%nat ->
    wrap_loop fuel s m delim pos lines =
      Ret (lines ++ chunks k (Z.to_nat m) (drop (Z.to_nat pos) s)).
Proof.
  intros Hm Hsize. induction fuel as [|fuel IH]; intros pos lines k Hpos Hfuel Hk;
    [lia |].
  cbn [wrap_loop].
  destruct (decide (pos < Z.of_nat (length s))) as [Hlt | Hge].
  - unfold substr. rewrite decide_True by lia. ret_bind.
    set (l := drop (Z.to_nat pos) s) in *.
    assert (Hl : length l = (length s - Z.to_nat pos)%nat)
      by (unfold l; apply length_drop).
    assert (Hne : l <> []) by (intros E; rewrite E in Hl; simpl in Hl; lia).
    destruct k as [|k]; [lia |].
    rewrite chunks_cons by exact Hne.
    assert (Htake : take (Z.to_nat (Z.min m (Z.of_nat (length s - Z.to_nat pos)))) l
                    = take (Z.to_nat m) l).
    { destruct (Z_le_gt_dec m (Z.of_nat (length s - Z.to_nat pos))) as [H | H].
      - rewrite Z.min_l by lia. reflexivity.
      - rewrite Z.min_r by lia. rewrite !take_ge by lia. reflexivity. }
    rewrite Htake.
    assert (Hdrop : forall step : Z,
      step = m \/ step = Z.of_nat (length (take (Z.to_nat m) l)) ->
      drop (Z.to_nat (wrap64 (pos + step))) s = drop (Z.to_nat m) l /\
      0 <= wrap64 (pos + step) /\
      (Z.to_nat (Z.of_nat (length s) - wrap64 (pos + step)) < fuel)%nat).
    { intros step Hstep. rewrite length_take in Hstep.
      assert (Hst : 1 <= step <= m) by lia.
      unfold wrap64. rewrite Z.mod_small by lia.
      split; [| lia]. unfold l. rewrite drop_drop.
      destruct Hstep as [-> | ->].
      - f_equal. lia.
      - destruct (decide (Z.to_nat m <= length l)%nat).
        + f_equal. lia.
        + rewrite !drop_ge by lia. reflexivity. }
    destruct (decide (delim <> "000"%char)).
    + rewrite decide_False by (rewrite length_take; lia).
      destruct (Hdrop (Z.of_nat (length (take (Z.to_nat m) l)))) as (Hd & H0 & Hf);
        [auto |].
      rewrite (IH _ _ k H0 Hf) by (rewrite Hd, length_drop; lia).
      rewrite Hd, <- app_assoc. reflexivity.
    + destruct (Hdrop m) as (Hd & H0 & Hf); [auto |].
      rewrite (IH _ _ k H0 Hf) by (rewrite Hd, length_drop; lia).
      rewrite Hd, <- app_assoc. reflexivity.
  - rewrite drop_ge by lia. rewrite chunks_nil, app_nil_r. reflexivity.
Qed.

(** X13: for a line length of at least 1, [wrap] cuts the string into
    consecutive pieces of exactly [max_len] characters, the last one holding
    what is left; the pieces put together give the string back. The
    delimiter has no influence on the result: the test that would break a
    line after a delimiter compares [max_len] with the length of a piece of
    at most [max_len] characters. *)
Theorem wrap_lines (s : list ascii) (max_len : Z) (delim : ascii) :
  1 <= max_len -> Z.of_nat (length s) + max_len < 2 ^ 64 ->
  exists lines, wrap s max_len delim = Ret lines /\
    lines = chunks (length s) (Z.to_nat max_len) s /\
    concat lines = s /\
    Forall (fun c => 1 <= Z.of_nat (length c) <= max_len) lines /\
    forall i c, lines !! i = Some c -> (Datatypes.S i < length lines)%nat ->
      Z.of_nat (length c) = max_len.
Proof.
  intros Hm Hsize. unfold wrap.
  rewrite (wrap_loop_chunks s max_len delim Hm Hsize _ 0 [] (length s))
    by (try rewrite length_drop; lia).
  simpl app. change (Z.to_nat 0) with 0%nat. rewrite drop_0.
  destruct (chunks_spec (length s) (Z.to_nat max_len) s) as (Hcat & Hall & Hfull);
    [lia | lia |].
  eexists. split; [reflexivity |]. split; [reflexivity |].
  split; [exact Hcat |]. split.
  - eapply Forall_impl; [exact Hall |]. simpl. intros c Hc. lia.
  - intros i c Hc Hi. rewrite (Hfull i c Hc Hi). lia.
Qed.

Lemma wrap_lines_witness :
  exists lines, wrap (str "K12R,A7T") 5 ","%char = Ret lines /\
    lines = chunks (length (str "K12R,A7T")) (Z.to_nat 5) (str "K12R,A7T") /\
    concat lines = str "K12R,A7T" /\
    Forall (fun c => 1 <= Z.of_nat (length c) <= 5) lines /\
    forall i c, lines !! i = Some c -> (Datatypes.S i < length lines)%nat ->
      Z.of_nat (length c) = 5.
Proof. apply wrap_lines; [lia | vm_compute; reflexivity]. Defined.

(** ** tree.cpp: nucleotides as bit sets *)

Lemma random_bit_single (draw i : nat) :
  (i < 5)%nat ->
  random_bit draw (Z.shiftl 1 (Z.of_nat i)) = Ret (Z.shiftl 1 (Z.of_nat i)).
Proof.
  intros Hi. unfold random_bit.
  assert (Hch : filter (fun k => Z.testbit (Z.shiftl 1 (Z.of_nat i)) (Z.of_nat k) = true)
                  (seq 0 5) = [i]).
  { destruct i as [|[|[|[|[|i]]]]]; try lia; vm_compute; reflexivity. }
  rewrite Hch. cbn [length]. rewrite Nat.mod_1_r. reflexivity.
Qed.

Lemma bit_decode_encode (draw : nat) (c : ascii) :
  c ∈ ACGT -> exists b, bit_encode c = Ret b /\ bit_decode draw b = Ret c.
Proof.
  intros H. apply list_elem_of_In in H. simpl in H.
  destruct H as [<- | [<- | [<- | [<- | [<- | []]]]]];
    [exists (Z.shiftl 1 (Z.of_nat 0)) | exists (Z.shiftl 1 (Z.of_nat 1))
    | exists (Z.shiftl 1 (Z.of_nat 2)) | exists (Z.shiftl 1 (Z.of_nat 3))
    | exists (Z.shiftl 1 (Z.of_nat 4))];
    (split; [reflexivity |]);
    unfold bit_decode;
    (rewrite decide_True by (vm_compute; split; discriminate));
    rewrite random_bit_single by lia; reflexivity.
Qed.

Lemma for_all_Forall2 {A B} (f : A -> outcome B) (xs : list A) (ys : list B) :
  Forall2 (fun x y => f x = Ret y) xs ys -> for_all xs f = Ret ys.
Proof.
  induction 1 as [|x y xs ys Hxy _ IH]; simpl; [reflexivity |].
  rewrite Hxy. simpl. rewrite IH. reflexivity.
Qed.

(** X14: [to_dna] undoes [to_bdna]: a sequence over "ACGT-" is encoded, and
    whatever numbers the random engine delivers the code is decoded to the
    sequence it came from. *)
Theorem to_dna_to_bdna (s : list ascii) :
  Forall (fun c => c ∈ ACGT) s ->
  exists b, to_bdna s = Ret b /\ length b = length s /\
    forall draws, to_dna draws b = Ret s.
Proof.
  induction 1 as [|c s Hc Hs (b & Hb & Hlen & Hdec)].
  - exists []. split; [reflexivity |]. split; [reflexivity |].
    intros draws. reflexivity.
  - destruct (bit_decode_encode 0 c Hc) as (x & Hx & _).
    exists (x :: b). unfold to_bdna in *. simpl. rewrite Hx, Hb. simpl.
    split; [reflexivity |]. split; [congruence |].
    intros draws. unfold to_dna. simpl.
    destruct (bit_decode_encode (draws 0%nat) c Hc) as (x' & Hx' & Hd).
    assert (x' = x) by congruence. subst x'. rewrite Hd. simpl.
    specialize (Hdec (fun i => draws (Datatypes.S i))). unfold to_dna in Hdec.
    rewrite <- seq_shift.
    assert (Hshift : for_all (zip (map Datatypes.S (seq 0 (length b))) b)
              (fun ix => bit_decode (draws (fst ix)) (snd ix)) =
            for_all (zip (seq 0 (length b)) b)
              (fun ix => bit_decode (draws (Datatypes.S (fst ix))) (snd ix))).
    { clear. generalize (seq 0 (length b)). intros l. revert l.
      induction b as [|y b IH]; intros [|i l]; simpl; try reflexivity.
      rewrite IH. reflexivity. }
    rewrite Hshift, Hdec. reflexivity.
Qed.

Lemma to_dna_to_bdna_witness :
  exists b, to_bdna (str "AC-GT") = Ret b /\ length b = length (str "AC-GT") /\
    forall draws, to_dna draws b = Ret (str "AC-GT").
Proof.
  apply to_dna_to_bdna. apply Forall_forall. intros c Hc.
  apply list_elem_of_In in Hc. apply list_elem_of_In. simpl in *. intuition.
Defined.

(** X15: a character outside "ACGT-" is refused by [to_bdna] (the [assert]
    of [bit_encode]), wherever it stands in the sequence. *)
Theorem to_bdna_invalid (s : list ascii) (c : ascii) :
  c ∈ s -> c ∉ ACGT -> to_bdna s = Stuck.
Proof.
  intros Hin Hc. unfold to_bdna.
  induction s as [|x s IH]; [apply elem_of_nil in Hin; destruct Hin |].
  simpl. destruct (decide (x = c)) as [-> | Hne].
  - assert (Henc : bit_encode c = Stuck).
    { unfold bit_encode, find_char.
      destruct (list_find (fun x => x = c) (str "ACGT-")) as [[i y]|] eqn:Hf;
        [| reflexivity].
      apply list_find_Some in Hf as (Hl & -> & _).
      exfalso. apply Hc. apply list_elem_of_lookup. eauto. }
    rewrite Henc. reflexivity.
  - apply elem_of_cons in Hin as [-> | Hin]; [congruence |].
    rewrite (IH Hin). unfold bit_encode.
    destruct (find_char (str "ACGT-") x); reflexivity.
Qed.

Lemma to_bdna_invalid_witness : to_bdna (str "ACNT") = Stuck.
Proof.
  apply (to_bdna_invalid _ "N"%char).
  - apply list_elem_of_In. simpl. auto.
  - intros H. apply list_elem_of_In in H. simpl in H.
    repeat (destruct H as [H | H]; [discriminate |]). exact H.
Defined.

(** X16: [random_bit] returns one of the bits of [mask] among the low five
    when there is one, whatever number is drawn; when none of the low five
    bits is set it indexes an empty vector. *)
Theorem random_bit_of_mask (draw : nat) (mask : Z) :
  ((exists i, (i < 5)%nat /\ Z.testbit mask (Z.of_nat i) = true) ->
   exists i, (i < 5)%nat /\ Z.testbit mask (Z.of_nat i) = true /\
     random_bit draw mask = Ret (Z.shiftl 1 (Z.of_nat i))) /\
  ((forall i, (i < 5)%nat -> Z.testbit mask (Z.of_nat i) = false) ->
   random_bit draw mask = Stuck).
Proof.
  unfold random_bit.
  set (choices := filter (fun i => Z.testbit mask (Z.of_nat i) = true) (seq 0 5)).
  split.
  - intros (i & Hi & Hbit).
    assert (Hin : i ∈ choices).
    { apply list_elem_of_filter. split; [exact Hbit |]. apply elem_of_seq. lia. }
    assert (Hlen : (0 < length choices)%nat).
    { destruct choices; [apply elem_of_nil in Hin; destruct Hin | simpl; lia]. }
    destruct (lookup_lt_is_Some_2 choices (draw mod length choices)) as [k Hk].
    { apply Nat.mod_upper_bound. lia. }
    assert (Hkin : k ∈ choices) by (apply list_elem_of_lookup; eauto).
    apply list_elem_of_filter in Hkin as [Hkbit Hkseq].
    apply elem_of_seq in Hkseq.
    exists k. split; [lia |]. split; [exact Hkbit |].
    unfold vec_at. rewrite Hk. reflexivity.
  - intros Hnone.
    assert (Hnil : choices = []).
    { destruct choices as [|k l] eqn:E; [reflexivity | exfalso].
      assert (Hkin : k ∈ choices) by (rewrite E; apply elem_of_cons; auto).
      apply list_elem_of_filter in Hkin as [Hkbit Hkseq].
      apply elem_of_seq in Hkseq. rewrite Hnone in Hkbit by lia. discriminate. }
    rewrite Hnil. unfold vec_at. rewrite lookup_nil. reflexivity.
Qed.

Lemma random_bit_of_mask_witness :
  (exists i, (i < 5)%nat /\ Z.testbit 5 (Z.of_nat i) = true /\
     random_bit 3 5 = Ret (Z.shiftl 1 (Z.of_nat i))) /\
  random_bit 3 32 = Stuck.
Proof.
  split.
  - apply (proj1 (random_bit_of_mask 3 5)). exists 0%nat.
    split; [lia | reflexivity].
  - apply (proj2 (random_bit_of_mask 3 32)). intros i Hi.
    do 5 (destruct i as [|i]; [reflexivity |]). lia.
Defined.

(** ** tree.cpp: hamming_distance *)

(** X17: on sequences of one length below 2^32 [hamming_distance] is a
    metric: it is zero exactly on equal sequences, symmetric, and satisfies
    the triangle inequality. *)
Theorem hamming_distance_metric (a b c : dna) :
  length a = length b -> length b = length c ->
  Z.of_nat (length a) < 2 ^ 32 ->
  exists dab dbc dac,
    hamming_distance a b = Ret dab /\ hamming_distance b a = Ret dab /\
    hamming_distance b c = Ret dbc /\ hamming_distance a c = Ret dac /\
    0 <= dab /\ (dab = 0 <-> a = b) /\ dac <= dab + dbc.
Proof.
  intros Hab Hbc Hlen.
  assert (Hw : forall x y : dna, length x = length a ->
            wrap32 (mismatches x y) = mismatches x y).
  { intros x y Hx. pose proof (mismatches_bounds x y).
    unfold wrap32. apply Z.mod_small. lia. }
  exists (mismatches a b), (mismatches b c), (mismatches a c).
  rewrite (hamming_distance_spec a b), (hamming_distance_spec b a),
    (hamming_distance_spec b c), (hamming_distance_spec a c) by lia.
  rewrite !Hw by lia. rewrite (mismatches_sym b a).
  split; [reflexivity |]. split; [reflexivity |].
  split; [reflexivity |]. split; [reflexivity |].
  split; [apply mismatches_bounds |]. split.
  - split; [apply mismatches_zero; exact Hab | intros ->; apply mismatches_refl].
  - apply mismatches_triangle; assumption.
Qed.

Lemma hamming_distance_metric_witness :
  exists dab dbc dac,
    hamming_distance (str "ACGT") (str "ACGA") = Ret dab /\
    hamming_distance (str "ACGA") (str "ACGT") = Ret dab /\
    hamming_distance (str "ACGA") (str "TCGA") = Ret dbc /\
    hamming_distance (str "ACGT") (str "TCGA") = Ret dac /\
    0 <= dab /\ (dab = 0 <-> str "ACGT" = str "ACGA") /\ dac <= dab + dbc.
Proof.
  apply hamming_distance_metric; [reflexivity | reflexivity | vm_compute; reflexivity].
Defined.

(** X18: [hamming_distance] walks along its first argument only: a second
    argument that is shorter is read past its end, and of one that is longer
    only the first [a.size()] characters count. *)
Theorem hamming_distance_lengths (a b : dna) :
  ((length b < length a)%nat -> hamming_distance a b = Stuck) /\
  ((length a <= length b)%nat ->
   hamming_distance a b = hamming_distance a (take (length a) b)).
Proof.
  unfold hamming_distance. generalize 0 at 1 2 3. revert b.
  induction a as [|x a IH]; intros b d; split; intros H.
  - simpl in H. lia.
  - reflexivity.
  - destruct b as [|y b]; [reflexivity |]. simpl in *.
    apply IH. lia.
  - destruct b as [|y b]; [simpl in H; lia |]. simpl in *.
    apply IH. lia.
Qed.

Lemma hamming_distance_lengths_witness :
  hamming_distance (str "ACG") (str "AC") = Stuck /\
  hamming_distance (str "AC") (str "AGT") =
    hamming_distance (str "AC") (take (length (str "AC")) (str "AGT")).
Proof.
  split.
  - apply (proj1 (hamming_distance_lengths (str "ACG") (str "AC"))).
    simpl. lia.
  - apply (proj2 (hamming_distance_lengths (str "AC") (str "AGT"))).
    simpl. lia.
Defined.

(** ** tree.cpp: the columns of the Markov model *)

(** A loop that returned has kept every invariant its iterations keep. *)
Lemma for_each_ret {A S} (P : S -> Prop) (body : S -> A -> outcome S)
    (xs : list A) (s s' : S) :
  for_each xs body s = Ret s' ->
  P s ->
  (forall x s1 s2, x ∈ xs -> P s1 -> body s1 x = Ret s2 -> P s2) ->
  P s'.
Proof.
  revert s. induction xs as [|x xs IH]; intros s Hrun H0 Hstep.
  - simpl in Hrun. injection Hrun as <-. exact H0.
  - simpl in Hrun. first_call Hrun as s1 Hb.
    apply (IH s1 Hrun).
    + apply (Hstep x s); [apply elem_of_cons; auto | exact H0 | exact Hb].
    + intros y s2 s3 Hy. apply Hstep. apply elem_of_cons. auto.
Qed.

Lemma entry_get (m : Matrix Z) r c :
  mat_wf 4 m -> (r < 4)%nat -> (c < 4)%nat -> mat_get m r c = Ret (entry m r c).
Proof.
  intros Hwf Hr Hc. unfold entry.
  destruct (mat_get_in_range 4 m r c Hwf Hr Hc) as (x & ->). reflexivity.
Qed.

Lemma counts_inv_initial : counts_inv (mkCounts (Matrix_new 4 4 0) (replicate 4 0)).
Proof.
  split; [apply Matrix_new_wf |]. split; [reflexivity |]. split.
  - intros r c Hr Hc. cbn [c_m]. unfold entry.
    rewrite Matrix_new_get by assumption. lia.
  - intros c Hc. cbn [c_m c_csums]. unfold colsum, entry.
    rewrite !Matrix_new_get by lia.
    rewrite lookup_replicate_2 by exact Hc. reflexivity.
Qed.

Lemma count_position_inv pnts cnts st i st' :
  counts_inv st -> count_position pnts cnts st i = Ret st' -> counts_inv st'.
Proof.
  intros (Hwf & Hlen & Hpos & Hsum) Hrun. unfold count_position in Hrun.
  first_call Hrun as pc Hpc. first_call Hrun as cc Hcc.
  pose proof (lut_range pc) as Hc. pose proof (lut_range cc) as Hr.
  rewrite decide_False in Hrun by (unfold npos; lia).
  set (c := Z.to_nat (lut pc)) in *. set (r := Z.to_nat (lut cc)) in *.
  assert (Hc4 : (c < 4)%nat) by (unfold c; lia).
  assert (Hr4 : (r < 4)%nat) by (unfold r; lia).
  first_call Hrun as x Hx. rewrite entry_get in Hx by assumption.
  injection Hx as <-.
  first_call Hrun as m Hm.
  destruct (mat_set_spec 4 (c_m st) r c (entry (c_m st) r c + 1) Hwf Hr4 Hc4)
    as (m' & Hm' & Hwf' & Hget).
  rewrite Hm in Hm'. injection Hm' as <-.
  first_call Hrun as s Hs. apply vec_at_Ret in Hs.
  rewrite Hsum in Hs by exact Hc4. injection Hs as <-.
  first_call Hrun as csums Hcs. apply vec_set_inv in Hcs as (_ & ->).
  injection Hrun as <-. unfold counts_inv. cbn [c_m c_csums].
  assert (Hentry : forall a b, (a < 4)%nat -> (b < 4)%nat ->
            entry m a b = if decide (a = r /\ b = c)
                          then entry (c_m st) r c + 1 else entry (c_m st) a b).
  { intros a b Ha Hb. unfold entry at 1. rewrite Hget by assumption.
    destruct (decide (a = r /\ b = c)); [reflexivity |].
    rewrite entry_get by assumption. reflexivity. }
  split; [exact Hwf' |]. split; [rewrite length_insert; exact Hlen |]. split.
  - intros a b Ha Hb. rewrite Hentry by assumption.
    pose proof (Hpos r c Hr4 Hc4). pose proof (Hpos a b Ha Hb).
    destruct (decide _); lia.
  - intros b Hb.
    assert (Hcol : colsum m b = colsum (c_m st) b + (if decide (b = c) then 1 else 0)).
    { unfold colsum. rewrite !Hentry by lia.
      destruct (decide (b = c)) as [-> | Hne].
      - destruct r as [|[|[|[|r]]]]; try lia;
          repeat (destruct (decide _) as [[? ?] | ?]; try lia).
      - repeat (destruct (decide _) as [[? ?] | ?]; try lia). }
    rewrite Hcol. destruct (decide (b = c)) as [-> | Hne].
    + rewrite list_lookup_insert_eq by lia. reflexivity.
    + rewrite list_lookup_insert_ne by lia. rewrite Hsum by exact Hb.
      f_equal. lia.
Qed.

Lemma count_substitutions_inv sequences adj_list st :
  count_substitutions sequences adj_list = Ret st -> counts_inv st.
Proof.
  intros Hrun. unfold count_substitutions in Hrun.
  apply (for_each_ret counts_inv) in Hrun; [exact Hrun | apply counts_inv_initial |].
  intros e s1 s2 _ H1 Hbody.
  first_call Hbody as pnts Hp. first_call Hbody as cnts Hc.
  apply (for_each_ret counts_inv) in Hbody; [exact Hbody | exact H1 |].
  intros i s3 s4 _ H3 Hstep. eapply count_position_inv; eassumption.
Qed.

Lemma normalise_columns_spec (st : Counts) :
  counts_inv st ->
  exists M, normalise_columns st = Ret M /\ mat_wf 4 M /\
    forall r c, (r < 4)%nat -> (c < 4)%nat ->
      mat_get M r c = Ret (normalised st r c).
Proof.
  intros (Hwf & Hlen & Hpos & Hsum). unfold normalise_columns.
  change 4%nat with (0 + 4)%nat at 1.
  match goal with
  | |- context [for_each (seq 0 (0 + 4)) ?body ?init] =>
      destruct (for_each_seq_inv (fun k (M : Matrix Ratio) =>
        mat_wf 4 M /\
        forall r c, (r < 4)%nat -> (c < 4)%nat ->
          mat_get M r c =
            Ret (if decide (c < k)%nat then normalised st r c
                 else mkRatio (entry (c_m st) r c) 1)) body 0 4 init)
        as (M & Hrun & HwfM & HM)
  end.
  - destruct Hwf as (Hr & Hc & Hb).
    split; [split; [reflexivity | split; [reflexivity |]] |].
    + simpl. rewrite length_map. exact Hb.
    + intros r c Hr4 Hc4. rewrite decide_False by lia.
      unfold mat_get, vec_at. simpl.
      rewrite list_lookup_fmap. unfold entry, mat_get, vec_at. rewrite Hc.
      destruct (lookup_lt_is_Some_2 (buf_ (c_m st)) (r * 4 + c)) as [x Hx];
        [rewrite Hb; apply idx_lt; assumption |].
      rewrite Hx. reflexivity.
  - intros k M Hk (HwfM & HM). simpl in Hk.
    rewrite (vec_at_Some _ _ _ (Hsum k ltac:(lia))). ret_bind.
    destruct (decide (colsum (c_m st) k = 0)) as [Hz | Hnz].
    + destruct (mat_set_spec 4 M k k (mkRatio 1 1) HwfM ltac:(lia) ltac:(lia))
        as (M' & HM' & HwfM' & Hget).
      exists M'. split; [exact HM' |]. split; [exact HwfM' |].
      intros r c Hr4 Hc4. rewrite Hget by assumption. rewrite HM by assumption.
      destruct (decide (r = k /\ c = k)) as [[-> ->] | Hne].
      * rewrite (decide_True (P := (k < Datatypes.S k)%nat)) by lia.
        unfold normalised. rewrite decide_True by exact Hz.
        rewrite decide_True by reflexivity. reflexivity.
      * destruct (decide (c < k)%nat).
        -- rewrite (decide_True (P := (c < Datatypes.S k)%nat)) by lia. reflexivity.
        -- destruct (decide (c = k)) as [-> | Hck].
           ++ rewrite (decide_True (P := (k < Datatypes.S k)%nat)) by lia.
              unfold normalised. rewrite decide_True by exact Hz.
              rewrite decide_False by (intros ->; apply Hne; auto). reflexivity.
           ++ rewrite (decide_False (P := (c < Datatypes.S k)%nat)) by lia.
              reflexivity.
    + change 4%nat with (0 + 4)%nat at 1.
      match goal with
      | |- context [for_each (seq 0 (0 + 4)) ?body ?init] =>
          destruct (for_each_seq_inv (fun j (N : Matrix Ratio) =>
            mat_wf 4 N /\
            forall r c, (r < 4)%nat -> (c < 4)%nat ->
              mat_get N r c =
                if decide (c = k /\ r < j)%nat
                then Ret (mkRatio (entry (c_m st) r k) (colsum (c_m st) k))
                else mat_get M r c) body 0 4 init)
            as (N & Hrun & HwfN & HN)
      end.
      * split; [exact HwfM |]. intros r c Hr4 Hc4.
        rewrite decide_False by lia. reflexivity.
      * intros j N Hj (HwfN & HN). simpl in Hj.
        rewrite entry_get by (assumption || lia). ret_bind.
        destruct (mat_set_spec 4 N j k
                    (mkRatio (entry (c_m st) j k) (colsum (c_m st) k))
                    HwfN ltac:(lia) ltac:(lia))
          as (N' & HN' & HwfN' & Hget).
        exists N'. split; [exact HN' |]. split; [exact HwfN' |].
        intros r c Hr4 Hc4. rewrite Hget by assumption.
        destruct (decide (r = j /\ c = k)) as [[-> ->] | Hne].
        -- rewrite decide_True by lia. reflexivity.
        -- rewrite HN by assumption.
           destruct (decide (c = k /\ (r < j)%nat)) as [[-> Hlt] | Hn2].
           ++ rewrite decide_True by lia. reflexivity.
           ++ rewrite decide_False by lia. reflexivity.
      * exists N. split; [exact Hrun |]. split; [exact HwfN |].
        intros r c Hr4 Hc4. rewrite HN by assumption. rewrite HM by assumption.
        destruct (decide (c = k /\ (r < 0 + 4)%nat)) as [[-> _] | Hne].
        -- rewrite (decide_True (P := (k < Datatypes.S k)%nat)) by lia.
           unfold normalised. rewrite decide_False by exact Hnz.
           reflexivity.
        -- destruct (decide (c < k)%nat).
           ++ rewrite (decide_True (P := (c < Datatypes.S k)%nat)) by lia.
              reflexivity.
           ++ rewrite (decide_False (P := (c < Datatypes.S k)%nat)) by lia.
              reflexivity.
  - exists M. split; [exact Hrun |]. split; [exact HwfM |].
    intros r c Hr4 Hc4. rewrite HM by assumption.
    rewrite (decide_True (P := (c < 0 + 4)%nat)) by lia. reflexivity.
Qed.

(** X19: every column of the matrix [infer_markov_model] returns sums to
    one: its four entries are quotients with one positive denominator and
    numerators that are not negative and add up to that denominator. *)
Theorem infer_markov_model_columns (sequences : list dna) (adj_list : list Edge)
    (m : Matrix Ratio) (c : nat) :
  infer_markov_model sequences adj_list = Ret m -> (c < 4)%nat ->
  exists n0 n1 n2 n3 d,
    mat_get m 0 c = Ret (mkRatio n0 d) /\ mat_get m 1 c = Ret (mkRatio n1 d) /\
    mat_get m 2 c = Ret (mkRatio n2 d) /\ mat_get m 3 c = Ret (mkRatio n3 d) /\
    0 <= n0 /\ 0 <= n1 /\ 0 <= n2 /\ 0 <= n3 /\ 0 < d /\
    n0 + n1 + n2 + n3 = d.
Proof.
  intros Hrun Hc. unfold infer_markov_model in Hrun.
  first_call Hrun as st Hst.
  pose proof (count_substitutions_inv _ _ _ Hst) as Hinv.
  destruct (normalise_columns_spec st Hinv) as (M & HM & _ & Hget).
  rewrite Hrun in HM. injection HM as <-.
  destruct Hinv as (_ & _ & Hpos & _).
  pose proof (Hpos 0%nat c ltac:(lia) Hc). pose proof (Hpos 1%nat c ltac:(lia) Hc).
  pose proof (Hpos 2%nat c ltac:(lia) Hc). pose proof (Hpos 3%nat c ltac:(lia) Hc).
  rewrite !Hget by lia. unfold normalised.
  destruct (decide (colsum (c_m st) c = 0)) as [Hz | Hnz].
  - unfold colsum in Hz.
    destruct c as [|[|[|[|c]]]]; try lia;
      repeat (rewrite decide_True by reflexivity || rewrite decide_False by lia);
      do 5 eexists; repeat split; try reflexivity; lia.
  - do 5 eexists. repeat split; try reflexivity; try assumption;
      unfold colsum in *; lia.
Qed.

Lemma infer_markov_model_columns_witness :
  exists n0 n1 n2 n3 d,
    mat_get (mkMatrix 4 4
      [mkRatio 1 2; mkRatio 0 1; mkRatio 0 1; mkRatio 0 1;
       mkRatio 1 2; mkRatio 1 1; mkRatio 0 1; mkRatio 0 1;
       mkRatio 0 2; mkRatio 0 1; mkRatio 1 1; mkRatio 0 1;
       mkRatio 0 2; mkRatio 0 1; mkRatio 0 1; mkRatio 1 1]) 0 0 = Ret (mkRatio n0 d) /\
    mat_get (mkMatrix 4 4
      [mkRatio 1 2; mkRatio 0 1; mkRatio 0 1; mkRatio 0 1;
       mkRatio 1 2; mkRatio 1 1; mkRatio 0 1; mkRatio 0 1;
       mkRatio 0 2; mkRatio 0 1; mkRatio 1 1; mkRatio 0 1;
       mkRatio 0 2; mkRatio 0 1; mkRatio 0 1; mkRatio 1 1]) 1 0 = Ret (mkRatio n1 d) /\
    mat_get (mkMatrix 4 4
      [mkRatio 1 2; mkRatio 0 1; mkRatio 0 1; mkRatio 0 1;
       mkRatio 1 2; mkRatio 1 1; mkRatio 0 1; mkRatio 0 1;
       mkRatio 0 2; mkRatio 0 1; mkRatio 1 1; mkRatio 0 1;
       mkRatio 0 2; mkRatio 0 1; mkRatio 0 1; mkRatio 1 1]) 2 0 = Ret (mkRatio n2 d) /\
    mat_get (mkMatrix 4 4
      [mkRatio 1 2; mkRatio 0 1; mkRatio 0 1; mkRatio 0 1;
       mkRatio 1 2; mkRatio 1 1; mkRatio 0 1; mkRatio 0 1;
       mkRatio 0 2; mkRatio 0 1; mkRatio 1 1; mkRatio 0 1;
       mkRatio 0 2; mkRatio 0 1; mkRatio 0 1; mkRatio 1 1]) 3 0 = Ret (mkRatio n3 d) /\
    0 <= n0 /\ 0 <= n1 /\ 0 <= n2 /\ 0 <= n3 /\ 0 < d /\
    n0 + n1 + n2 + n3 = d.
Proof.
  apply (infer_markov_model_columns [str "AA"; str "AC"]
           [mkEdge 0 1 1 (mkRatio 1 1)]); [reflexivity | lia].
Defined.

(** ** build_mst: every edge is a lightest edge across its cut *)

Lemma lor_uint32 (a b : Z) :
  0 <= a < 2 ^ 32 -> 0 <= b < 2 ^ 32 -> 0 <= Z.lor a b < 2 ^ 32.
Proof.
  intros Ha Hb. split; [apply Z.lor_nonneg; lia |].
  destruct (decide (Z.lor a b = 0)) as [-> | Hnz]; [lia |].
  assert (0 < Z.lor a b) by (pose proof (proj2 (Z.lor_nonneg a b)); lia).
  apply Z.log2_lt_pow2; [assumption |].
  rewrite Z.log2_lor by lia.
  destruct (decide (a = 0)) as [-> | Ha0]; destruct (decide (b = 0)) as [-> | Hb0];
    try (simpl in *; lia).
  - rewrite Z.max_r by (simpl; apply Z.log2_nonneg).
    apply Z.log2_lt_pow2; lia.
  - rewrite Z.max_l by (simpl; apply Z.log2_nonneg).
    apply Z.log2_lt_pow2; lia.
  - apply Z.max_lub_lt; apply Z.log2_lt_pow2; lia.
Qed.

(** A key is a [uint32_t]. *)
Lemma join_distance_bound (sequences : list dna) (dism : Matrix Z) (c p : nat) (d : Z) :
  Forall (fun x => x <= MAX_D) (buf_ dism) ->
  join_distance sequences dism c p = Ret d -> d <= MAX_D.
Proof.
  intros Hb H. unfold join_distance in H. case_decide.
  - unfold mat_get in H. apply vec_at_Ret in H.
    rewrite Forall_forall in Hb. apply Hb. apply list_elem_of_lookup. eauto.
  - first_call H as sc Hsc. first_call H as sp Hsp. first_call H as s0 Hs0.
    first_call H as d1 Hd1. first_call H as d2 Hd2. injection H as <-.
    assert (Hlo : 0 <= Z.land d2 65535 < 2 ^ 32).
    { assert (E : Z.land d2 65535 = d2 mod 65536)
        by (change 65535 with (Z.ones 16); apply Z.land_ones; lia).
      rewrite E. pose proof (Z.mod_pos_bound d2 65536 ltac:(lia)). lia. }
    assert (Hhi : 0 <= wrap32 (Z.shiftl d1 16) < 2 ^ 32)
      by (apply Z.mod_pos_bound; lia).
    pose proof (lor_uint32 _ _ Hhi Hlo). unfold MAX_D, UINT32_MAX. lia.
Qed.

Section lightest.
Variable sequences : list dna.
Variable dism : Matrix Z.
Variable dim : nat.

Hypothesis distance_defined : forall c p, (c < dim)%nat -> (p < dim)%nat ->
  exists d, join_distance sequences dism c p = Ret d.
Hypothesis distance_bound : forall c p, (c < dim)%nat -> (p < dim)%nat ->
  Dist sequences dism c p <= MAX_D.

(** The key held for a pending vertex is the smallest of its keys to the
    vertices of [att], and its parent is where that key was found. *)
Definition key_ok (att : list nat) (j : Join) : Prop :=
  (forall a, a ∈ att -> jd j <= Dist sequences dism (jc j) a) /\
  ((jd j = MAX_D /\ jp j = 0%nat) \/
   (jp j ∈ att /\ jd j = Dist sequences dism (jc j) (jp j))).

(** The record at index [i] of the attached ones holds a lightest edge
    from the vertices before it to all the others. *)
Definition cut_ok (pre pend : list Join) : Prop :=
  forall i j, (1 <= i)%nat -> pre !! i = Some j ->
    jp j ∈ take i (map jc pre) /\
    jd j = Dist sequences dism (jc j) (jp j) /\
    forall c' a, c' ∈ map jc (drop i pre ++ pend) -> a ∈ take i (map jc pre) ->
      jd j <= Dist sequences dism c' a.

Definition lightest_inv (pre pend : list Join) : Prop :=
  shape_inv dim pre pend /\
  (forall j, j ∈ pend -> key_ok (removelast (map jc pre)) j) /\
  cut_ok pre pend.

Lemma key_ok_relax (att : list nat) (la : nat) (j : Join) :
  key_ok att j -> key_ok (att ++ [la]) (relax1 sequences dism la j).
Proof.
  intros (Hmin & Hpar). unfold relax1. case_decide as Hlt.
  - split; simpl.
    + intros a Ha. apply elem_of_app in Ha as [Ha | Ha].
      * specialize (Hmin a Ha). lia.
      * apply list_elem_of_singleton in Ha. subst a. lia.
    + right. split; [| reflexivity].
      apply elem_of_app. right. apply list_elem_of_singleton. reflexivity.
  - split.
    + intros a Ha. apply elem_of_app in Ha as [Ha | Ha].
      * apply Hmin. exact Ha.
      * apply list_elem_of_singleton in Ha. subst a. lia.
    + destruct Hpar as [Hinit | (Hin & Hd)]; [left; exact Hinit |].
      right. split; [| exact Hd]. apply elem_of_app. left. exact Hin.
Qed.

Lemma lightest_inv_initial (pend : list Join) :
  (1 <= dim)%nat -> pend ≡ₚ pending0 dim ->
  lightest_inv [mkJoin 0 0 MAX_D] pend.
Proof.
  intros Hdim Hperm. split; [apply shape_inv_initial; assumption |]. split.
  - intros j Hj. rewrite Hperm in Hj. unfold pending0 in Hj.
    apply list_elem_of_fmap in Hj as (i & -> & _). split.
    + intros a Ha. apply elem_of_nil in Ha. destruct Ha.
    + left. split; reflexivity.
  - intros i j Hi Hij. destruct i; [lia | discriminate].
Qed.

Lemma lightest_inv_step pre pend last_added jm rest :
  lightest_inv pre pend -> last pre = Some last_added ->
  jm :: rest ≡ₚ map (relax1 sequences dism (jc last_added)) pend ->
  Forall (fun j => jd jm <= jd j) rest ->
  lightest_inv (pre ++ [jm]) rest.
Proof.
  intros (Hshape & Hkeys & Hcut) Hlast Hrel Hmin.
  pose proof (shape_inv_step sequences dism dim pre pend last_added jm rest
                Hshape Hlast Hrel) as Hshape'.
  destruct (shape_inv_basic dim _ _ Hshape') as (Hlen' & Hdim').
  assert (Hpre : map jc pre = removelast (map jc pre) ++ [jc last_added]).
  { destruct (exists_last (l := pre)) as (pre0 & x & E).
    - intros ->. discriminate.
    - rewrite E in Hlast. rewrite last_snoc in Hlast. injection Hlast as ->.
      rewrite E, map_app. simpl. rewrite removelast_last. reflexivity. }
  assert (Hnew : forall j, j ∈ jm :: rest -> key_ok (map jc pre) j).
  { intros j Hj.
    destruct (relaxed_elem sequences dism _ _ _ _ _ Hrel Hj) as (j' & Hj' & ->).
    rewrite Hpre. apply key_ok_relax. apply Hkeys. exact Hj'. }
  assert (Hjcs : map jc (jm :: rest) ≡ₚ map jc pend).
  { rewrite Hrel. rewrite map_map.
    erewrite map_ext; [reflexivity |]. intros a. apply relax1_jc. }
  assert (Hzero : 0%nat ∈ map jc pre).
  { destruct Hshape as (_ & _ & Hhead & _).
    apply list_elem_of_fmap. exists (mkJoin 0 0 MAX_D). split; [reflexivity |].
    apply list_elem_of_lookup. eauto. }
  assert (Hlt : forall c, c ∈ map jc (pre ++ jm :: rest) -> (c < dim)%nat).
  { intros c Hc. apply list_elem_of_fmap in Hc as (j & -> & Hj).
    rewrite Forall_forall in Hdim'. apply Hdim'.
    rewrite <- app_assoc. exact Hj. }
  split; [exact Hshape' |]. split.
  - intros j Hj. rewrite map_app. simpl. rewrite removelast_last.
    apply Hnew. apply elem_of_cons. auto.
  - intros i j Hi Hij.
    destruct (decide (i < length pre)%nat) as [Hin | Hout].
    + rewrite lookup_app_l in Hij by exact Hin.
      destruct (Hcut i j Hi Hij) as (Hp & Hd & Hall).
      rewrite map_app, take_app_le by (rewrite length_map; lia).
      split; [exact Hp |]. split; [exact Hd |].
      intros c' a Hc' Ha. apply Hall; [| exact Ha].
      rewrite drop_app_le in Hc' by lia.
      rewrite <- app_assoc, map_app in Hc'. rewrite map_app.
      apply elem_of_app in Hc' as [Hc' | Hc'];
        apply elem_of_app; [left; exact Hc' | right].
      rewrite <- Hjcs. exact Hc'.
    + assert (i = length pre) as ->.
      { apply lookup_lt_Some in Hij. rewrite length_app in Hij. simpl in Hij. lia. }
      rewrite lookup_app_r in Hij by lia. rewrite Nat.sub_diag in Hij.
      injection Hij as <-.
      rewrite map_app, take_app_length' by (rewrite length_map; reflexivity).
      rewrite drop_app_length. simpl app.
      destruct (Hnew jm) as (Hjm_min & Hjm_par); [apply elem_of_cons; auto |].
      assert (Hcjm : (jc jm < dim)%nat).
      { apply Hlt. rewrite map_app. apply elem_of_app. right.
        apply elem_of_cons. auto. }
      assert (Hpar : jp jm ∈ map jc pre /\
                     jd jm = Dist sequences dism (jc jm) (jp jm)).
      { destruct Hjm_par as [(Hd & Hp) | Hok]; [| exact Hok].
        rewrite Hp. split; [exact Hzero |].
        pose proof (Hjm_min 0%nat Hzero).
        pose proof (distance_bound (jc jm) 0 Hcjm ltac:(lia)). lia. }
      split; [apply Hpar |]. split; [apply Hpar |].
      intros c' a Hc' Ha.
      apply list_elem_of_fmap in Hc' as (j & -> & Hj).
      destruct (Hnew j Hj) as (Hj_min & _).
      specialize (Hj_min a Ha).
      apply elem_of_cons in Hj as [-> | Hj]; [exact Hj_min |].
      rewrite Forall_forall in Hmin. specialize (Hmin j Hj). lia.
Qed.
End lightest.

(** X20: [build_mst] is Prim's algorithm on the composite key. It returns
    the parent vector of a tree over all the vertices, and the vertices can
    be listed, vertex 0 first, in an order in which every other vertex [c]
    has its parent among the vertices listed before it, the key of [c] to
    that parent being the smallest key between a vertex listed before [c]
    and a vertex not listed before [c]. This holds for every shuffle, with
    and without inferred ancestors. *)
Theorem build_mst_lightest_edges (rnd : Rand) (input : list dna) (dism : Matrix Z)
    (shuffle_sequences do_infer_ancestors : bool) (n L : nat) :
  mat_wf n dism -> (1 <= n)%nat ->
  (input = [] /\ do_infer_ancestors = false) \/ length input = n ->
  Forall (fun s => length s = L) input ->
  fair L rnd ->
  Forall (fun x => x <= MAX_D) (buf_ dism) ->
  let sequences :=
    input ++ (if do_infer_ancestors then infer_ancestors rnd input dism else []) in
  exists tree order,
    build_mst rnd input dism shuffle_sequences do_infer_ancestors = Ret tree /\
    order ≡ₚ seq 0 (length tree) /\ order !! 0%nat = Some 0%nat /\
    forall i c, (1 <= i)%nat -> order !! i = Some c ->
      exists p d, tree !! c = Some p /\ p ∈ take i order /\
        join_distance sequences dism c p = Ret d /\
        forall c' a, c' ∈ drop i order -> a ∈ take i order ->
          exists d', join_distance sequences dism c' a = Ret d' /\ d <= d'.
Proof.
  intros Hwf Hn Hinput Hall (Hshuffle & Hinfer) Hbuf sequences.
  set (dim := Nat.max (length sequences) (rows_ dism)).
  assert (rows_ dism = n) as Hr by apply Hwf.
  assert (Forall (fun s => length s = L) sequences) as Hseq.
  { unfold sequences. apply Forall_app. split; [assumption |].
    destruct do_infer_ancestors; [apply Hinfer; assumption | constructor]. }
  assert (dim = Nat.max (length sequences) n) as Hdim by (unfold dim; lia).
  assert (Hdef : forall c p, (c < dim)%nat -> (p < dim)%nat ->
            exists d, join_distance sequences dism c p = Ret d).
  { rewrite Hdim. apply (join_distance_defined sequences dism n L); try assumption.
    unfold sequences. destruct Hinput as [(-> & ->) | Hlen].
    - left. reflexivity.
    - right. rewrite length_app. lia. }
  assert (Hbound : forall c p, (c < dim)%nat -> (p < dim)%nat ->
            Dist sequences dism c p <= MAX_D).
  { intros c p Hc Hp. apply (join_distance_bound sequences dism c p); [exact Hbuf |].
    apply join_distance_Dist with dim; assumption. }
  destruct (build_mst_run (lightest_inv sequences dism dim) rnd input dism
              shuffle_sequences do_infer_ancestors)
    as (joins & tree & Hrun & HJ & Hroot & Htree).
  - fold sequences. fold dim. lia.
  - fold sequences. fold dim. exact Hdef.
  - fold sequences. fold dim. apply lightest_inv_initial; [lia |].
    destruct shuffle_sequences; [apply Hshuffle | reflexivity].
  - fold sequences. fold dim. intros pre pend HJ. apply HJ.
  - fold sequences. fold dim. intros pre pend la jm rest HJ Hlast Hrel Hmin.
    apply (lightest_inv_step sequences dism dim Hbound pre pend la); assumption.
  - fold sequences in Hroot, HJ. fold dim in Hroot, HJ.
    destruct HJ as (Hshape & _ & Hcut).
    destruct Hshape as (Hlen & Hperm & Hhead & _).
    rewrite app_nil_r in Hlen, Hperm.
    destruct Hroot as (Hlt & _).
    exists tree, (map jc joins).
    split; [exact Hrun |]. split; [rewrite Hlt; exact Hperm |].
    split; [rewrite list_lookup_fmap, Hhead; reflexivity |].
    intros i c Hi Hic. rewrite list_lookup_fmap in Hic.
    destruct (joins !! i) as [j|] eqn:Hj; [| discriminate].
    injection Hic as <-.
    destruct (Hcut i j Hi Hj) as (Hp & Hd & Hmin).
    assert (Hin : forall v, v ∈ map jc joins -> (v < dim)%nat).
    { intros v Hv. rewrite Hperm in Hv. apply elem_of_seq in Hv. lia. }
    assert (Hc : (jc j < dim)%nat).
    { apply Hin. apply list_elem_of_fmap. exists j. split; [reflexivity |].
      apply list_elem_of_lookup. eauto. }
    assert (Hpd : (jp j < dim)%nat).
    { apply Hin. eapply subseteq_take. exact Hp. }
    exists (jp j), (jd j).
    split; [apply Htree; apply list_elem_of_lookup; eauto |].
    split; [exact Hp |].
    split; [rewrite Hd; apply join_distance_Dist with dim; assumption |].
    intros c' a Hc' Ha.
    exists (Dist sequences dism c' a). split.
    + apply join_distance_Dist with dim; [exact Hdef | |].
      * apply Hin. apply list_elem_of_lookup in Hc' as [k Hk].
        rewrite lookup_drop in Hk. apply list_elem_of_lookup. eauto.
      * apply Hin. eapply subseteq_take. exact Ha.
    + apply Hmin; [| exact Ha]. rewrite app_nil_r.
      change (map jc (drop i joins)) with (jc <$> drop i joins).
      rewrite fmap_drop. exact Hc'.
Qed.

Lemma build_mst_lightest_edges_witness :
  exists tree order,
    build_mst reversing [str "ACGT"; str "ACGA"; str "TCGA"; str "TTGA"]
      (mkMatrix 4 4
       [0; 65537; 131074; 196611; 65536; 1; 65538; 131075;
        131072; 65537; 2; 65539; 196608; 131073; 65538; 3]) true true = Ret tree /\
    order ≡ₚ seq 0 (length tree) /\ order !! 0%nat = Some 0%nat /\
    forall i c, (1 <= i)%nat -> order !! i = Some c ->
      exists p d, tree !! c = Some p /\ p ∈ take i order /\
        join_distance
          ([str "ACGT"; str "ACGA"; str "TCGA"; str "TTGA"] ++
         infer_ancestors reversing [str "ACGT"; str "ACGA"; str "TCGA"; str "TTGA"]
           (mkMatrix 4 4
       [0; 65537; 131074; 196611; 65536; 1; 65538; 131075;
        131072; 65537; 2; 65539; 196608; 131073; 65538; 3]))
          (mkMatrix 4 4
       [0; 65537; 131074; 196611; 65536; 1; 65538; 131075;
        131072; 65537; 2; 65539; 196608; 131073; 65538; 3]) c p = Ret d /\
        forall c' a, c' ∈ drop i order -> a ∈ take i order ->
          exists d', join_distance
            ([str "ACGT"; str "ACGA"; str "TCGA"; str "TTGA"] ++
         infer_ancestors reversing [str "ACGT"; str "ACGA"; str "TCGA"; str "TTGA"]
           (mkMatrix 4 4
       [0; 65537; 131074; 196611; 65536; 1; 65538; 131075;
        131072; 65537; 2; 65539; 196608; 131073; 65538; 3]))
            (mkMatrix 4 4
       [0; 65537; 131074; 196611; 65536; 1; 65538; 131075;
        131072; 65537; 2; 65539; 196608; 131073; 65538; 3]) c' a = Ret d' /\ d <= d'.
Proof.
  apply (build_mst_lightest_edges reversing [str "ACGT"; str "ACGA"; str "TCGA"; str "TTGA"]
           (mkMatrix 4 4
       [0; 65537; 131074; 196611; 65536; 1; 65538; 131075;
        131072; 65537; 2; 65539; 196608; 131073; 65538; 3]) true true 4 4).
  - repeat split.
  - lia.
  - right. reflexivity.
  - repeat constructor.
  - exact reversing_fair.
  - repeat constructor; unfold MAX_D, UINT32_MAX; lia.
Defined.

(** ** main_frame.cpp: intervals, codons and alignments *)


(** Every step of the walk back adds one character to each row. *)
Lemma traceback_lengths fuel seqa seqb cdnsa cdnsb trace i j top btm t b :
  traceback fuel seqa seqb cdnsa cdnsb trace i j top btm = Ret (t, b) ->
  (length t + length btm = length b + length top)%nat.
Proof.
  revert i j top btm. induction fuel as [|fuel IH]; intros i j top btm H;
    [discriminate |].
  cbn [traceback] in H. first_call H as tr Htr.
  destruct (decide (mv tr = "m"%char)).
  - first_call H as ca Hca. first_call H as x Hx.
    first_call H as cb Hcb. first_call H as y Hy.
    destruct (decide (i = 0 \/ j = 0)%nat); [discriminate |].
    apply IH in H. rewrite !length_app in H. simpl in H. lia.
  - destruct (decide (mv tr = "a"%char)).
    + first_call H as cb Hcb. first_call H as y Hy.
      destruct (decide (j = 0)%nat); [discriminate |].
      apply IH in H. rewrite !length_app in H. simpl in H. lia.
    + destruct (decide (mv tr = "b"%char)).
      * first_call H as ca Hca. first_call H as x Hx.
        destruct (decide (i = 0)%nat); [discriminate |].
        apply IH in H. rewrite !length_app in H. simpl in H. lia.
      * injection H as <- <-. lia.
Qed.

Lemma column_muts_defined (top btm : dna) :
  length top = length btm -> exists muts, column_muts top btm = Ret muts.
Proof.
  intros Hlen. unfold column_muts.
  match goal with
  | |- context [for_each ?xs ?body ?init] =>
      destruct (for_each_seq_inv
        (fun (_ : nat) (st : list Mut * nat) => True)
        body 0 (length top) init I) as (st & Hrun & _)
  end.
  - intros k [muts j] Hk _.
    destruct (lookup_lt_is_Some_2 top k) as [c Hc]; [lia |].
    destruct (lookup_lt_is_Some_2 btm k) as [d Hd]; [lia |].
    rewrite (vec_at_Some _ _ _ Hc), Ret_bind.
    rewrite (vec_at_Some _ _ _ Hd), Ret_bind.
    eexists. split; [reflexivity | exact I].
  - simpl in Hrun. rewrite Hrun. eexists. reflexivity.
Qed.

(** X22: the two rows [contrained_nw_align] returns have the same length,
    so that [tally_alignment_mutations] accepts them (its [assert] holds)
    and returns the list of mutations. *)
Theorem alignment_rows_tally (seqa seqb : dna) (gapp : Z) (top btm : dna) :
  contrained_nw_align seqa seqb gapp = Ret (top, btm) ->
  length top = length btm /\
  exists muts, tally_alignment_mutations top btm = Ret muts.
Proof.
  intros H. unfold contrained_nw_align in H.
  first_call H as mtch Hm. first_call H as trace Ht.
  first_call H as tb Htb. destruct tb as [t b]. injection H as <- <-.
  apply traceback_lengths in Htb. simpl in Htb.
  assert (Hlen : length (rev t) = length (rev b)) by (rewrite !length_rev; lia).
  split; [exact Hlen |].
  unfold tally_alignment_mutations. rewrite decide_True by exact Hlen.
  destruct (column_muts_defined _ _ Hlen) as (muts & ->).
  eexists. reflexivity.
Qed.

Lemma alignment_rows_tally_witness :
  length (str "TFK") = length (str "T-K") /\
  exists muts, tally_alignment_mutations (str "TFK") (str "T-K") = Ret muts.
Proof.
  apply (alignment_rows_tally (str "ACGTTTAAA") (str "ACG---AAG") 4).
  vm_compute. reflexivity.
Defined.

(** *** find_codon_boundaries *)

Lemma nongaps_app (l1 l2 : list ascii) :
  nongaps (l1 ++ l2) = nongaps l1 ++ nongaps l2.
Proof. unfold nongaps. apply filter_app. Qed.

Lemma scan_inv_step (p : list ascii) (st : Scan) (c : ascii) :
  scan_inv p st -> scan_inv (p ++ [c]) (scan_char st (length p, c)).
Proof.
  intros (Hcnt & Hcount & Hall & Hopen).
  assert (Hall' : Forall (fun e : nat * nat =>
            (fst e + snd e <= length (p ++ [c]))%nat /\
            length (nongaps (take (snd e) (drop (fst e) (p ++ [c])))) = 3%nat)
          (s_result st)).
  { eapply Forall_impl; [exact Hall |]. simpl. intros [lo len] (Hle & H3).
    simpl in *. rewrite length_app. simpl. split; [lia |].
    rewrite drop_app_le by lia. rewrite take_app_le by (rewrite length_drop; lia).
    exact H3. }
  assert (Hl : length (p ++ [c]) = Datatypes.S (length p))
    by (rewrite length_app; simpl; lia).
  unfold scan_char. destruct (decide (c <> "-"%char)) as [Hc | Hc].
  - assert (Hng : length (nongaps (p ++ [c])) = Datatypes.S (length (nongaps p))).
    { rewrite nongaps_app, length_app. unfold nongaps at 2.
      rewrite filter_cons, decide_True by exact Hc. simpl. lia. }
    destruct (decide (Datatypes.S (s_cnt st) = 1%nat)) as [H1 | H1].
    + unfold scan_inv. cbn [s_cnt s_lo s_result].
      split; [lia |]. split; [lia |]. split; [exact Hall' |].
      intros _. split; [lia |].
      rewrite drop_app_length. unfold nongaps.
      rewrite filter_cons, decide_True by exact Hc. simpl. lia.
    + destruct (Hopen ltac:(lia)) as (Hlo & Hseg).
      assert (Hseg' : length (nongaps (drop (s_lo st) (p ++ [c]))) =
                      Datatypes.S (s_cnt st)).
      { rewrite drop_app_le by lia. rewrite nongaps_app, length_app, Hseg.
        unfold nongaps. rewrite filter_cons, decide_True by exact Hc.
        simpl. lia. }
      destruct (decide (Datatypes.S (s_cnt st) = 3%nat)) as [H3 | H3].
      * unfold scan_inv. cbn [s_cnt s_lo s_result].
        split; [lia |]. split; [rewrite length_app; simpl; lia |].
        split; [| lia].
        apply Forall_app. split; [exact Hall' |].
        constructor; [| constructor]. cbn [fst snd].
        split; [lia |].
        rewrite take_ge by (rewrite length_drop; lia).
        rewrite Hseg'. exact H3.
      * unfold scan_inv. cbn [s_cnt s_lo s_result].
        split; [lia |]. split; [lia |]. split; [exact Hall' |].
        intros _. split; [lia | exact Hseg'].
  - assert (Hng : length (nongaps (p ++ [c])) = length (nongaps p)).
    { rewrite nongaps_app, length_app. unfold nongaps at 2.
      rewrite filter_cons, decide_False by exact Hc. simpl. lia. }
    unfold scan_inv.
    split; [exact Hcnt |]. split; [lia |]. split; [exact Hall' |].
    intros H1. destruct (Hopen H1) as (Hlo & Hseg). split; [lia |].
    rewrite drop_app_le by lia. rewrite nongaps_app, length_app, Hseg.
    unfold nongaps. rewrite filter_cons, decide_False by exact Hc. simpl. lia.
Qed.

Lemma scan_inv_fold (seq0 : list ascii) :
  scan_inv seq0 (fold_left scan_char (imap pair seq0) (mkScan 0 0 [])).
Proof.
  induction seq0 as [|c p IH] using rev_ind.
  - unfold scan_inv. simpl. split; [lia |]. split; [reflexivity |].
    split; [constructor | lia].
  - rewrite imap_app, fold_left_app. simpl. rewrite Nat.add_0_r.
    apply scan_inv_step. exact IH.
Qed.

Lemma find_codon_boundaries_spec (seq0 : list ascii) :
  length (find_codon_boundaries seq0) = (length (nongaps seq0) / 3)%nat /\
  Forall (fun c : nat * nat =>
            (fst c + snd c <= length seq0)%nat /\
            length (nongaps (take (snd c) (drop (fst c) seq0))) = 3%nat)
         (find_codon_boundaries seq0).
Proof.
  destruct (scan_inv_fold seq0) as (Hcnt & Hcount & Hall & _).
  unfold find_codon_boundaries. split; [| exact Hall].
  rewrite <- Hcount. rewrite Nat.div_add_l by lia.
  rewrite Nat.div_small by exact Hcnt. lia.
Qed.

(** X23: [find_codon_boundaries] returns one interval for every three
    nucleotides of the sequence, an incomplete last codon left out; every
    interval lies inside the sequence and holds exactly three nucleotides,
    the gaps between them included in its length. *)
Theorem find_codon_boundaries_codons (seq0 : list ascii) :
  length (find_codon_boundaries seq0) = (length (nongaps seq0) / 3)%nat /\
  Forall (fun c : nat * nat =>
            (fst c + snd c <= length seq0)%nat /\
            length (nongaps (take (snd c) (drop (fst c) seq0))) = 3%nat)
         (find_codon_boundaries seq0).
Proof. apply find_codon_boundaries_spec. Qed.

Lemma translate_loop_length (g cdn aas0 r : list ascii) :
  Forall (fun c => c <> "-"%char) g -> (length cdn < 3)%nat ->
  translate_loop g cdn aas0 = Ret r ->
  length r = (length aas0 + (length cdn + length g) / 3)%nat.
Proof.
  intros Hg. revert cdn aas0.
  induction Hg as [|c g Hc Hg IH]; intros cdn aas0 Hcdn Hrun.
  - simpl in Hrun. injection Hrun as <-. cbn [length].
    rewrite Nat.add_0_r, Nat.div_small by exact Hcdn. lia.
  - cbn [translate_loop] in Hrun.
    rewrite (decide_True (P := c <> "-"%char)) in Hrun by exact Hc.
    destruct (decide (length (cdn ++ [c]) = 3%nat)) as [H3 | H3].
    + first_call Hrun as aa Haa. apply IH in Hrun; [| simpl; lia].
      rewrite Hrun, length_app. cbn [length].
      rewrite length_app in H3. simpl in H3.
      replace (length cdn + Datatypes.S (length g))%nat
        with (1 * 3 + length g)%nat by lia.
      rewrite Nat.div_add_l by lia. simpl. lia.
    + rewrite length_app in H3. simpl in H3.
      apply IH in Hrun; [| rewrite length_app; simpl; lia].
      rewrite Hrun, length_app. cbn [length]. do 2 f_equal. lia.
Qed.

(** X24: the codons [find_codon_boundaries] finds are the codons
    [translate] translates: whenever a sequence has a translation, there is
    one interval for each of its residues. *)
Theorem codon_boundaries_translation (seq0 aas : list ascii) :
  translate seq0 = Ret aas ->
  length (find_codon_boundaries seq0) = length aas.
Proof.
  intros H. rewrite translate_filter_gaps in H. unfold translate in H.
  apply translate_loop_length in H; [| | simpl; lia].
  - rewrite H. simpl. apply find_codon_boundaries_spec.
  - apply Forall_forall. intros c Hc. apply list_elem_of_filter in Hc. tauto.
Qed.

Lemma codon_boundaries_translation_witness :
  length (find_codon_boundaries (str "AC-GTT--TA-AAC")) = length (str "TFK").
Proof. apply codon_boundaries_translation. vm_compute. reflexivity. Defined.

(** *** tally_alignment_mutations *)

Lemma column_muts_differences (top btm : dna) :
  length top = length btm ->
  exists muts, column_muts top btm = Ret muts /\
    (muts = [] <-> top = btm) /\ Forall named_mut muts.
Proof.
  intros Hlen. unfold column_muts.
  match goal with
  | |- context [for_each ?xs ?body ?init] =>
      destruct (for_each_seq_inv
        (fun (k : nat) (st : list Mut * nat) =>
           (fst st = [] <-> take k top = take k btm) /\
           Forall named_mut (fst st))
        body 0 (length top) init) as (st & Hrun & Hiff & Hnamed)
  end.
  - simpl. split; [tauto | constructor].
  - intros k [muts j] Hk (Hiff & Hnamed). simpl in Hiff, Hnamed.
    destruct (lookup_lt_is_Some_2 top k) as [t Ht]; [lia |].
    destruct (lookup_lt_is_Some_2 btm k) as [b Hb]; [lia |].
    rewrite (vec_at_Some _ _ _ Ht), Ret_bind.
    rewrite (vec_at_Some _ _ _ Hb), Ret_bind.
    eexists. split; [reflexivity |]. cbn [fst].
    rewrite (take_S_r _ _ _ Ht), (take_S_r _ _ _ Hb).
    assert (Hsnoc : take k top ++ [t] = take k btm ++ [b] <->
                    take k top = take k btm /\ t = b).
    { split.
      - intros H. apply app_inj_2 in H; [| reflexivity].
        destruct H as [H1 H2]. injection H2 as ->. auto.
      - intros [-> ->]. reflexivity. }
    rewrite Hsnoc.
    destruct (decide (t = "-"%char /\ b <> "-"%char)) as [[-> Hb'] | H1].
    { split; [| apply Forall_app; split; [exact Hnamed |];
                 constructor; [left; reflexivity | constructor]].
      split; [intros H; destruct muts; discriminate |].
      intros [_ <-]. congruence. }
    destruct (decide (t <> "-"%char /\ b = "-"%char)) as [[Ht' ->] | H2].
    { split; [| apply Forall_app; split; [exact Hnamed |];
                 constructor; [right; left; reflexivity | constructor]].
      split; [intros H; destruct muts; discriminate |].
      intros [_ ->]. congruence. }
    destruct (decide (t <> b)) as [H3 | H3].
    { split; [| apply Forall_app; split; [exact Hnamed |];
                 constructor; [right; right; discriminate | constructor]].
      split; [intros H; destruct muts; discriminate |].
      intros [_ ->]. congruence. }
    split; [| exact Hnamed].
    apply dec_stable in H3. subst b. tauto.
  - simpl in Hrun. rewrite Hrun. exists (fst st).
    split; [reflexivity |]. split; [| exact Hnamed].
    rewrite Hiff. rewrite take_ge by lia. rewrite take_ge by lia. reflexivity.
Qed.

Lemma consolidate_from_named (b : Mut) (rprefix acc : list Mut) :
  named_mut b -> Forall named_mut rprefix -> Forall named_mut acc ->
  consolidate_from b rprefix acc <> [] /\
  Forall named_mut (consolidate_from b rprefix acc).
Proof.
  revert b acc. induction rprefix as [|a rest IH]; intros b acc Hb Hr Hacc.
  - simpl. split; [destruct acc; discriminate |].
    apply Forall_app. split; [exact Hacc | constructor; [exact Hb | constructor]].
  - apply Forall_cons in Hr as [Ha Hrest]. simpl.
    destruct (decide _) as [(Hty & Heq & Hpos) | Hno].
    + apply IH; [| exact Hrest | exact Hacc].
      destruct Ha as [Ha | [Ha | Ha]]; [left; exact Ha | right; left; exact Ha |].
      right. right. simpl. destruct (m_top a); [congruence | discriminate].
    + apply IH; [exact Ha | exact Hrest |].
      apply Forall_app. split; [exact Hacc | constructor; [exact Hb | constructor]].
Qed.

Lemma token_named (m : Mut) :
  named_mut m -> exists x y rest, token m = x :: y :: rest.
Proof.
  intros H. unfold token.
  destruct (decide (m_type m = "+"%char)).
  { simpl. destruct (to_string (m_pos m + 1) ++ m_btm m); simpl; eauto. }
  destruct (decide (m_type m = "-"%char)).
  { simpl. destruct (to_string (m_pos m + 1) ++ m_top m); simpl; eauto. }
  destruct H as [H | [H | H]]; [congruence | congruence |].
  destruct (m_top m) as [|x t]; [congruence |]. simpl.
  destruct (t ++ to_string (m_pos m + 1) ++ m_btm m); simpl; eauto.
Qed.

(** X25: for two rows of one length [tally_alignment_mutations] returns
    the empty string exactly when the rows are equal. *)
Theorem tally_empty_iff_equal (top btm : dna) :
  length top = length btm ->
  exists out, tally_alignment_mutations top btm = Ret out /\
    (out = [] <-> top = btm).
Proof.
  intros Hlen. unfold tally_alignment_mutations.
  rewrite decide_True by exact Hlen.
  destruct (column_muts_differences top btm Hlen) as (muts & -> & Hiff & Hnamed).
  eexists. split; [reflexivity |]. rewrite <- Hiff.
  unfold consolidate. destruct (rev muts) as [|b rprefix] eqn:Hrev.
  - assert (muts = []) as -> by (apply (f_equal (@rev _)) in Hrev;
      rewrite rev_involutive in Hrev; exact Hrev).
    simpl. tauto.
  - assert (Hmuts : muts <> []) by (intros ->; discriminate).
    assert (Hnr : Forall named_mut (b :: rprefix))
      by (rewrite <- Hrev; apply Forall_rev; exact Hnamed).
    apply Forall_cons in Hnr as [Hb Hr].
    destruct (consolidate_from_named b rprefix [] Hb Hr ltac:(constructor))
      as (Hne & Hall).
    split; [| intros ->; congruence]. intros Hout. exfalso.
    destruct (rev (consolidate_from b rprefix [])) as [|m ms] eqn:Hc.
    { apply (f_equal (@rev _)) in Hc. rewrite rev_involutive in Hc.
      apply Hne. exact Hc. }
    assert (Hm : named_mut m).
    { apply Forall_rev in Hall. rewrite Hc in Hall.
      apply Forall_cons in Hall. tauto. }
    destruct (token_named m Hm) as (x & y & rest & Htok).
    simpl in Hout. rewrite Htok in Hout. simpl in Hout.
    destruct (rest ++ flat_map token ms); discriminate.
Qed.

Lemma tally_empty_iff_equal_witness :
  exists out, tally_alignment_mutations (str "TFK") (str "T-K") = Ret out /\
    (out = [] <-> str "TFK" = str "T-K").
Proof. apply tally_empty_iff_equal. reflexivity. Defined.

(** ** network.cpp: forces, pins and constants *)

(** Two outcomes of one kind, with related results. *)
Definition orel {A} (R : A -> A -> Prop) (o o' : outcome A) : Prop :=
  match o, o' with
  | Ret a, Ret a' => R a a'
  | Throw e, Throw e' => e = e'
  | Stuck, Stuck => True
  | _, _ => False
  end.

Lemma orel_eq {A} (R : A -> A -> Prop) (o o' : outcome A) :
  orel R o o' -> (forall a a', R a a' -> a = a') -> o = o'.
Proof.
  intros H HR. destruct o, o'; simpl in H; try contradiction;
    [f_equal; apply HR; exact H | f_equal; exact H | reflexivity].
Qed.

(** Two runs of a counted loop, from related states. *)
Lemma for_each_seq_rel {S} (R : nat -> S -> S -> Prop)
    (body body' : S -> nat -> outcome S) (n : nat) :
  forall k s s',
  R k s s' ->
  (forall i t t', (k <= i < k + n)%nat -> R i t t' ->
     orel (R (Datatypes.S i)) (body t i) (body' t' i)) ->
  orel (R (k + n)%nat) (for_each (seq k n) body s) (for_each (seq k n) body' s').
Proof.
  induction n as [|n IH]; intros k s s' H0 Hstep.
  - simpl. rewrite Nat.add_0_r. exact H0.
  - cbn [seq for_each].
    pose proof (Hstep k s s' ltac:(lia) H0) as H1.
    destruct (body s k) as [t | e |], (body' s' k) as [t' | e' |];
      simpl in H1; try contradiction; simpl.
    + replace (k + Datatypes.S n)%nat with (Datatypes.S k + n)%nat by lia.
      apply IH; [exact H1 |].
      intros i u u' Hi. apply Hstep. lia.
    + exact H1.
    + exact I.
Qed.

Lemma zeros_same_length (a b : list Q) :
  length a = length b -> map (fun _ => 0%Q) a = map (fun _ => 0%Q) b.
Proof.
  revert b. induction a as [|x a IH]; intros [|y b] H; simpl in *;
    try discriminate; [reflexivity |].
  f_equal. apply IH. lia.
Qed.

(** A worker clears its accumulators first: of what they held it uses the
    sizes only, and of the network it reads no accumulator. *)
Lemma simulate_step_worker_fresh (sqrtf : Q -> Q) (net : Network)
    (fxs fys : list (list Q)) (fx fy fx' fy' : list Q) (lo hi : Z) :
  length fx' = length fx -> length fy' = length fy ->
  simulate_step_worker sqrtf (with_accumulators net fxs fys) fx' fy' lo hi =
  simulate_step_worker sqrtf net fx fy lo hi.
Proof.
  intros Hx Hy. unfold simulate_step_worker.
  rewrite (zeros_same_length fx' fx Hx), (zeros_same_length fy' fy Hy).
  reflexivity.
Qed.

(** The accumulators of two runs of the first loop of [simulate_step] when
    worker [k] is about to start: the vectors of the workers before [k] are
    the same, the others have the same sizes. *)
Definition cleared (N k : nat) (a a' : list (list Q)) : Prop :=
  length a = N /\ length a' = N /\
  (forall i, (i < k)%nat -> a !! i = a' !! i) /\
  forall i r r', a !! i = Some r -> a' !! i = Some r' -> length r = length r'.

Lemma cleared_initial (N : nat) (a a' : list (list Q)) :
  length a = N -> same_sizes a a' -> cleared N 0 a a'.
Proof.
  intros Ha Hs. split; [exact Ha |].
  split; [rewrite <- (Forall2_length _ _ _ Hs); exact Ha |].
  split; [intros i Hi; lia |].
  intros i r r' Hr Hr'. exact (Forall2_lookup_lr _ _ _ _ _ _ Hs Hr Hr').
Qed.

Lemma cleared_set (N k : nat) (a a' : list (list Q)) (r : list Q) :
  cleared N k a a' -> (k < N)%nat ->
  cleared N (Datatypes.S k) (<[ k := r ]> a) (<[ k := r ]> a').
Proof.
  intros (La & La' & Heq & Hlen) Hk.
  split; [rewrite length_insert; exact La |].
  split; [rewrite length_insert; exact La' |]. split.
  - intros i Hi. destruct (decide (i = k)) as [-> | Hne].
    + rewrite !list_lookup_insert_eq by lia. reflexivity.
    + rewrite !list_lookup_insert_ne by congruence. apply Heq. lia.
  - intros i q q' Hq Hq'. destruct (decide (i = k)) as [-> | Hne].
    + rewrite list_lookup_insert_eq in Hq, Hq' by lia. congruence.
    + rewrite list_lookup_insert_ne in Hq, Hq' by congruence.
      exact (Hlen i q q' Hq Hq').
Qed.

Lemma cleared_all (N : nat) (a a' : list (list Q)) :
  cleared N N a a' -> a = a'.
Proof.
  intros (La & La' & Heq & _). apply list_eq. intros i.
  destruct (decide (i < N)%nat) as [Hi | Hi]; [apply Heq; exact Hi |].
  rewrite !lookup_ge_None_2 by lia. reflexivity.
Qed.

(** The forces of a step do not depend on what the accumulators held. *)
Lemma compute_forces_fresh (sqrtf : Q -> Q) (net : Network)
    (fxs fys : list (list Q)) :
  length (fxs_ net) = n_workers_ net -> length (fys_ net) = n_workers_ net ->
  same_sizes (fxs_ net) fxs -> same_sizes (fys_ net) fys ->
  compute_forces sqrtf (with_accumulators net fxs fys) =
  compute_forces sqrtf net.
Proof.
  intros Lx Ly Sx Sy. unfold compute_forces.
  change (n_workers_ (with_accumulators net fxs fys)) with (n_workers_ net).
  change (ids (with_accumulators net fxs fys)) with (ids net).
  change (fxs_ (with_accumulators net fxs fys)) with fxs.
  change (fys_ (with_accumulators net fxs fys)) with fys.
  destruct (decide (n_workers_ net = 0%nat)) as [| Hw]; [reflexivity |].
  set (N := n_workers_ net) in *.
  match goal with
  | |- mbind ?K ?o' = mbind ?K ?o => assert (o = o') as ->; [| reflexivity]
  end.
  apply (orel_eq (fun s s' : list (list Q) * list (list Q) =>
           cleared N N (fst s) (fst s') /\ cleared N N (snd s) (snd s'))).
  - change N with (0 + N)%nat at 2 4.
    apply (for_each_seq_rel (fun k (s s' : list (list Q) * list (list Q)) =>
             cleared N k (fst s) (fst s') /\ cleared N k (snd s) (snd s'))).
    + split; apply cleared_initial; assumption.
    + intros i [a b] [a' b'] Hi (Ca & Cb). cbn [fst snd] in Ca, Cb.
      cbn beta iota.
      destruct Ca as (La & La' & Ea & Sa). destruct Cb as (Lb & Lb' & Eb & Sb).
      destruct (lookup_lt_is_Some_2 a i) as [r Hr]; [lia |].
      destruct (lookup_lt_is_Some_2 a' i) as [r' Hr']; [lia |].
      destruct (lookup_lt_is_Some_2 b i) as [q Hq]; [lia |].
      destruct (lookup_lt_is_Some_2 b' i) as [q' Hq']; [lia |].
      unfold vec_at. rewrite Hr, Hr', Hq, Hq'. repeat ret_bind.
      destruct (worker_range _ _ _) as [lo hi].
      rewrite (simulate_step_worker_fresh sqrtf net fxs fys r q r' q' lo hi)
        by (symmetry; eauto).
      destruct (simulate_step_worker sqrtf net r q lo hi) as [[fx fy] | e |];
        [| reflexivity | exact I].
      cbn [mbind outcome_bind]. unfold vec_set.
      rewrite !decide_True by lia. cbn [mbind outcome_bind mret outcome_ret].
      cbn [orel fst snd].
      split; apply cleared_set; (lia || (repeat split; assumption)).
  - intros [a b] [a' b'] (Ca & Cb). cbn [fst snd] in Ca, Cb.
    f_equal; apply (cleared_all N); assumption.
Qed.

(** X26: the forces of a step are computed afresh. Every worker clears its
    accumulators before it adds a force, so when the network holds one
    accumulator per worker (as [init_simulation] leaves it), a call of
    [simulate_step] gives the same result, an error included, whatever the
    accumulators [fxs_] and [fys_] held before it: only their sizes
    matter. *)
Theorem simulate_step_fresh_forces (sqrtf : Q -> Q) (net : Network)
    (fxs fys : list (list Q)) :
  length (fxs_ net) = n_workers_ net -> length (fys_ net) = n_workers_ net ->
  same_sizes (fxs_ net) fxs -> same_sizes (fys_ net) fys ->
  simulate_step sqrtf (with_accumulators net fxs fys) =
  simulate_step sqrtf net.
Proof.
  intros Lx Ly Sx Sy. unfold simulate_step.
  rewrite (compute_forces_fresh sqrtf net fxs fys Lx Ly Sx Sy).
  reflexivity.
Qed.

Lemma simulate_step_fresh_forces_witness :
  simulate_step sqrt_lower (with_accumulators two_nodes [[5; 7]%Q] [[1; 2]%Q]) =
  simulate_step sqrt_lower two_nodes.
Proof.
  apply (simulate_step_fresh_forces sqrt_lower two_nodes [[5; 7]%Q] [[1; 2]%Q]);
    try reflexivity; repeat constructor.
Defined.


Lemma node_index_None (net : Network) (id : nat) :
  id ∉ ids net -> node_index net id = None.
Proof.
  intros Hno. unfold node_index.
  destruct (list_find (fun x => x = id) (ids net)) as [[j y] |] eqn:E;
    [| reflexivity].
  apply list_find_Some in E as (Hj & -> & _). exfalso. apply Hno.
  apply list_elem_of_lookup. exists j. exact Hj.
Qed.



(** X28: [pin_node], [unpin_node] and [translate_node] with an id that no
    node of the network has return without an error and leave the network
    as it is. *)
Theorem unknown_node_untouched (net : Network) (id : nat) (dx dy : Q) :
  id ∉ ids net ->
  pin_node id net = Ret net /\ unpin_node id net = Ret net /\
  translate_node id dx dy net = Ret net.
Proof.
  intros H. apply node_index_None in H.
  unfold pin_node, unpin_node, translate_node. rewrite H. auto.
Qed.

Lemma unknown_node_untouched_witness :
  pin_node 7 two_nodes = Ret two_nodes /\
  unpin_node 7 two_nodes = Ret two_nodes /\
  translate_node 7 1 1 two_nodes = Ret two_nodes.
Proof.
  apply (unknown_node_untouched two_nodes 7 1 1).
  intros H. apply list_elem_of_In in H. simpl in H. intuition lia.
Defined.

(** ** parsers.cpp *)


